(** * tbplot: the option-merging helper, the tolerance set, the structure map
      and the figure-comparison scope

    A shallow embedding of
      - [tbplot/detail/utils.py]   ([with_defaults], [FuzzySet]),
      - [tbplot/results.py]        ([StructureMap._filter_csr_matrix],
                                    [StructureMap.__getitem__], [to_radii]),
      - [tests/utils/compare_figures.py] ([AssertFigure]).

    Conventions.
      - A Python [dict] with string keys is a [gmap string V].
      - Python objects that are shared and mutated (dicts, the [data] list of
        a [FuzzySet]) live in an explicit store indexed by references.
      - The numbers of [FuzzySet] items, of the tolerances and of
        [to_radii] are IEEE 754 binary64 numbers ([float], with the
        processor's rounding, infinities and NaN), as NumPy's [float64] and
        Python's [float] are. Decimal literals denote the nearest binary64
        number, as they do in Python.
      - Where the code only compares and selects numbers ([cropped],
        [clipped], indexing), they are rationals [Q]. *)

From Stdlib Require Import Floats.
From Stdlib Require Import QArith Qabs Qminmax Lqa ZArith Lia.
From stdpp Require Import gmap strings list fin_maps.

#[local] Set Warnings "-inexact-float".


(* ===================================================================== *)
(** ** [with_defaults] *)
(* ===================================================================== *)

Module WithDefaults.

(** References to dict objects in the store. *)
Abbreviation ref := positive.

Section Dicts.
Context {V : Type}.

Abbreviation dict := (gmap string V).
Abbreviation store := (gmap ref (gmap string V)).

(** Truth value of a dict: [{}] is falsy, everything else truthy. *)
Definition dict_truthy (d : dict) : bool :=
  negb (bool_decide (dom d = ∅)).

(** Truth value of an argument that is either [None] or a dict. *)
Definition truthy (o : option dict) : bool :=
  match o with
  | None => false
  | Some d => dict_truthy d
  end.

(** [dict(base, **over)]: a new dict holding [base]'s items, then updated
    with the items of [over]. *)
Definition dict_new (base over : dict) : dict := over ∪ base.

(** The value computed by [with_defaults], with dicts as values.
<<
  options = options if options else {}
  if defaults_dict:
      options = dict(defaults_dict, **options)
  return dict(defaults_kwargs, **options)
>> *)
Definition with_defaults (options defaults_dict : option dict)
    (defaults_kwargs : dict) : dict :=
  let options :=
    match options with
    | Some o => if dict_truthy o then o else ∅
    | None => ∅
    end in
  let options :=
    match defaults_dict with
    | Some d => if dict_truthy d then dict_new d options else options
    | None => options
    end in
  dict_new defaults_kwargs options.

(** *** The same function over the store of dict objects *)

(** A computation reads and extends the store; [None] is a dangling
    reference, which a Python program cannot produce. *)
Definition M (A : Type) : Type := store → option (A * store).

Definition ret {A} (a : A) : M A := λ h, Some (a, h).
Definition bind {A B} (m : M A) (k : A → M B) : M B :=
  λ h, match m h with
       | Some (a, h') => k a h'
       | None => None
       end.

Local Notation "'do' x <- m ; k" := (bind m (λ x, k))
  (at level 10, x name, m at level 100, k at level 200).

(** Read the dict behind a reference. *)
Definition deref (r : ref) : M dict :=
  λ h, match h !! r with
       | Some d => Some (d, h)
       | None => None
       end.

(** Allocate a new dict object ([{}] or [dict(...)]). *)
Definition alloc (d : dict) : M ref :=
  λ h, let r := fresh (dom h) in Some (r, <[r := d]> h).

(** Truth value of an argument that is [None] or a reference. *)
Definition truthy_ref (o : option ref) : M bool :=
  match o with
  | None => ret false
  | Some r => do d <- deref r; ret (dict_truthy d)
  end.

(** [dict(base, **over)] on references: both are only read. *)
Definition dict_call (base over : ref) : M ref :=
  do b <- deref base;
  do o <- deref over;
  alloc (dict_new b o).

Definition with_defaults_st (options defaults_dict : option ref)
    (defaults_kwargs : ref) : M ref :=
  do t <- truthy_ref options;
  do options <- match options with
                | Some o => if t then ret o else alloc ∅
                | None => alloc ∅
                end;
  do t <- truthy_ref defaults_dict;
  do options <- match defaults_dict with
                | Some d => if t then dict_call d options else ret options
                | None => ret options
                end;
  dict_call defaults_kwargs options.

(** The dict behind an optional reference. *)
Definition deref_opt (h : store) (o : option ref) : option dict :=
  match o with
  | Some r => h !! r
  | None => None
  end.

(** An argument is well formed when it is [None] or refers to a dict. *)
Definition valid_arg (h : store) (o : option ref) : Prop :=
  match o with
  | Some r => is_Some (h !! r)
  | None => True
  end.

End Dicts.

(** The documented call, with the three dicts at references 1, 2 and 3. *)
Definition doc_store : gmap ref (gmap string Z) :=
  {[ 1%positive := {[ "hello" := 0%Z ]};
     2%positive := {[ "hello" := 4%Z; "world" := 5%Z ]};
     3%positive := {[ "world" := 7%Z; "yes" := 3%Z ]} ]}.

End WithDefaults.

(* ===================================================================== *)
(** ** Binary64 numbers *)
(* ===================================================================== *)

(** Vocabulary for the bit-level model [spec_float] of the numbers, by
    which the standard library specifies the primitive operations. *)
Module Binary64.
Local Open Scope Z_scope.

(** Not negative: a zero, a positive number or the positive infinity. *)
Definition ge0 (x : spec_float) : Prop :=
  match x with
  | S754_zero _ | S754_finite false _ _ | S754_infinity false => True
  | _ => False
  end.

(** Classes of a number in the model. *)
Definition SFis_nan (x : spec_float) : bool :=
  match x with S754_nan => true | _ => false end.

Definition SFis_finite (x : spec_float) : bool :=
  match x with S754_zero _ | S754_finite _ _ _ => true | _ => false end.

Definition SFis_zero (x : spec_float) : bool :=
  match x with S754_zero _ => true | _ => false end.

(** A key in which [SFcompare] is the lexicographic comparison. *)
Definition key (x : spec_float) : Z * Z * Z :=
  match x with
  | S754_infinity false => (2, 0, 0)
  | S754_finite false m e => (1, e, Z.pos m)
  | S754_zero _ | S754_nan => (0, 0, 0)
  | S754_finite true m e => (-1, - e, Z.neg m)
  | S754_infinity true => (-2, 0, 0)
  end.

Definition lex (p q : Z * Z * Z) : comparison :=
  match p.1.1 ?= q.1.1 with
  | Eq => match p.1.2 ?= q.1.2 with
          | Eq => p.2 ?= q.2
          | c => c
          end
  | c => c
  end.

Definition lex_le (p q : Z * Z * Z) : Prop :=
  p.1.1 < q.1.1
  ∨ (p.1.1 = q.1.1 ∧ (p.1.2 < q.1.2 ∨ (p.1.2 = q.1.2 ∧ p.2 <= q.2))).

End Binary64.

(* ===================================================================== *)
(** ** [FuzzySet] *)
(* ===================================================================== *)

Module FuzzySet.

(** An item is what [np.allclose] accepts here: a scalar or a one-dimensional
    array of [float64] numbers. *)
Inductive item :=
  | Scalar (x : float)
  | Vector (xs : list float).

Inductive exn := ValueError | IndexError.

(** Result of a call: a value, a raised exception, or a loop that was cut
    off after the given number of iterations. *)
Inductive outcome (A : Type) :=
  | Ok (a : A)
  | Raise (e : exn)
  | OutOfFuel.
Arguments Ok {A} a.
Arguments Raise {A} e.
Arguments OutOfFuel {A}.

(** *** [np.allclose] *)

(** NumPy broadcasting of two items, as the list of paired components: a
    scalar pairs with every component, a one-element array is stretched, and
    arrays of different lengths (neither of length one) do not broadcast. *)
Definition broadcast (a b : item) : option (list (float * float)) :=
  match a, b with
  | Scalar x, Scalar y => Some [(x, y)]
  | Scalar x, Vector ys => Some (map (λ y, (x, y)) ys)
  | Vector xs, Scalar y => Some (map (λ x, (x, y)) xs)
  | Vector xs, Vector ys =>
      if (length xs =? length ys)%nat then Some (zip xs ys)
      else match xs, ys with
           | [x], _ => Some (map (λ y, (x, y)) ys)
           | _, [y] => Some (map (λ x, (x, y)) xs)
           | _, _ => None
           end
  end.

Section Tolerance.
Variables rtol atol : float.

(** [np.isclose] on one pair of numbers (NumPy 1.x, [equal_nan=False]):
<<
    def within_tol(x, y, atol, rtol):
        return less_equal(abs(x-y), atol + rtol * abs(y))
    ...
    finite = xfin & yfin
    cond[finite] = within_tol(x[finite], y[finite], atol, rtol)
    cond[~finite] = (x[~finite] == y[~finite])
>>
    Every operation is the binary64 one: the difference, the product and the
    sum are each rounded, and a comparison with a NaN is false. *)
Definition isclose (a b : float) : bool :=
  if PrimFloat.is_finite a && PrimFloat.is_finite b
  then (PrimFloat.abs (a - b) <=? atol + rtol * PrimFloat.abs b)%float
  else (a =? b)%float.

(** [np.allclose(a, b, rtol, atol)]: every broadcast pair is close; shapes
    that do not broadcast raise [ValueError]. *)
Definition allclose (a b : item) : outcome bool :=
  match broadcast a b with
  | Some ps => Ok (forallb (λ p, isclose p.1 p.2) ps)
  | None => Raise ValueError
  end.

(** [any(np.allclose(item, x, ...) for x in data)]: the generator is
    consumed left to right, stops at the first [True], and an exception
    raised on the way propagates. *)
Fixpoint any_allclose (it : item) (data : list item) : outcome bool :=
  match data with
  | [] => Ok false
  | x :: rest =>
      match allclose it x with
      | Ok true => Ok true
      | Ok false => any_allclose it rest
      | Raise e => Raise e
      | OutOfFuel => OutOfFuel
      end
  end.
End Tolerance.

(** *** Objects *)

(** References to list objects. *)
Abbreviation ref := positive.
Abbreviation store := (gmap positive (list item)).

(** A [FuzzySet] object: its attributes. [data] refers to a list object in
    the store; no method rebinds an attribute. *)
Record t := { data : ref; rtol : float; atol : float }.

(** Default arguments of [__init__]: [rtol=1.e-3], [atol=1.e-5]. *)
Definition default_rtol : float := 1e-3.
Definition default_atol : float := 1e-5.

(** A method call transforms the store and ends in an outcome; writes made
    before an exception stay. *)
Definition M (A : Type) : Type := store → store * outcome A.

Definition ret {A} (a : A) : M A := λ h, (h, Ok a).
Definition bind {A B} (m : M A) (k : A → M B) : M B :=
  λ h, match m h with
       | (h', Ok a) => k a h'
       | (h', Raise e) => (h', Raise e)
       | (h', OutOfFuel) => (h', OutOfFuel)
       end.

Notation "'do' x <- m ; k" := (bind m (λ x, k))
  (at level 10, x name, m at level 100, k at level 200).

(** The list behind a reference. *)
Definition list_of (h : store) (r : ref) : list item := h !!! r.

(** [self.data[index]] for [index >= 0]. *)
Definition __getitem__ (self : t) (index : nat) : M item :=
  λ h, match list_of h (data self) !! index with
       | Some x => (h, Ok x)
       | None => (h, Raise IndexError)
       end.

Definition __len__ (self : t) : M nat :=
  λ h, (h, Ok (length (list_of h (data self)))).

Definition __contains__ (self : t) (it : item) : M bool :=
  λ h, (h, any_allclose (rtol self) (atol self) it (list_of h (data self))).

(** [self.data.append(item)] *)
Definition append (r : ref) (it : item) : M unit :=
  λ h, (<[r := list_of h r ++ [it]]> h, Ok tt).

(**
<<
    def add(self, item):
        if item not in self:
            self.data.append(item)
>> *)
Definition add (self : t) (it : item) : M unit :=
  do b <- __contains__ self it;
  if negb b then append (data self) it else ret tt.

(** What a caller can iterate over: a Python sequence of items that the loop
    does not touch, or another [FuzzySet]. *)
Inductive iterable :=
  | PyList (l : list item)
  | PySet (s : t).

(** [for item in l: self.add(item)] over a Python sequence. *)
Fixpoint add_each (self : t) (l : list item) : M unit :=
  match l with
  | [] => ret tt
  | x :: rest => do _ <- add self x; add_each self rest
  end.

(** [for item in other: self.add(item)] over a [FuzzySet]. The class has no
    [__iter__], so the loop asks [other[0]], [other[1]], ... and ends at the
    first [IndexError]: the list of [other] is read again at every step. *)
Fixpoint add_from (fuel : nat) (self other : t) (i : nat) : M unit :=
  match fuel with
  | O => λ h, (h, OutOfFuel)
  | S fuel' =>
      λ h, match __getitem__ other i h with
           | (h', Ok x) => (do _ <- add self x;
                            add_from fuel' self other (S i)) h'
           | (h', Raise IndexError) => (h', Ok tt)
           | (h', Raise e) => (h', Raise e)
           | (h', OutOfFuel) => (h', OutOfFuel)
           end
  end.

Definition for_each_add (fuel : nat) (self : t) (other : iterable) : M unit :=
  match other with
  | PyList l => add_each self l
  | PySet o => add_from fuel self o 0
  end.

(** Truth value of the [iterable] argument of [__init__]: [None] and empty
    containers are falsy (a [FuzzySet] through [__len__]). *)
Definition iterable_truthy (it : option iterable) : M bool :=
  match it with
  | None => ret false
  | Some (PyList l) => ret (negb (length l =? 0)%nat)
  | Some (PySet o) => do n <- __len__ o; ret (negb (n =? 0)%nat)
  end.

(**
<<
    def __init__(self, iterable=None, rtol=1.e-3, atol=1.e-5):
        self.data = []
        self.rtol = rtol
        self.atol = atol
        if iterable:
            for item in iterable:
                self.add(item)
>> *)
Definition __init__ (fuel : nat) (it : option iterable) (rtol atol : float)
    : M t :=
  λ h,
    let r := fresh (dom h) in
    let self := {| data := r; rtol := rtol; atol := atol |} in
    (do b <- iterable_truthy it;
     do _ <- match it with
             | Some i => if b then for_each_add fuel self i else ret tt
             | None => ret tt
             end;
     ret self) (<[r := []]> h).

(**
<<
    def __iadd__(self, other):
        for item in other:
            self.add(item)
        return self
>> *)
Definition __iadd__ (fuel : nat) (self : t) (other : iterable) : M t :=
  do _ <- for_each_add fuel self other;
  ret self.

(** [copy.copy(self)]: a new object with the same attribute values, so the
    copy's [data] is the same list object. *)
Definition copy (self : t) : M t :=
  ret {| data := data self; rtol := rtol self; atol := atol self |}.

(** The right operand of [+]: a [FuzzySet] or anything else. *)
Inductive operand :=
  | IsFuzzySet (s : t)
  | NotFuzzySet.

(**
<<
    def __add__(self, other):
        if isinstance(other, FuzzySet):
            ret = copy.copy(self)
            ret += other
            return ret
        else:
            return copy.copy(self)
>> *)
Definition __add__ (fuel : nat) (self : t) (other : operand) : M t :=
  match other with
  | IsFuzzySet o =>
      do ret_ <- copy self;
      do ret_ <- __iadd__ fuel ret_ (PySet o);
      ret ret_
  | NotFuzzySet => copy self
  end.

Definition __radd__ (fuel : nat) (self : t) (other : operand) : M t :=
  __add__ fuel self other.

(** *** Vocabulary of the properties *)

(** The shapes of [u] and [v] broadcast. *)
Definition broadcasts (u v : item) : Prop := is_Some (broadcast u v).

(** [P] holds element-wise of [u] and [v] (of the two numbers when both are
    scalars). *)
Definition elementwise (P : float → float → Prop) (u v : item) : Prop :=
  ∃ ps, broadcast u v = Some ps ∧ Forall (λ p, P p.1 p.2) ps.

(** The number [a] is within tolerance of the number [b]: for finite
    numbers [|a - b| <= atol + rtol * |b|], evaluated in binary64
    arithmetic as written; a number that is not finite is within tolerance
    only of itself. *)
Definition close (rtol atol a b : float) : Prop :=
  if PrimFloat.is_finite a && PrimFloat.is_finite b
  then (PrimFloat.abs (a - b) <=? atol + rtol * PrimFloat.abs b)%float = true
  else (a =? b)%float = true.

(** [u] is within tolerance of [v], element-wise. *)
Definition within (rtol atol : float) (u v : item) : Prop :=
  elementwise (close rtol atol) u v.

(** A tolerance that is a finite number and not negative. *)
Definition nonneg_finite (r : float) : Prop :=
  PrimFloat.is_finite r = true ∧ (0 <=? r)%float = true.

(** No component of the item is a NaN. *)
Definition nan_free (u : item) : Prop :=
  match u with
  | Scalar x => PrimFloat.is_nan x = false
  | Vector xs => Forall (λ x, PrimFloat.is_nan x = false) xs
  end.

(** Every stored item failed the tolerance test against each item stored
    before it. *)
Definition far_from_earlier (rtol atol : float) (l : list item) : Prop :=
  ∀ i j u v, (i < j)%nat → l !! i = Some u → l !! j = Some v →
    allclose rtol atol v u = Ok false.

(** Objects that share a list are the same object up to identity: they have
    the same tolerances. *)
Definition coherent (O : list t) : Prop :=
  ∀ s1 s2, s1 ∈ O → s2 ∈ O → data s1 = data s2 → s1 = s2.

(** The list of every object exists and is [far_from_earlier]. *)
Definition good (O : list t) (h : store) : Prop :=
  ∀ s, s ∈ O →
    data s ∈ dom h ∧ far_from_earlier (rtol s) (atol s) (list_of h (data s)).

(** A computation keeps [good] stores good and allocates nothing. *)
Definition preserves {A} (O : list t) (m : M A) : Prop :=
  ∀ h, good O h → good O (m h).1 ∧ dom (m h).1 = dom h.

(** A computation only appends: every list keeps its items as a prefix. *)
Definition grows {A} (m : M A) : Prop :=
  ∀ h r, list_of h r `prefix_of` list_of (m h).1 r.

(** *** Programs that use the class *)

(** The store and the [FuzzySet] objects a program holds. *)
Record world := { heap : store; objs : list t }.

(** One use of the public interface. *)
Inductive call :=
  | Construct (it : option iterable) (rtol atol : float)
  | Add (s : t) (x : item)
  | IAdd (s : t) (other : iterable)
  | Plus (s : t) (other : operand).

Definition iterable_known (w : world) (it : iterable) : Prop :=
  match it with
  | PyList _ => True
  | PySet o => o ∈ objs w
  end.

Definition operand_known (w : world) (o : operand) : Prop :=
  match o with
  | IsFuzzySet s => s ∈ objs w
  | NotFuzzySet => True
  end.

(** The objects a call mentions are objects of the program. *)
Definition call_known (w : world) (c : call) : Prop :=
  match c with
  | Construct None _ _ => True
  | Construct (Some it) _ _ => iterable_known w it
  | Add s _ => s ∈ objs w
  | IAdd s other => s ∈ objs w ∧ iterable_known w other
  | Plus s other => s ∈ objs w ∧ operand_known w other
  end.

Definition run_method (fuel : nat) (c : call) : M t :=
  match c with
  | Construct it rtol atol => __init__ fuel it rtol atol
  | Add s x => do _ <- add s x; ret s
  | IAdd s other => __iadd__ fuel s other
  | Plus s other => __add__ fuel s other
  end.

(** The world after a call: the store as the call left it (also when it
    raised), and the returned object, if any, among the objects. *)
Definition run_call (fuel : nat) (c : call) (w : world) : world :=
  match run_method fuel c (heap w) with
  | (h', Ok s) => {| heap := h'; objs := s :: objs w |}
  | (h', _) => {| heap := h'; objs := objs w |}
  end.

Inductive reachable : world → Prop :=
  | reachable_start : reachable {| heap := ∅; objs := [] |}
  | reachable_call fuel c w :
      reachable w → call_known w c → reachable (run_call fuel c w).

(** *** Sample data *)

(** A set with the default tolerances whose list is at reference 1. *)
Definition sample_set : t :=
  {| data := 1%positive; rtol := default_rtol; atol := default_atol |}.

(** The world after [s = FuzzySet(); s.add(1000.0); s.add(1001.0005)]. *)
Definition sample_world : world :=
  run_call 0 (Add sample_set (Scalar 1001.0005))
    (run_call 0 (Add sample_set (Scalar 1000))
       (run_call 0 (Construct None default_rtol default_atol)
          {| heap := ∅; objs := [] |})).

(** Two sets with separate lists: [a] holds one unit vector, [b] both. *)
Definition sample_a : t :=
  {| data := 1%positive; rtol := default_rtol; atol := default_atol |}.
Definition sample_b : t :=
  {| data := 2%positive; rtol := default_rtol; atol := default_atol |}.
Definition sample_pair_store : store :=
  {[ 1%positive := [Vector [1; 0]%float];
     2%positive := [Vector [1; 0]%float; Vector [0; 1]%float] ]}.

(** Two unit vectors in a store, for [sample_set]. *)
Definition sample_store : store :=
  {[ 1%positive := [Vector [1; 0]%float; Vector [0; 1]%float] ]}.

End FuzzySet.

(* ===================================================================== *)
(** ** [results.py]: [SpatialMap] and [StructureMap] *)
(* ===================================================================== *)

Module Results.

Inductive exn := ValueError | IndexError | TypeError.

Inductive result (A : Type) :=
  | Ok (a : A)
  | Raise (e : exn).
Arguments Ok {A} a.
Arguments Raise {A} e.

Definition bind {A B} (m : result A) (k : A → result B) : result B :=
  match m with
  | Ok a => k a
  | Raise e => Raise e
  end.

Notation "'do' x <- m ; k" := (bind m (λ x, k))
  (at level 10, x name, m at level 100, k at level 200).

(** *** NumPy indexing of one-dimensional arrays *)

(** An index is a boolean mask or an array of non-negative integers. *)
Inductive index :=
  | Mask (m : list bool)
  | Indices (l : list nat).

(** Positions of the [True] entries of a mask, counted from [i]. *)
Fixpoint mask_positions (i : nat) (m : list bool) : list nat :=
  match m with
  | [] => []
  | b :: rest =>
      if b then i :: mask_positions (S i) rest
      else mask_positions (S i) rest
  end.

(** The positions an index selects along an axis of length [n]; a mask of
    another length and an integer out of range raise [IndexError]. *)
Definition resolve (n : nat) (idx : index) : result (list nat) :=
  match idx with
  | Mask m =>
      if (length m =? n)%nat then Ok (mask_positions 0 m)
      else Raise IndexError
  | Indices l =>
      if forallb (λ i, i <? n)%nat l then Ok l else Raise IndexError
  end.

(** [v[idx]] *)
Definition getitem_array {A} (v : list A) (idx : index) : result (list A) :=
  do ps <- resolve (length v) idx;
  Ok (omap (λ i, v !! i) ps).

(** *** [SpatialMap] *)

Record Positions := { x : list Q; y : list Q; z : list Q }.

Record SpatialMap := {
  data : list Q;
  positions : Positions;
  sublattices : list Z
}.

(**
<<
    def __init__(self, data, positions, sublattices=None):
        self.data = np.atleast_1d(data)
        self.positions = Positions( *positions)
        if sublattices is not None:
            self.sublattices = np.atleast_1d(sublattices)
        else:
            self.sublattices = np.zeros_like(self.data)
>> *)
Definition SpatialMap_init (data : list Q) (positions : Positions)
    (sublattices : option (list Z)) : SpatialMap :=
  {| data := data;
     positions := positions;
     sublattices :=
       match sublattices with
       | Some s => s
       | None => replicate (length data) 0%Z
       end |}.

Definition num_sites (self : SpatialMap) : nat := length (data self).

(** [(v[idx] for v in self.positions)] *)
Definition getitem_positions (p : Positions) (idx : index) : result Positions :=
  do px <- getitem_array (x p) idx;
  do py <- getitem_array (y p) idx;
  do pz <- getitem_array (z p) idx;
  Ok {| x := px; y := py; z := pz |}.

(** [SpatialMap.__getitem__]; the arguments of the constructor call are
    evaluated left to right, the generator inside the constructor. *)
Definition SpatialMap_getitem (self : SpatialMap) (idx : index)
    : result SpatialMap :=
  do d <- getitem_array (data self) idx;
  do s <- getitem_array (sublattices self) idx;
  do p <- getitem_positions (positions self) idx;
  Ok (SpatialMap_init d p (Some s)).

(** The attributes [cropped] can be asked to limit. *)
Inductive attr := AttrX | AttrY | AttrZ | AttrData.

(** [getattr(self, name)] *)
Definition getattr (self : SpatialMap) (name : attr) : list Q :=
  match name with
  | AttrX => x (positions self)
  | AttrY => y (positions self)
  | AttrZ => z (positions self)
  | AttrData => data self
  end.

(** [np.logical_and(a, b)]: element-wise on arrays of equal length, an
    array of length one is stretched, other lengths do not broadcast. *)
Definition logical_and (a b : list bool) : result (list bool) :=
  if (length a =? length b)%nat then Ok (zip_with andb a b)
  else match a, b with
       | [a0], _ => Ok (map (andb a0) b)
       | _, [b0] => Ok (map (λ a', andb a' b0) a)
       | _, _ => Raise ValueError
       end.

(** One round of the loop in [cropped]. *)
Definition crop_step (self : SpatialMap) (idx : list bool)
    (limit : attr * (Q * Q)) : result (list bool) :=
  let v := getattr self limit.1 in
  do idx <- logical_and idx (map (λ q, Qle_bool limit.2.1 q) v);
  logical_and idx (map (λ q, negb (Qle_bool limit.2.2 q)) v).

Fixpoint crop_mask (self : SpatialMap) (idx : list bool)
    (limits : list (attr * (Q * Q))) : result (list bool) :=
  match limits with
  | [] => Ok idx
  | limit :: rest =>
      do idx <- crop_step self idx limit;
      crop_mask self idx rest
  end.

(**
<<
    idx = np.ones(self.num_sites, dtype=np.bool)
    for name, limit in limits.items():
        v = getattr(self, name)
        idx = np.logical_and(idx, v >= limit[0])
        idx = np.logical_and(idx, v < limit[1])
    return self[idx]
>> *)
Definition SpatialMap_cropped (self : SpatialMap)
    (limits : list (attr * (Q * Q))) : result SpatialMap :=
  do idx <- crop_mask self (replicate (num_sites self) true) limits;
  SpatialMap_getitem self (Mask idx).



(** All arrays of a [SpatialMap] have one entry per site. *)
Definition spatial_well_formed (self : SpatialMap) : Prop :=
  length (sublattices self) = num_sites self
  ∧ length (x (positions self)) = num_sites self
  ∧ length (y (positions self)) = num_sites self
  ∧ length (z (positions self)) = num_sites self.

(** Site [i] passes a limit [(name, (lo, hi))] when [lo <= v[i] < hi] for
    the attribute [v] of that name. *)
Definition within_limit (self : SpatialMap) (i : nat)
    (limit : attr * (Q * Q)) : bool :=
  match getattr self limit.1 !! i with
  | Some v => Qle_bool limit.2.1 v && negb (Qle_bool limit.2.2 v)
  | None => false
  end.

(** The sites that pass every limit, in increasing order. *)
Definition kept_sites (self : SpatialMap) (limits : list (attr * (Q * Q)))
    : list nat :=
  filter (λ i, forallb (within_limit self i) limits = true)
         (seq 0 (num_sites self)).

(** Four sites on a line, with data [10, 20, 30, 40]. *)
Definition line : SpatialMap :=
  SpatialMap_init [10; 20; 30; 40]%Q
    {| x := [0; 1; 2; 3]%Q; y := [0; 0; 0; 0]%Q; z := [0; 0; 0; 0]%Q |}
    None.

(** *** Sparse matrices *)

(** A sparse matrix: its shape and its explicitly stored entries. A stored
    entry may hold the value zero. *)
Record csr := {
  nrows : nat;
  ncols : nat;
  stored : gmap (nat * nat) Z
}.

(** The map that holds [f k] at the keys [k] of [keys] where [f] is
    defined. *)
Definition tabulate {V} (keys : list (nat * nat)) (f : nat * nat → option V)
    : gmap (nat * nat) V :=
  foldr (λ k acc, match f k with
                  | Some v => <[k := v]> acc
                  | None => acc
                  end) ∅ keys.

(** All positions of an [n] by [m] matrix. *)
Definition all_positions (n m : nat) : list (nat * nat) :=
  list_prod (seq 0 n) (seq 0 m).

Section Slicing.
(** Whether slicing drops stored entries whose value is zero, as sparse
    matrix products do; the sparse-matrix library decides. *)
Variable elide : bool.

Definition keep (v : Z) : option Z :=
  if elide && (v =? 0)%Z then None else Some v.

(** [m[idx]]: the rows selected by [idx], in that order. *)
Definition getitem_rows (m : csr) (idx : index) : result csr :=
  do ps <- resolve (nrows m) idx;
  Ok {| nrows := length ps;
        ncols := ncols m;
        stored := tabulate (all_positions (length ps) (ncols m))
                    (λ k, match ps !! k.1 with
                          | Some i => stored m !! (i, k.2) ≫= keep
                          | None => None
                          end) |}.

(** [m[:, idx]]: the columns selected by [idx], in that order. *)
Definition getitem_cols (m : csr) (idx : index) : result csr :=
  do ps <- resolve (ncols m) idx;
  Ok {| nrows := nrows m;
        ncols := length ps;
        stored := tabulate (all_positions (nrows m) (length ps))
                    (λ k, match ps !! k.2 with
                          | Some j => stored m !! (k.1, j) ≫= keep
                          | None => None
                          end) |}.

(** [m.data += c] on a matrix whose [data] array is its own. *)
Definition data_add (c : Z) (m : csr) : csr :=
  {| nrows := nrows m; ncols := ncols m;
     stored := (λ v, v + c)%Z <$> stored m |}.

(**
<<
  m = copy(csr)  # shallow copy
  m.data = m.data.copy()
  m.data += 1  # increment by 1 to preserve zeroes when slicing
  m = m[idx][:, idx]
  m.data -= 1
  return m
>> *)
Definition _filter_csr_matrix (csr_ : csr) (idx : index) : result csr :=
  let m := data_add 1 csr_ in
  do m <- getitem_rows m idx;
  do m <- getitem_cols m idx;
  Ok (data_add (-1) m).

(** Slicing without the increment, for comparison. *)
Definition plain_slice (csr_ : csr) (idx : index) : result csr :=
  do m <- getitem_rows csr_ idx;
  getitem_cols m idx.

(** *** [StructureMap] *)

Record Boundary := { shift : list Q; boundary_hoppings : csr }.

(** A [StructureMap] is a [SpatialMap] with hoppings and boundaries. *)
Record StructureMap := {
  base : SpatialMap;
  hoppings : csr;
  boundaries : list Boundary
}.

Definition spatial_map (self : StructureMap) : SpatialMap :=
  SpatialMap_init (data (base self)) (positions (base self))
    (Some (sublattices (base self))).

Definition _filter_boundary (b : Boundary) (idx : index) : result Boundary :=
  do hop <- _filter_csr_matrix (boundary_hoppings b) idx;
  Ok {| shift := shift b; boundary_hoppings := hop |}.

(** [[self._filter_boundary(b, idx) for b in self.boundaries]] *)
Fixpoint filter_boundaries (bs : list Boundary) (idx : index)
    : result (list Boundary) :=
  match bs with
  | [] => Ok []
  | b :: rest =>
      do b' <- _filter_boundary b idx;
      do rest' <- filter_boundaries rest idx;
      Ok (b' :: rest')
  end.

(** [StructureMap.__getitem__] *)
Definition StructureMap_getitem (self : StructureMap) (idx : index)
    : result StructureMap :=
  do d <- getitem_array (data (base self)) idx;
  do s <- getitem_array (sublattices (base self)) idx;
  do hop <- _filter_csr_matrix (hoppings self) idx;
  do bs <- filter_boundaries (boundaries self) idx;
  do p <- getitem_positions (positions (base self)) idx;
  Ok {| base := SpatialMap_init d p (Some s);
        hoppings := hop;
        boundaries := bs |}.

(** [cropped], inherited: the mask is built from the attributes of the
    map and [self[idx]] is the [StructureMap] indexing. *)
Definition StructureMap_cropped (self : StructureMap)
    (limits : list (attr * (Q * Q))) : result StructureMap :=
  do idx <- crop_mask (base self)
              (replicate (num_sites (base self)) true) limits;
  StructureMap_getitem self (Mask idx).
End Slicing.

(** No stored entry holds [-1], the one value the increment turns into
    zero. *)
Definition no_minus_one (m : csr) : Prop :=
  ∀ k v, stored m !! k = Some v → v ≠ (-1)%Z.

(** All arrays of a map have one entry per site and the matrices one row
    and one column per site. *)
Definition well_formed (self : StructureMap) : Prop :=
  let n := num_sites (base self) in
  length (sublattices (base self)) = n
  ∧ length (x (positions (base self))) = n
  ∧ length (y (positions (base self))) = n
  ∧ length (z (positions (base self))) = n
  ∧ nrows (hoppings self) = n ∧ ncols (hoppings self) = n
  ∧ Forall (λ b, nrows (boundary_hoppings b) = n
                 ∧ ncols (boundary_hoppings b) = n) (boundaries self).

(** A chain of three sites: 0 -- 1 with hopping ID 0 and 1 -- 2 with
    hopping ID 1. *)
Definition chain_hoppings : csr :=
  {| nrows := 3; ncols := 3;
     stored := {[ (0%nat, 1%nat) := 0%Z; (1%nat, 2%nat) := 1%Z ]} |}.

(** Two sites joined by an entry that holds [-1]. *)
Definition minus_one_hoppings : csr :=
  {| nrows := 2; ncols := 2;
     stored := {[ (0%nat, 1%nat) := (-1)%Z ]} |}.

Definition chain : StructureMap :=
  {| base := SpatialMap_init [1; 2; 3]%Q
               {| x := [0; 1; 2]%Q; y := [0; 0; 0]%Q; z := [0; 0; 0]%Q |}
               None;
     hoppings := chain_hoppings;
     boundaries := [] |}.

(** *** Site radii *)

(** The [site_radius] argument of [plot]: one number, or a tuple or list
    of two. *)
Inductive site_radius :=
  | Fixed (r : float)
  | MinMax (r_min r_max : float).

(** What [to_radii] returns: one radius for all sites, or one per site. *)
Inductive radii :=
  | Uniform (r : float)
  | PerSite (rs : list float).

(** One step of NumPy's reductions [minimum.reduce] and [maximum.reduce]:
<<
    io1 = (io1 <= in2 || npy_isnan(io1)) ? io1 : in2;    /* minimum */
    io1 = (io1 >= in2 || npy_isnan(io1)) ? io1 : in2;    /* maximum */
>>
    so a NaN, once met, stays. *)
Definition np_minimum (io1 in2 : float) : float :=
  if (io1 <=? in2)%float || PrimFloat.is_nan io1 then io1 else in2.

Definition np_maximum (io1 in2 : float) : float :=
  if (in2 <=? io1)%float || PrimFloat.is_nan io1 then io1 else in2.

(** [a.min()] and [a.max()]: an empty array raises [ValueError]. *)
Definition array_min (a : list float) : result float :=
  match a with
  | [] => Raise ValueError
  | v :: rest => Ok (foldl np_minimum v rest)
  end.

Definition array_max (a : list float) : result float :=
  match a with
  | [] => Raise ValueError
  | v :: rest => Ok (foldl np_maximum v rest)
  end.

(** [np.allclose(v, 0)] with the default tolerances [rtol=1e-05],
    [atol=1e-08]. *)
Definition allclose_zero (v : float) : bool :=
  FuzzySet.isclose 1e-5 1e-8 v 0.

(**
<<
    def to_radii(data):
        if not isinstance(site_radius, (tuple, list)):
            return site_radius
        positive_data = data - data.min()
        maximum = positive_data.max()
        if not np.allclose(maximum, 0):
            delta = site_radius[1] - site_radius[0]
            return site_radius[0] + delta * positive_data / maximum
        else:
            return site_radius[1]
>> *)
Definition to_radii (site_radius_ : site_radius) (data : list float)
    : result radii :=
  match site_radius_ with
  | Fixed r => Ok (Uniform r)
  | MinMax r0 r1 =>
      do m <- array_min data;
      let positive_data := map (λ v, v - m)%float data in
      do maximum <- array_max positive_data;
      if negb (allclose_zero maximum) then
        let delta := (r1 - r0)%float in
        Ok (PerSite
              (map (λ p, r0 + delta * p / maximum)%float positive_data))
      else
        Ok (Uniform r1)
  end.

(** The radius of site [i]. *)
Definition radius_at (r : radii) (i : nat) : option float :=
  match r with
  | Uniform r0 => Some r0
  | PerSite rs => rs !! i
  end.

End Results.

(* ===================================================================== *)
(** ** [tests/utils/compare_figures.py]: [AssertFigure] *)
(* ===================================================================== *)

Module CompareFigures.

(** The content of an image file. *)
Abbreviation image := nat.

(** The state the harness works on: the two global style tables of the
    plotting library, the number of open figures, what the current figure
    shows, and the files on disk. *)
Record globals := {
  rcParams : gmap string string;
  registry : gmap string string;
  open_figures : nat;
  figure : image;
  files : gmap string image
}.

Inductive exn :=
  | AssertionError (msg : string)
  | ValueError (msg : string)
  | FileNotFoundError
  | BodyError.

(** How a block ends: normally, or with an exception. *)
Inductive outcome :=
  | Returned
  | Raised (e : exn).

(** What [compare_images(expected, actual, tol, in_decorator=True)] does:
    it returns [None], returns a failure record after writing a difference
    image next to the actual one, or raises [ValueError]. *)
Inductive comparison :=
  | Match
  | Mismatch (diff : image)
  | CompareValueError (msg : string).

(** The failure record: paths of the images, [diff] only when there is
    one. *)
Record failure := {
  actual : string;
  expected : string;
  diff : option string
}.

(** The attributes of an [AssertFigure]. *)
Record AssertFigure {request : Type} := {
  request_ : request;
  passed : bool;
  _original_rc : gmap string string;
  _original_units_registry : gmap string string;
  ext : string;
  tol : nat;
  remove_text : bool
}.
Arguments AssertFigure request : clear implicits.

Section Harness.
Context {request : Type}.

(** [path_from_fixture(request, prefix, variant, ext)], from
    [tests/utils/path.py], which is not part of the sources at hand. *)
Variable path_from_fixture : request → string → string → string → string.
(** The directory [tempfile.TemporaryDirectory()] creates, and which
    paths lie inside it. *)
Variable tmpdir : string.
Variable in_tmpdir : string → bool.
(** Where [compare_images] writes the difference image for an actual
    image. *)
Variable diff_filename : string → string.
Variable compare_images : image → image → nat → comparison.
(** What [_remove_text] does to the picture. *)
Variable strip_text : image → image.
(** The style applied on entry, [tbplot_style]. *)
Variable style : gmap string string.

Abbreviation AF := (AssertFigure request).

Definition set_passed (self : AF) (b : bool) : AF :=
  {| request_ := request_ self; passed := b;
     _original_rc := _original_rc self;
     _original_units_registry := _original_units_registry self;
     ext := ext self; tol := tol self; remove_text := remove_text self |}.

Definition set_rcParams (g : globals) (rc : gmap string string) : globals :=
  {| rcParams := rc; registry := registry g;
     open_figures := open_figures g; figure := figure g;
     files := files g |}.

Definition set_registry (g : globals) (r : gmap string string) : globals :=
  {| rcParams := rcParams g; registry := r;
     open_figures := open_figures g; figure := figure g;
     files := files g |}.

Definition set_open_figures (g : globals) (n : nat) : globals :=
  {| rcParams := rcParams g; registry := registry g;
     open_figures := n; figure := figure g; files := files g |}.

Definition set_figure (g : globals) (i : image) : globals :=
  {| rcParams := rcParams g; registry := registry g;
     open_figures := open_figures g; figure := i; files := files g |}.

Definition set_files (g : globals) (f : gmap string image) : globals :=
  {| rcParams := rcParams g; registry := registry g;
     open_figures := open_figures g; figure := figure g; files := f |}.

(**
<<
  def __init__(self, request):
      self.request = request
      self.passed = False
      self._original_rc = {}
      self._original_units_registry = {}
  def __call__(self, ext=".png", tol=10, remove_text=True, ...):
>> *)
Definition __init__ (req : request) : AF :=
  {| request_ := req; passed := false;
     _original_rc := ∅; _original_units_registry := ∅;
     ext := ""; tol := 0; remove_text := false |}.

Definition __call__ (self : AF) (ext_ : string) (tol_ : nat)
    (remove_text_ : bool) : AF :=
  {| request_ := request_ self; passed := passed self;
     _original_rc := _original_rc self;
     _original_units_registry := _original_units_registry self;
     ext := ext_; tol := tol_; remove_text := remove_text_ |}.

(**
<<
  def _enter_style(self, style=tbplot_style):
      self._original_rc = mpl.rcParams.copy()
      self._original_units_registry = matplotlib.units.registry.copy()
      matplotlib.style.use(style)
      mpl.use("Agg", warn=False)
>> *)
Definition _enter_style (self : AF) (g : globals) : AF * globals :=
  let self' :=
    {| request_ := request_ self; passed := passed self;
       _original_rc := rcParams g;
       _original_units_registry := registry g;
       ext := ext self; tol := tol self; remove_text := remove_text self |} in
  (self', set_rcParams g (<["backend" := "Agg"]> (style ∪ rcParams g))).

(**
<<
  def _exit_style(self):
      mpl.rcParams.clear()
      mpl.rcParams.update(self._original_rc)
      matplotlib.units.registry.clear()
      matplotlib.units.registry.update(self._original_units_registry)
>> *)
Definition _exit_style (self : AF) (g : globals) : globals :=
  let g := set_rcParams g (_original_rc self ∪ ∅) in
  set_registry g (_original_units_registry self ∪ ∅).

(** [__enter__]: the style, then [plt.figure()]. *)
Definition __enter__ (self : AF) (g : globals) : AF * globals :=
  let '(self, g) := _enter_style self g in
  (self, set_figure (set_open_figures g (S (open_figures g))) 0).

(** [shutil.copyfile(src, dst)] *)
Definition copyfile (src dst : string) (f : gmap string image)
    : gmap string image * outcome :=
  match f !! src with
  | Some i => (<[dst := i]> f, Returned)
  | None => (f, Raised FileNotFoundError)
  end.

Definition reportfile (self : AF) (variant : string) : string :=
  path_from_fixture (request_ self) "failed" variant (ext self).

(**
<<
  def report(self, failure_data):
      if failure_data:
          shutil.copyfile(failure_data["actual"], reportfile("_actual"))
          shutil.copyfile(failure_data["expected"], reportfile("_baseline"))
          if "diff" in failure_data:
              shutil.copyfile(failure_data["diff"], reportfile("_diff"))
      else:
          delete("_actual"); delete("_baseline"); delete("_diff")
>> *)
Definition report (self : AF) (failure_data : option failure)
    (f : gmap string image) : gmap string image * outcome :=
  match failure_data with
  | Some fd =>
      match copyfile (actual fd) (reportfile self "_actual") f with
      | (f, Raised e) => (f, Raised e)
      | (f, Returned) =>
          match copyfile (expected fd) (reportfile self "_baseline") f with
          | (f, Raised e) => (f, Raised e)
          | (f, Returned) =>
              match diff fd with
              | Some d => copyfile d (reportfile self "_diff") f
              | None => (f, Returned)
              end
          end
      end
  | None =>
      (delete (reportfile self "_diff")
         (delete (reportfile self "_baseline")
            (delete (reportfile self "_actual") f)), Returned)
  end.

(** ["could not be broadcast" in str(exc)] *)
Definition mentions_broadcast (msg : string) : bool :=
  match Stdlib.Strings.String.index 0 "could not be broadcast" msg with
  | Some _ => true
  | None => false
  end.

(** Leaving the [TemporaryDirectory] block removes what is inside the
    directory. *)
Definition cleanup (f : gmap string image) : gmap string image :=
  filter (λ kv, in_tmpdir kv.1 = false) f.

(** The two paths [__exit__] derives from the test's identity. *)
Definition actual_path (self : AF) : string :=
  path_from_fixture (request_ self) tmpdir "" (ext self).
Definition baseline_path (self : AF) : string :=
  path_from_fixture (request_ self) "baseline_plots" "" (ext self).

(** The body of the [with tempfile.TemporaryDirectory()] block of
    [__exit__], up to its end or to the exception that leaves it. *)
Definition compare_block (self : AF) (g : globals)
    : AF * gmap string image * outcome :=
  let actual_filename := actual_path self in
  let f := <[actual_filename := figure g]> (files g) in
  let baseline_filename := baseline_path self in
  match f !! baseline_filename with
  | Some baseline =>
      let compared :=
        match compare_images baseline (figure g) (tol self) with
        | Match => (f, inl None)
        | Mismatch d =>
            (<[diff_filename actual_filename := d]> f,
             inl (Some {| actual := actual_filename;
                          expected := baseline_filename;
                          diff := Some (diff_filename actual_filename) |}))
        | CompareValueError msg =>
            if negb (mentions_broadcast msg) then (f, inr (ValueError msg))
            else (f, inl (Some {| actual := actual_filename;
                                  expected := baseline_filename;
                                  diff := None |}))
        end in
      match compared with
      | (f, inr e) => (self, f, Raised e)
      | (f, inl None) => (self, f, Returned)
      | (f, inl (Some fd)) =>
          match report self (Some fd) f with
          | (f, Raised e) => (self, f, Raised e)
          | (f, Returned) =>
              (self, f,
               Raised (AssertionError
                         "Mismatch between actual figure and baseline image"))
          end
      end
  | None =>
      match copyfile actual_filename baseline_filename f with
      | (f, Raised e) => (self, f, Raised e)
      | (f, Returned) =>
          let self := set_passed self true in
          let '(f, r) := report self None f in
          (self, f, r)
      end
  end.

(** [if self.remove_text: _remove_text(self.fig)] *)
Definition stripped (self : AF) (g : globals) : globals :=
  if remove_text self then set_figure g (strip_text (figure g)) else g.

(**
<<
  def __exit__(self, exception, *_):
      if exception:
          return
      if self.remove_text:
          _remove_text(self.fig)
      with tempfile.TemporaryDirectory() as tmpdir:
          ...
      plt.close()
      self._exit_style()
>>
    The result tells whether [__exit__] returned (always [None]) or
    raised. *)
Definition __exit__ (self : AF) (exception : bool) (g : globals)
    : AF * globals * outcome :=
  if exception then (self, g, Returned)
  else
    let g := stripped self g in
    let '(self, f, r) := compare_block self g in
    let g := set_files g (cleanup f) in
    match r with
    | Raised e => (self, g, Raised e)
    | Returned =>
        let g := set_open_figures g (pred (open_figures g)) in
        (self, _exit_style self g, Returned)
    end.

(** [with assert_figure: body]. The body changes the globals and says
    whether it raised; an exception of the body reaches [__exit__], and
    propagates because [__exit__] returns [None]. *)
Definition with_statement (self : AF) (body : globals → globals * bool)
    (g : globals) : AF * globals * outcome :=
  let '(self, g) := __enter__ self g in
  let '(g, raised) := body g in
  if raised then
    match __exit__ self true g with
    | (self, g, Returned) => (self, g, Raised BodyError)
    | (self, g, Raised e) => (self, g, Raised e)
    end
  else __exit__ self false g.
(** The picture [plt.savefig] writes. *)
Definition rendered (self : AF) (g : globals) : image :=
  if remove_text self then strip_text (figure g) else figure g.

(** The six paths a comparison touches are different files, and only the
    rendered image and the difference image lie in the temporary
    directory. *)
Definition paths_separate (self : AF) : Prop :=
  NoDup [actual_path self; diff_filename (actual_path self);
         baseline_path self; reportfile self "_actual";
         reportfile self "_baseline"; reportfile self "_diff"]
  ∧ in_tmpdir (baseline_path self) = false
  ∧ in_tmpdir (reportfile self "_actual") = false
  ∧ in_tmpdir (reportfile self "_baseline") = false
  ∧ in_tmpdir (reportfile self "_diff") = false.

Definition mismatch_message : string :=
  "Mismatch between actual figure and baseline image".
End Harness.

(** *** A sample harness *)

(** Paths of the shape [prefix/test-name variant ext]. *)
Definition sample_path (req prefix variant ext_ : string) : string :=
  prefix +:+ "/" +:+ req +:+ variant +:+ ext_.

Definition sample_tmpdir : string := "tmp".

Definition sample_in_tmpdir (p : string) : bool :=
  Stdlib.Strings.String.prefix "tmp/" p.

Definition sample_diff_filename (p : string) : string := p +:+ "-failed-diff".

(** Images are equal or differ; the difference image is their sum. *)
Definition sample_compare (expected_ actual_ : image) (tol_ : nat) : comparison :=
  if (expected_ =? actual_)%nat then Match else Mismatch (expected_ + actual_).

Definition sample_strip (i : image) : image := i.

Definition sample_style : gmap string string := {[ "font.size" := "7.0" ]}.

(** A session with an interactive backend, no figure and no file. *)
Definition sample_globals : globals :=
  {| rcParams := {[ "backend" := "TkAgg"; "font.size" := "12.0" ]};
     registry := ∅;
     open_figures := 0;
     figure := 0;
     files := ∅ |}.

(** The same session with a baseline image [7] for the test [t]. *)
Definition sample_globals_with_baseline : globals :=
  {| rcParams := {[ "backend" := "TkAgg"; "font.size" := "12.0" ]};
     registry := ∅;
     open_figures := 0;
     figure := 0;
     files := {[ "baseline_plots/t.png" := 7%nat ]} |}.

Definition sample_figure : AssertFigure string :=
  __call__ (__init__ "t") ".png" 10 true.

(** The scope of the sample harness around a body. *)
Definition sample_scope (body : globals → globals * bool) (g : globals)
    : AssertFigure string * globals * outcome :=
  with_statement sample_path sample_tmpdir sample_in_tmpdir
    sample_diff_filename sample_compare sample_strip sample_style
    sample_figure body g.

(** A body that raises at once, and one that draws the picture [5]. *)
Definition raising_body (g : globals) : globals * bool := (g, true).
Definition drawing_body (g : globals) : globals * bool :=
  ({| rcParams := rcParams g; registry := registry g;
      open_figures := open_figures g; figure := 5; files := files g |},
   false).

(** The globals the drawing body leaves, entered from the session with a
    baseline. *)
Definition sample_after_body : globals :=
  (drawing_body
     (__enter__ sample_style sample_figure sample_globals_with_baseline).2).1.

(** The globals the drawing body leaves, entered from [g]. *)
Definition sample_after (g : globals) : globals :=
  (drawing_body (__enter__ sample_style sample_figure g).2).1.

(** A session whose baseline is the picture the body draws. *)
Definition sample_globals_matching : globals :=
  {| rcParams := {[ "backend" := "TkAgg"; "font.size" := "12.0" ]};
     registry := ∅;
     open_figures := 0;
     figure := 0;
     files := {[ "baseline_plots/t.png" := 5%nat ]} |}.

(** A comparison that fails to read its images. *)
Definition failing_compare (expected_ actual_ : image) (tol_ : nat)
    : comparison :=
  CompareValueError "cannot read image".

End CompareFigures.

(* ===================================================================== *)
(** * Properties *)
(* ===================================================================== *)

Module WithDefaultsFacts.
Import WithDefaults.

Section Dicts.
Context {V : Type}.
Implicit Types (d o base over : gmap string V) (h : gmap ref (gmap string V)).

Lemma dict_falsy_empty d : dict_truthy d = false → d = ∅.
Proof.
  unfold dict_truthy. intros Ht.
  apply negb_false_iff, bool_decide_eq_true in Ht.
  by apply dom_empty_iff_L.
Qed.

Lemma lookup_dict_new base over k :
  dict_new base over !! k =
    match over !! k with
    | Some v => Some v
    | None => base !! k
    end.
Proof. unfold dict_new. rewrite lookup_union. by destruct (over !! k), (base !! k). Qed.

Lemma dict_truthy_or_empty d : (if dict_truthy d then d else ∅) = d.
Proof.
  destruct (dict_truthy d) eqn:Hd; [done|].
  by apply dict_falsy_empty in Hd.
Qed.

Lemma dict_new_empty_base over : dict_new ∅ over = over.
Proof. unfold dict_new. apply (right_id_L ∅ (∪)). Qed.

(** [None] and [{}] both stand for "no key": the two truthiness tests only
    skip work. *)
Lemma with_defaults_unfold (options defaults_dict : option (gmap string V))
    (defaults_kwargs : gmap string V) :
  with_defaults options defaults_dict defaults_kwargs =
    dict_new defaults_kwargs
      (dict_new (default ∅ defaults_dict) (default ∅ options)).
Proof.
  unfold with_defaults. f_equal.
  assert (match options with
          | Some o => if dict_truthy o then o else ∅
          | None => ∅
          end = default ∅ options) as ->.
  { destruct options as [o|]; simpl; [apply dict_truthy_or_empty|done]. }
  destruct defaults_dict as [d|]; simpl.
  - destruct (dict_truthy d) eqn:Hd; [done|].
    apply dict_falsy_empty in Hd as ->. by rewrite dict_new_empty_base.
  - by rewrite dict_new_empty_base.
Qed.

Lemma with_defaults_lookup (options defaults_dict : option (gmap string V))
    (defaults_kwargs : gmap string V) (k : string) :
  with_defaults options defaults_dict defaults_kwargs !! k =
    match default ∅ options !! k with
    | Some v => Some v
    | None =>
        match default ∅ defaults_dict !! k with
        | Some v => Some v
        | None => defaults_kwargs !! k
        end
    end.
Proof.
  rewrite with_defaults_unfold, !lookup_dict_new.
  by destruct (default ∅ options !! k).
Qed.

End Dicts.

(** C4. [with_defaults] gives every key the value of the highest-priority
    mapping that defines it: the options mapping first, then the positional
    defaults mapping, then the keyword defaults; and the documented call
    [with_defaults({"hello": 0}, {"hello": 4, "world": 5}, world=7, yes=3)]
    equals [{"hello": 0, "world": 5, "yes": 3}]. *)
Theorem with_defaults_priority :
  (∀ (V : Type) (options defaults_dict : option (gmap string V))
     (defaults_kwargs : gmap string V) (k : string),
     with_defaults options defaults_dict defaults_kwargs !! k =
       match default ∅ options !! k with
       | Some v => Some v
       | None =>
           match default ∅ defaults_dict !! k with
           | Some v => Some v
           | None => defaults_kwargs !! k
           end
       end)
  ∧ with_defaults (Some {[ "hello" := 0%Z ]})
                  (Some {[ "hello" := 4%Z; "world" := 5%Z ]})
                  {[ "world" := 7%Z; "yes" := 3%Z ]}
    = ({[ "hello" := 0%Z; "world" := 5%Z; "yes" := 3%Z ]} : gmap string Z).
Proof.
  split.
  - intros. apply with_defaults_lookup.
  - apply map_eq. intros k. rewrite with_defaults_lookup. simpl.
    destruct (decide (k = "hello")) as [->|Hh]; [done|].
    destruct (decide (k = "world")) as [->|Hw]; [done|].
    destruct (decide (k = "yes")) as [->|Hy]; [done|].
    by simplify_map_eq.
Qed.

Section Store.
Context {V : Type}.
Implicit Types (d : gmap string V) (h : gmap ref (gmap string V)).

Lemma alloc_fresh d h :
  ∃ r, alloc d h = Some (r, <[r := d]> h) ∧ h !! r = None.
Proof.
  exists (fresh (dom h)). split; [done|].
  apply not_elem_of_dom, is_fresh.
Qed.

Lemma alloc_extends d h r h' :
  alloc d h = Some (r, h') → h ⊆ h' ∧ h !! r = None ∧ h' !! r = Some d.
Proof.
  destruct (alloc_fresh d h) as (r0 & -> & Hr). intros [= <- <-].
  split_and!; [by apply insert_subseteq|done|apply lookup_insert_eq].
Qed.

Lemma deref_some r d h : h !! r = Some d → deref r h = Some (d, h).
Proof. unfold deref. by intros ->. Qed.

Lemma dict_call_spec base over b o h :
  h !! base = Some b → h !! over = Some o →
  ∃ r, dict_call base over h = Some (r, <[r := dict_new b o]> h)
       ∧ h !! r = None.
Proof.
  intros Hb Ho. unfold dict_call, bind.
  rewrite (deref_some _ _ _ Hb), (deref_some _ _ _ Ho).
  apply alloc_fresh.
Qed.

(** First statement: [options] is rebound to the caller's own object when
    that is truthy, to a new [{}] otherwise. *)
Lemma first_statement (options : option ref) h :
  valid_arg h options →
  ∃ r h1,
    bind (truthy_ref options)
         (λ t, match options with
               | Some o => if t then ret o else alloc ∅
               | None => alloc ∅
               end) h = Some (r, h1)
    ∧ h ⊆ h1
    ∧ h1 !! r = Some (default ∅ (deref_opt h options)).
Proof.
  destruct options as [o|]; simpl.
  - intros [d Hd]. unfold bind, deref. rewrite Hd. simpl.
    destruct (dict_truthy d) eqn:Ht.
    + by exists o, h.
    + destruct (alloc_fresh (∅ : gmap string V) h) as (r & Hr & Hf).
      exists r, (<[r := ∅]> h). rewrite Hr.
      apply dict_falsy_empty in Ht as ->.
      split_and!; [done|by apply insert_subseteq|apply lookup_insert_eq].
  - intros _. unfold bind. simpl.
    destruct (alloc_fresh (∅ : gmap string V) h) as (r & Hr & Hf).
    exists r, (<[r := ∅]> h). rewrite Hr.
    split_and!; [done|by apply insert_subseteq|apply lookup_insert_eq].
Qed.

(** Second statement: with a truthy [defaults_dict], [options] is rebound
    to a new dict; neither operand is written. *)
Lemma second_statement (defaults_dict : option ref) (r1 : ref) o1 h h1 :
  valid_arg h defaults_dict → h ⊆ h1 → h1 !! r1 = Some o1 →
  ∃ r h2,
    bind (truthy_ref defaults_dict)
         (λ t, match defaults_dict with
               | Some d => if t then dict_call d r1 else ret r1
               | None => ret r1
               end) h1 = Some (r, h2)
    ∧ h1 ⊆ h2
    ∧ h2 !! r = Some (dict_new (default ∅ (deref_opt h defaults_dict)) o1).
Proof.
  intros Hv Hsub H1.
  destruct defaults_dict as [dd|]; simpl in *.
  - destruct Hv as [d Hd]. rewrite Hd. simpl.
    assert (h1 !! dd = Some d) as Hd1 by (by eapply lookup_weaken).
    unfold bind, deref. rewrite Hd1. simpl.
    destruct (dict_truthy d) eqn:Ht.
    + destruct (dict_call_spec dd r1 d o1 h1 Hd1 H1) as (r & Hr & Hf).
      exists r, (<[r := dict_new d o1]> h1). rewrite Hr.
      split_and!; [done|by apply insert_subseteq|apply lookup_insert_eq].
    + exists r1, h1. apply dict_falsy_empty in Ht as ->.
      by rewrite dict_new_empty_base.
  - exists r1, h1. by rewrite dict_new_empty_base.
Qed.

Lemma with_defaults_st_spec (options defaults_dict : option ref)
    (defaults_kwargs : ref) dkw h :
  valid_arg h options → valid_arg h defaults_dict →
  h !! defaults_kwargs = Some dkw →
  ∃ r h',
    with_defaults_st options defaults_dict defaults_kwargs h = Some (r, h')
    ∧ h ⊆ h'
    ∧ h !! r = None
    ∧ h' !! r = Some (with_defaults (deref_opt h options)
                        (deref_opt h defaults_dict) dkw).
Proof.
  intros Ho Hd Hk.
  destruct (first_statement options h Ho) as (r1 & h1 & E1 & S1 & L1).
  destruct (second_statement defaults_dict r1 _ h h1 Hd S1 L1)
    as (r2 & h2 & E2 & S2 & L2).
  assert (h2 !! defaults_kwargs = Some dkw) as Hk2.
  { eapply lookup_weaken; [|exact S2]. by eapply lookup_weaken. }
  destruct (dict_call_spec defaults_kwargs r2 _ _ h2 Hk2 L2) as (r & E3 & F3).
  exists r, (<[r := dict_new dkw
                      (dict_new (default ∅ (deref_opt h defaults_dict))
                                (default ∅ (deref_opt h options)))]> h2).
  split_and!.
  - unfold with_defaults_st.
    unfold bind at 1. unfold bind at 1 in E1.
    destruct (truthy_ref options h) as [[t h0]|]; [|done].
    unfold bind at 1. rewrite E1.
    unfold bind at 1. unfold bind at 1 in E2.
    destruct (truthy_ref defaults_dict h1) as [[t' h0']|]; [|done].
    unfold bind at 1. rewrite E2. exact E3.
  - etrans; [exact S1|]. etrans; [exact S2|]. by apply insert_subseteq.
  - destruct (h !! r) as [x|] eqn:Hx; [|done].
    assert (h2 !! r = Some x) as Hx2.
    { eapply lookup_weaken; [|exact S2]. by eapply lookup_weaken. }
    congruence.
  - rewrite lookup_insert_eq, with_defaults_unfold. done.
Qed.

End Store.

(** C9. A call of [with_defaults] writes to no object that existed before the
    call, so none of its three input mappings is mutated, and the mapping it
    returns is a new object, different from each input. *)
Theorem with_defaults_no_mutation (V : Type) (h : gmap ref (gmap string V))
    (options defaults_dict : option ref) (defaults_kwargs : ref)
    (dkw : gmap string V) :
  valid_arg h options → valid_arg h defaults_dict →
  h !! defaults_kwargs = Some dkw →
  ∃ r h',
    with_defaults_st options defaults_dict defaults_kwargs h = Some (r, h')
    ∧ (∀ l d, h !! l = Some d → h' !! l = Some d)
    ∧ h !! r = None
    ∧ options ≠ Some r ∧ defaults_dict ≠ Some r ∧ defaults_kwargs ≠ r
    ∧ h' !! r = Some (with_defaults (deref_opt h options)
                        (deref_opt h defaults_dict) dkw).
Proof.
  intros Ho Hd Hk.
  destruct (with_defaults_st_spec options defaults_dict defaults_kwargs
              dkw h Ho Hd Hk) as (r & h' & E & Hsub & Hfresh & Hres).
  exists r, h'. split_and!; try done.
  - intros l d Hl. by eapply lookup_weaken.
  - intros ->. simpl in Ho. rewrite Hfresh in Ho. by destruct Ho.
  - intros ->. simpl in Hd. rewrite Hfresh in Hd. by destruct Hd.
  - intros ->. congruence.
Qed.

Lemma with_defaults_no_mutation_witness :
  ∃ r h',
    with_defaults_st (Some 1%positive) (Some 2%positive) 3%positive doc_store
      = Some (r, h')
    ∧ (∀ l d, doc_store !! l = Some d → h' !! l = Some d)
    ∧ doc_store !! r = None
    ∧ Some 1%positive ≠ Some r ∧ Some 2%positive ≠ Some r ∧ 3%positive ≠ r
    ∧ h' !! r = Some (with_defaults (deref_opt doc_store (Some 1%positive))
                        (deref_opt doc_store (Some 2%positive))
                        {[ "world" := 7%Z; "yes" := 3%Z ]}).
Proof.
  apply (with_defaults_no_mutation Z doc_store (Some 1%positive)
           (Some 2%positive) 3%positive {[ "world" := 7%Z; "yes" := 3%Z ]}).
  - simpl. eexists. reflexivity.
  - simpl. eexists. reflexivity.
  - reflexivity.
Defined.

(** X17. The result of [with_defaults] has exactly the keys of its three
    arguments together: no key is dropped and none is invented. *)
Theorem with_defaults_keys (V : Type)
    (options defaults_dict : option (gmap string V))
    (defaults_kwargs : gmap string V) :
  dom (with_defaults options defaults_dict defaults_kwargs)
  = dom (default ∅ options) ∪ dom (default ∅ defaults_dict)
    ∪ dom defaults_kwargs.
Proof.
  rewrite with_defaults_unfold. unfold dict_new.
  by rewrite !dom_union_L.
Qed.

(** X18. Filling in the same defaults a second time changes nothing:
    [with_defaults(with_defaults(o, d, **kw), d, **kw)] equals
    [with_defaults(o, d, **kw)]. *)
Theorem with_defaults_idempotent (V : Type)
    (options defaults_dict : option (gmap string V))
    (defaults_kwargs : gmap string V) :
  with_defaults
    (Some (with_defaults options defaults_dict defaults_kwargs))
    defaults_dict defaults_kwargs
  = with_defaults options defaults_dict defaults_kwargs.
Proof.
  apply map_eq. intros k.
  rewrite (with_defaults_lookup (Some _)). simpl.
  destruct (with_defaults options defaults_dict defaults_kwargs !! k)
    as [v|] eqn:Hk; [done|].
  rewrite with_defaults_lookup in Hk.
  destruct (default ∅ options !! k); [done|].
  by destruct (default ∅ defaults_dict !! k).
Qed.

End WithDefaultsFacts.

(* ===================================================================== *)
(** ** Facts about binary64 arithmetic *)
(* ===================================================================== *)

(** The primitive operations are specified by the bit-level model
    [SpecFloat] of the standard library; the facts below are proved there
    and carried over. *)
Module FloatFacts.
Import Binary64.
Local Open Scope Z_scope.

Lemma iter_pos_invariant {A} (P : A → Prop) (f : A → A) :
  (∀ x, P x → P (f x)) → ∀ p x, P x → P (SpecFloat.iter_pos f p x).
Proof.
  intros Hf. induction p as [p IH|p IH|]; intros x Hx; simpl; auto.
Qed.

Lemma shr_1_nonneg mrs : 0 <= shr_m mrs → 0 <= shr_m (shr_1 mrs).
Proof.
  destruct mrs as [m r s]. simpl.
  destruct m as [|[p|p|]|[p|p|]]; simpl; lia.
Qed.

Lemma shr_fexp_nonneg m e l :
  0 <= m → 0 <= shr_m (shr_fexp prec emax m e l).1.
Proof.
  intros Hm. unfold shr_fexp, shr.
  assert (0 <= shr_m (shr_record_of_loc m l)) as H0.
  { by destruct l as [|[]]. }
  destruct (_ - e); simpl; [done| |done].
  by apply iter_pos_invariant; [apply shr_1_nonneg|].
Qed.

Lemma round_nearest_even_nonneg m l : 0 <= m → 0 <= round_nearest_even m l.
Proof.
  intros Hm. destruct l as [|[]]; simpl; try lia.
  destruct (Z.even m); lia.
Qed.

(** Rounding a non-negative mantissa gives a zero, a finite number or an
    infinity of the given sign, never a NaN. *)
Lemma binary_round_aux_shape s m e l :
  0 <= m →
  match binary_round_aux prec emax s m e l with
  | S754_zero s' | S754_infinity s' | S754_finite s' _ _ => s' = s
  | S754_nan => False
  end.
Proof.
  intros Hm. unfold binary_round_aux.
  pose proof (shr_fexp_nonneg m e l Hm) as H1.
  destruct (shr_fexp prec emax m e l) as [mrs' e']. simpl in H1.
  pose proof (shr_fexp_nonneg _ e' loc_Exact
                (round_nearest_even_nonneg _ (loc_of_shr_record mrs') H1)) as H2.
  destruct (shr_fexp prec emax _ e' loc_Exact) as [mrs'' e'']. simpl in H2.
  destruct (shr_m mrs'') as [|p|p]; [done| |lia].
  by destruct (e'' <=? emax - prec).
Qed.

Lemma binary_round_shape s m e :
  match binary_round prec emax s m e with
  | S754_zero s' | S754_infinity s' | S754_finite s' _ _ => s' = s
  | S754_nan => False
  end.
Proof.
  unfold binary_round. destruct (shl_align _ _ _) as [mz ez].
  by apply binary_round_aux_shape.
Qed.

Lemma binary_round_aux_abs s s' m e l :
  SFabs (binary_round_aux prec emax s m e l)
  = SFabs (binary_round_aux prec emax s' m e l).
Proof.
  unfold binary_round_aux.
  destruct (shr_fexp prec emax m e l) as [mrs' e'].
  destruct (shr_fexp prec emax _ e' loc_Exact) as [mrs'' e''].
  destruct (shr_m mrs'') as [|p|p]; [done| |done].
  by destruct (e'' <=? emax - prec).
Qed.

Lemma binary_round_abs s s' m e :
  SFabs (binary_round prec emax s m e) = SFabs (binary_round prec emax s' m e).
Proof.
  unfold binary_round. destruct (shl_align _ _ _) as [mz ez].
  apply binary_round_aux_abs.
Qed.

Lemma binary_normalize_opp_abs m e sz sz' :
  SFabs (binary_normalize prec emax (- m) e sz)
  = SFabs (binary_normalize prec emax m e sz').
Proof.
  destruct m as [|p|p]; simpl; [done|apply binary_round_abs..].
Qed.

(** [|x - y| = |y - x|], also after rounding. *)
Lemma SFabs_sub_swap x y :
  SFabs (SF64sub x y) = SFabs (SF64sub y x).
Proof.
  unfold SF64sub.
  destruct x as [sx|sx| |sx mx ex], y as [sy|sy| |sy my ey];
    try (by destruct sx, sy); try done.
  unfold SFsub. rewrite (Z.min_comm ey ex).
  rewrite <- (binary_normalize_opp_abs _ _ false false).
  f_equal. f_equal. lia.
Qed.

Lemma abs_sub_swap (a b : float) : abs (a - b) = abs (b - a).
Proof.
  apply Prim2SF_inj. rewrite !abs_spec, !sub_spec. apply SFabs_sub_swap.
Qed.

(** *** Classification *)

Lemma SFcompare_refl x : SFis_nan x = false → SFcompare x x = Some Eq.
Proof.
  destruct x as [s|s| |s m e]; simpl; try done.
  - by destruct s.
  - intros _. rewrite Z.compare_refl, Pos.compare_cont_refl. by destruct s.
Qed.

Lemma is_nan_spec (a : float) : is_nan a = SFis_nan (Prim2SF a).
Proof.
  unfold is_nan. rewrite FloatAxioms.eqb_spec. unfold SFeqb.
  destruct (SFis_nan (Prim2SF a)) eqn:E.
  - by destruct (Prim2SF a).
  - by rewrite SFcompare_refl.
Qed.

Lemma is_finite_spec (a : float) : is_finite a = SFis_finite (Prim2SF a).
Proof.
  unfold is_finite, is_infinity. rewrite is_nan_spec, FloatAxioms.eqb_spec, abs_spec.
  change (Prim2SF infinity) with (S754_infinity false).
  by destruct (Prim2SF a) as [s|s| |s m e].
Qed.

Lemma is_finite_not_nan (a : float) : is_finite a = true → is_nan a = false.
Proof. rewrite is_finite_spec, is_nan_spec. by destruct (Prim2SF a). Qed.

Lemma eqb_refl (a : float) : is_nan a = false → (a =? a)%float = true.
Proof. unfold is_nan. by destruct (a =? a)%float. Qed.

(** *** The tolerance test of a number against itself *)

Lemma SFsub_diag x : SFis_finite x = true → SF64sub x x = S754_zero false.
Proof.
  destruct x as [s|s| |s m e]; try done; intros _.
  - by destruct s.
  - unfold SF64sub, SFsub. by rewrite Z.sub_diag.
Qed.

Lemma SFmul_ge0 x y :
  SFis_finite x = true → ge0 x → SFis_finite y = true → ge0 y →
  ge0 (SF64mul x y).
Proof.
  destruct x as [sx|sx| |sx mx ex], y as [sy|sy| |sy my ey]; try done.
  intros _ Hx _ Hy. destruct sx, sy; try done.
  unfold SF64mul, SFmul. simpl xorb.
  pose proof (binary_round_aux_shape false (Z.pos (mx * my)) (ex + ey)
                loc_Exact ltac:(lia)) as H.
  destruct (binary_round_aux _ _ _ _ _ _); by subst.
Qed.

Lemma SFadd_ge0 x y :
  SFis_finite x = true → ge0 x → ge0 y → ge0 (SF64add x y).
Proof.
  destruct x as [sx|sx| |sx mx ex], y as [sy|sy| |sy my ey]; try done.
  - by destruct sx, sy.
  - intros _ Hx Hy. destruct sx, sy; try done.
    unfold SF64add, SFadd. simpl cond_Zopp.
    match goal with |- ge0 (binary_normalize _ _ (Z.pos ?a + Z.pos ?b) ?e _) =>
      change (Z.pos a + Z.pos b) with (Z.pos (a + b)) end.
    simpl binary_normalize.
    match goal with |- ge0 (binary_round _ _ ?s ?m ?e) =>
      pose proof (binary_round_shape s m e) as H;
      destruct (binary_round _ _ s m e) end; by subst.
Qed.

Lemma SFleb_zero_ge0 x : ge0 x → SFleb (S754_zero false) x = true.
Proof. destruct x as [s|s| |s m e]; try done; by destruct s. Qed.

Lemma SF_nonneg_finite (r : float) :
  is_finite r = true → (0 <=? r)%float = true →
  SFis_finite (Prim2SF r) = true ∧ ge0 (Prim2SF r).
Proof.
  rewrite is_finite_spec, FloatAxioms.leb_spec.
  change (Prim2SF 0) with (S754_zero false).
  destruct (Prim2SF r) as [s|s| |s m e]; try done.
  by destruct s.
Qed.


(** *** Comparing with zero *)

Lemma sub_zero_r (a : float) : (a - 0)%float = a.
Proof.
  apply Prim2SF_inj. rewrite sub_spec.
  change (Prim2SF 0) with (S754_zero false).
  destruct (Prim2SF a) as [s|s| |s m e]; try done. by destruct s.
Qed.


(** *** The order of the numbers *)

Lemma SFcompare_key x y :
  SFis_nan x = false → SFis_nan y = false →
  SFcompare x y = Some (lex (key x) (key y)).
Proof.
  destruct x as [sx|sx| |sx mx ex], y as [sy|sy| |sy my ey]; try done;
    intros _ _; try (by destruct sx, sy).
  destruct sx, sy; try done; unfold lex; simpl.
  rewrite Z.compare_opp, (Z.compare_antisym ex ey).
  by destruct (ex ?= ey).
Qed.

Lemma lex_le_iff p q : lex p q ≠ Gt ↔ lex_le p q.
Proof.
  destruct p as [[a b] c], q as [[a' b'] c']. unfold lex, lex_le. simpl.
  destruct (Z.compare_spec a a'), (Z.compare_spec b b'),
    (Z.compare_spec c c'); split; try done; try lia; intros _; lia.
Qed.

Lemma SFleb_key x y :
  SFis_nan x = false → SFis_nan y = false →
  SFleb x y = true ↔ lex_le (key x) (key y).
Proof.
  intros Hx Hy. unfold SFleb. rewrite SFcompare_key by done.
  rewrite <- lex_le_iff. by destruct (lex (key x) (key y)).
Qed.

Lemma leb_key (a b : float) :
  is_nan a = false → is_nan b = false →
  (a <=? b)%float = true ↔ lex_le (key (Prim2SF a)) (key (Prim2SF b)).
Proof.
  rewrite !is_nan_spec, FloatAxioms.leb_spec. apply SFleb_key.
Qed.

Lemma leb_refl (a : float) : is_nan a = false → (a <=? a)%float = true.
Proof.
  intros Ha. apply leb_key; [done..|].
  destruct (key (Prim2SF a)) as [[x y] z]. unfold lex_le. simpl. lia.
Qed.

Lemma leb_trans (a b c : float) :
  is_nan a = false → is_nan b = false → is_nan c = false →
  (a <=? b)%float = true → (b <=? c)%float = true → (a <=? c)%float = true.
Proof.
  intros Ha Hb Hc. rewrite !leb_key by done.
  destruct (key (Prim2SF a)) as [[x y] z], (key (Prim2SF b)) as [[x' y'] z'],
    (key (Prim2SF c)) as [[x'' y''] z'']. unfold lex_le. simpl. lia.
Qed.

Lemma leb_total (a b : float) :
  is_nan a = false → is_nan b = false →
  (a <=? b)%float = false → (b <=? a)%float = true.
Proof.
  intros Ha Hb Hab. apply leb_key; [done..|].
  assert (¬ lex_le (key (Prim2SF a)) (key (Prim2SF b))) as Hn.
  { rewrite <- leb_key by done. by rewrite Hab. }
  revert Hn.
  destruct (key (Prim2SF a)) as [[x y] z], (key (Prim2SF b)) as [[x' y'] z'].
  unfold lex_le. simpl. lia.
Qed.

Lemma leb_antisym_key (a b : float) :
  is_nan a = false → is_nan b = false →
  (a <=? b)%float = true → (b <=? a)%float = true →
  key (Prim2SF a) = key (Prim2SF b).
Proof.
  intros Ha Hb. rewrite !leb_key by done.
  destruct (key (Prim2SF a)) as [[x y] z], (key (Prim2SF b)) as [[x' y'] z'].
  unfold lex_le. simpl. intros H1 H2.
  assert (x = x' ∧ y = y' ∧ z = z') as (-> & -> & ->) by lia. done.
Qed.

(** *** Differences *)

Lemma binary_normalize_not_nan m e sz :
  SFis_nan (binary_normalize prec emax m e sz) = false.
Proof.
  destruct m as [|p|p]; simpl; [done| |].
  - pose proof (binary_round_shape false p e) as H.
    by destruct (binary_round _ _ _ _ _).
  - pose proof (binary_round_shape true p e) as H.
    by destruct (binary_round _ _ _ _ _).
Qed.

Lemma SFsub_finite_not_nan x y :
  SFis_finite x = true → SFis_finite y = true →
  SFis_nan (SF64sub x y) = false.
Proof.
  destruct x as [sx|sx| |sx mx ex], y as [sy|sy| |sy my ey]; try done;
    intros _ _.
  - by destruct sx, sy.
  - apply binary_normalize_not_nan.
Qed.

(** The difference of two finite numbers may be infinite, but is no NaN. *)
Lemma sub_finite_not_nan (a b : float) :
  is_finite a = true → is_finite b = true → is_nan (a - b) = false.
Proof.
  rewrite !is_finite_spec, is_nan_spec, sub_spec.
  apply SFsub_finite_not_nan.
Qed.

Lemma sub_diag (a : float) : is_finite a = true → (a - a)%float = 0%float.
Proof.
  rewrite is_finite_spec. intros Ha. apply Prim2SF_inj.
  rewrite sub_spec, SFsub_diag by done. done.
Qed.

Lemma SFsub_same_key x y :
  SFis_finite x = true → SFis_finite y = true → key x = key y →
  SFis_zero (SF64sub x y) = true.
Proof.
  destruct x as [sx|sx| |sx mx ex], y as [sy|sy| |sy my ey]; try done;
    intros _ _ Hk.
  - by destruct sx, sy.
  - by destruct sy.
  - by destruct sx.
  - assert (S754_finite sx mx ex = S754_finite sy my ey) as ->.
    { destruct sx, sy; simpl in Hk; try done;
        injection Hk as He Hm; f_equal; lia. }
    by rewrite SFsub_diag.
Qed.

Lemma SFmul_zero_r x z :
  SFis_finite x = true → SFis_zero z = true → SFis_zero (SF64mul x z) = true.
Proof. by destruct x, z. Qed.

Lemma SFdiv_zero_l z y :
  SFis_zero z = true → SFis_zero y = false → SFis_nan y = false →
  SFis_zero (SF64div z y) = true.
Proof. by destruct z, y. Qed.

Lemma SFadd_zero_r x z :
  SFis_nan x = false → SFis_zero z = true → SFeqb (SF64add x z) x = true.
Proof.
  destruct x as [sx|sx| |sx mx ex], z as [sz|sz| |sz mz ez]; try done;
    intros _ _.
  - by destruct sx, sz.
  - by destruct sx.
  - unfold SFeqb. simpl SF64add. by rewrite SFcompare_refl.
Qed.

End FloatFacts.

(* ===================================================================== *)
(** ** Facts about [FuzzySet] *)
(* ===================================================================== *)

Module FuzzySetFacts.
Import FuzzySet.

Section Tolerance.
Variables rtol atol : float.

Lemma isclose_iff a b : isclose rtol atol a b = true ↔ close rtol atol a b.
Proof.
  unfold isclose, close.
  by destruct (PrimFloat.is_finite a && PrimFloat.is_finite b).
Qed.

Lemma allclose_true_iff u v :
  allclose rtol atol u v = Ok true ↔ within rtol atol u v.
Proof.
  unfold allclose, within, elementwise.
  destruct (broadcast u v) as [ps|]; split.
  - intros [= Hall]. exists ps. split; [done|].
    apply Forall_forall. intros p Hp.
    apply isclose_iff.
    apply forallb_forall with (x := p) in Hall; [done|].
    by apply list_elem_of_In.
  - intros (ps' & [= <-] & Hall). f_equal.
    apply forallb_forall. intros p Hp.
    apply isclose_iff.
    rewrite Forall_forall in Hall. apply Hall.
    by apply list_elem_of_In.
  - done.
  - by intros (ps' & ? & _).
Qed.

Lemma allclose_broadcasts u v :
  broadcasts u v → ∃ b, allclose rtol atol u v = Ok b.
Proof. unfold allclose. intros [ps ->]. eauto. Qed.

Lemma allclose_false_not_within u v :
  allclose rtol atol u v = Ok false → ¬ within rtol atol u v.
Proof. intros Hf Hw%allclose_true_iff. congruence. Qed.

(** [any] answers [True] only on account of a stored item within
    tolerance. *)
Lemma any_allclose_true v l :
  any_allclose rtol atol v l = Ok true →
  ∃ x, x ∈ l ∧ within rtol atol v x.
Proof.
  induction l as [|x l IH]; simpl; [done|].
  destruct (allclose rtol atol v x) as [[|]| |] eqn:Hx; try done.
  - intros _. exists x. split; [left|]. by apply allclose_true_iff.
  - intros (y & Hy & Hw)%IH. exists y. split; [by right|done].
Qed.

(** [any] answers [False] exactly when every comparison answered
    [False]. *)
Lemma any_allclose_false v l :
  any_allclose rtol atol v l = Ok false ↔
  Forall (λ x, allclose rtol atol v x = Ok false) l.
Proof.
  induction l as [|x l IH]; simpl.
  - split; [constructor|done].
  - destruct (allclose rtol atol v x) as [[|]| |] eqn:Hx.
    + split; [done|]. intros [Hc _]%Forall_cons. congruence.
    + rewrite IH. split; [by constructor|by intros [_ ?]%Forall_cons].
    + split; [done|]. intros [Hc _]%Forall_cons. congruence.
    + split; [done|]. intros [Hc _]%Forall_cons. congruence.
Qed.

(** Without shape errors [any] finds every stored item within
    tolerance. *)
Lemma any_allclose_complete v l x :
  Forall (broadcasts v) l → x ∈ l → within rtol atol v x →
  any_allclose rtol atol v l = Ok true.
Proof.
  induction l as [|y l IH]; simpl; [by intros _ ?%not_elem_of_nil|].
  intros [Hy Hl]%Forall_cons Hin Hw.
  destruct (allclose_broadcasts v y Hy) as [[|] Hb]; rewrite Hb; [done|].
  apply elem_of_cons in Hin as [->|Hin]; [|by apply IH].
  apply allclose_true_iff in Hw. congruence.
Qed.
End Tolerance.

(** C1. The membership test [v in s] answers true if and only if some stored
    item [x] satisfies [|v - x| <= atol + rtol * |x|] element-wise, the
    inequality being evaluated in binary64 arithmetic (and a number that is
    not finite being within tolerance only of itself, as [np.isclose] has
    it), for every set and every item [v] whose shape broadcasts against the
    stored items (so that [np.allclose] raises no [ValueError]); the test
    does not change the store. *)
Theorem contains_iff_within (s : t) (v : item) (h : store) :
  Forall (broadcasts v) (list_of h (data s)) →
  __contains__ s v h = (h, Ok true) ↔
  ∃ x, x ∈ list_of h (data s) ∧ within (rtol s) (atol s) v x.
Proof.
  intros Hshape. unfold __contains__. split.
  - intros [= Hany]. by apply any_allclose_true.
  - intros (x & Hin & Hw). f_equal.
    by eapply any_allclose_complete.
Qed.

(** *** Stores and calls *)

Lemma list_of_insert_eq (h : store) r l : list_of (<[r := l]> h) r = l.
Proof. unfold list_of. apply lookup_total_insert_eq. Qed.

Lemma list_of_insert_ne (h : store) r r' l :
  r ≠ r' → list_of (<[r := l]> h) r' = list_of h r'.
Proof. unfold list_of. intros. by apply lookup_total_insert_ne. Qed.

Lemma broadcast_swap a b :
  broadcast b a = (λ ps, map (λ p, (p.2, p.1)) ps) <$> broadcast a b.
Proof.
  destruct a as [x|xs], b as [y|ys]; simpl.
  - done.
  - f_equal. rewrite map_map. by apply map_ext.
  - f_equal. rewrite map_map. by apply map_ext.
  - rewrite (Nat.eqb_sym (length ys) (length xs)).
    destruct (length xs =? length ys)%nat eqn:Hlen; simpl.
    + f_equal. clear Hlen. revert ys.
      induction xs as [|x xs IH]; intros [|y ys]; simpl; try done.
      by rewrite IH.
    + apply Nat.eqb_neq in Hlen.
      destruct xs as [|x [|x' xs]], ys as [|y [|y' ys]]; simpl in *;
        try done; repeat f_equal; rewrite map_map; by apply map_ext.
Qed.

(** The tolerance test of [add] compares the new item with the stored one,
    scaling by the stored one; [|x - y|] and [|y - x|] are the same number
    also after rounding. *)
Lemma within_swap rtol atol a b :
  elementwise
    (λ x y, PrimFloat.is_finite x = true ∧ PrimFloat.is_finite y = true
            ∧ (PrimFloat.abs (x - y) <=? atol + rtol * PrimFloat.abs x)%float
              = true) a b →
  within rtol atol b a.
Proof.
  intros (ps & Hps & Hall). unfold within, elementwise.
  rewrite broadcast_swap, Hps. simpl. eexists. split; [done|].
  apply Forall_map. eapply Forall_impl; [exact Hall|].
  intros [x y] (Hx & Hy & Hle). unfold close. simpl in *.
  rewrite Hx, Hy. simpl.
  by rewrite (FloatFacts.abs_sub_swap y x).
Qed.

Lemma add_absent (s : t) (x : item) (h : store) :
  any_allclose (rtol s) (atol s) x (list_of h (data s)) = Ok false →
  add s x h = (<[data s := list_of h (data s) ++ [x]]> h, Ok tt).
Proof. intros Hc. unfold add, bind, __contains__. by rewrite Hc. Qed.

Lemma add_present (s : t) (x : item) (h : store) :
  any_allclose (rtol s) (atol s) x (list_of h (data s)) = Ok true →
  add s x h = (h, Ok tt).
Proof. intros Hc. unfold add, bind, __contains__. by rewrite Hc. Qed.

Lemma add_raises (s : t) (x : item) (h : store) e :
  any_allclose (rtol s) (atol s) x (list_of h (data s)) = Raise e →
  add s x h = (h, Raise e).
Proof. intros Hc. unfold add, bind, __contains__. by rewrite Hc. Qed.

Lemma any_allclose_never_out_of_fuel rtol atol x l :
  any_allclose rtol atol x l ≠ OutOfFuel.
Proof.
  induction l as [|y l IH]; simpl; [done|].
  unfold allclose at 1. destruct (broadcast x y); [|done].
  by destruct (forallb _ _).
Qed.

Lemma init_empty fuel rtol atol (h : store) :
  __init__ fuel None rtol atol h =
    (<[fresh (dom h) := []]> h,
     Ok {| data := fresh (dom h); rtol := rtol; atol := atol |}).
Proof. done. Qed.

(** C2. Starting from an empty set, adding [a] and then an item [b] of
    finite numbers with [|a - b| <= atol + rtol * |a|] element-wise, the
    inequality being evaluated in binary64 arithmetic, leaves a set of
    length 1 whose item at index 0 is [a]: the second item is discarded. *)
Theorem add_near_duplicate_keeps_first
    (fuel : nat) (rtol atol : float) (a b : item) (h : store) :
  elementwise
    (λ x y, PrimFloat.is_finite x = true ∧ PrimFloat.is_finite y = true
            ∧ (PrimFloat.abs (x - y) <=? atol + rtol * PrimFloat.abs x)%float
              = true) a b →
  ∃ s h',
    (do s <- __init__ fuel None rtol atol;
     do _ <- add s a;
     do _ <- add s b;
     ret s) h = (h', Ok s)
    ∧ __len__ s h' = (h', Ok 1%nat)
    ∧ __getitem__ s 0 h' = (h', Ok a).
Proof.
  intros Hab%within_swap.
  set (r := fresh (dom h)).
  set (s := {| data := r; rtol := rtol; atol := atol |}).
  set (h1 := <[r := []]> h).
  set (h2 := <[r := [] ++ [a]]> h1).
  assert (list_of h1 r = []) as L1 by apply list_of_insert_eq.
  assert (list_of h2 r = [a]) as L2 by apply list_of_insert_eq.
  assert (add s a h1 = (h2, Ok tt)) as A1.
  { rewrite add_absent; simpl; rewrite L1; done. }
  assert (add s b h2 = (h2, Ok tt)) as A2.
  { apply add_present. simpl. rewrite L2. simpl.
    apply allclose_true_iff in Hab. by rewrite Hab. }
  exists s, h2. split_and!.
  - unfold bind at 1. rewrite init_empty. fold r s h1.
    unfold bind at 1. rewrite A1.
    unfold bind at 1. by rewrite A2.
  - unfold __len__. simpl. by rewrite L2.
  - unfold __getitem__. simpl. by rewrite L2.
Qed.

(** *** The ordering invariant *)

Lemma far_from_earlier_nil rtol atol : far_from_earlier rtol atol [].
Proof. intros i j u v _ Hi. by rewrite lookup_nil in Hi. Qed.

Lemma far_from_earlier_snoc rtol atol l x :
  far_from_earlier rtol atol l →
  any_allclose rtol atol x l = Ok false →
  far_from_earlier rtol atol (l ++ [x]).
Proof.
  intros Hfar Hany%any_allclose_false i j u v Hij Hi Hj.
  assert (j < length (l ++ [x]))%nat as Hlt by (by eapply lookup_lt_Some).
  rewrite length_app in Hlt. simpl in Hlt.
  rewrite lookup_app_l in Hi by lia.
  destruct (decide (j < length l)%nat) as [Hjl|Hjl].
  - rewrite lookup_app_l in Hj by done. exact (Hfar i j u v Hij Hi Hj).
  - rewrite lookup_app_r in Hj by lia.
    replace (j - length l)%nat with 0%nat in Hj by lia.
    injection Hj as <-.
    rewrite Forall_forall in Hany. apply Hany.
    by eapply list_elem_of_lookup_2.
Qed.

(** [add] either leaves the store alone or appends an item that failed the
    test against every stored item. *)
Lemma add_cases (s : t) (x : item) (h : store) :
  (∃ r, add s x h = (h, r))
  ∨ (any_allclose (rtol s) (atol s) x (list_of h (data s)) = Ok false
     ∧ add s x h = (<[data s := list_of h (data s) ++ [x]]> h, Ok tt)).
Proof.
  destruct (any_allclose (rtol s) (atol s) x (list_of h (data s)))
    as [[|]|e|] eqn:Hc.
  - left. eexists. by apply add_present.
  - right. split; [done|]. by apply add_absent.
  - left. eexists. by apply add_raises.
  - by apply any_allclose_never_out_of_fuel in Hc.
Qed.

Lemma preserves_ret {A} O (a : A) : preserves O (ret a).
Proof. by intros h Hg. Qed.

Lemma preserves_bind {A B} O (m : M A) (k : A → M B) :
  preserves O m → (∀ a, preserves O (k a)) → preserves O (bind m k).
Proof.
  intros Hm Hk h Hg. unfold bind.
  destruct (Hm h Hg) as [Hg' Hd].
  destruct (m h) as [h' [a| |]]; simpl in *; [|done..].
  destruct (Hk a h' Hg') as [Hg'' Hd'].
  split; [done|congruence].
Qed.

Lemma good_insert_append O (s : t) (x : item) (h : store) :
  coherent O → s ∈ O → good O h →
  any_allclose (rtol s) (atol s) x (list_of h (data s)) = Ok false →
  good O (<[data s := list_of h (data s) ++ [x]]> h)
  ∧ dom (<[data s := list_of h (data s) ++ [x]]> h) = dom h.
Proof.
  intros Hco Hs Hg Hany. split.
  - intros s' Hs'. destruct (Hg s' Hs') as [Hdom Hfar]. split.
    + apply dom_insert_subseteq, Hdom.
    + destruct (decide (data s = data s')) as [Heq|Hne].
      * assert (s = s') as <- by (by apply Hco).
        rewrite list_of_insert_eq. by apply far_from_earlier_snoc.
      * by rewrite list_of_insert_ne.
  - apply dom_insert_lookup_L. apply elem_of_dom. by apply Hg.
Qed.

Lemma preserves_add O (s : t) (x : item) :
  coherent O → s ∈ O → preserves O (add s x).
Proof.
  intros Hco Hs h Hg.
  destruct (add_cases s x h) as [[r ->]|[Hany ->]]; simpl; [done|].
  by apply good_insert_append.
Qed.

Lemma preserves_add_each O (s : t) (l : list item) :
  coherent O → s ∈ O → preserves O (add_each s l).
Proof.
  intros Hco Hs. induction l as [|x l IH]; simpl.
  - apply preserves_ret.
  - apply preserves_bind; [by apply preserves_add|done].
Qed.

Lemma preserves_add_from O fuel (s other : t) (i : nat) :
  coherent O → s ∈ O → preserves O (add_from fuel s other i).
Proof.
  intros Hco Hs. revert i. induction fuel as [|fuel IH]; intros i h Hg.
  - done.
  - simpl. unfold __getitem__.
    destruct (list_of h (data other) !! i) as [x|]; [|done].
    apply (preserves_bind O (add s x)
             (λ _, add_from fuel s other (S i))); [|by intros _|done].
    by apply preserves_add.
Qed.

Lemma preserves_for_each_add O fuel (s : t) (other : iterable) :
  coherent O → s ∈ O → preserves O (for_each_add fuel s other).
Proof.
  intros Hco Hs. destruct other as [l|o]; simpl.
  - by apply preserves_add_each.
  - by apply preserves_add_from.
Qed.

Lemma preserves_iadd O fuel (s : t) (other : iterable) :
  coherent O → s ∈ O → preserves O (__iadd__ fuel s other).
Proof.
  intros Hco Hs. unfold __iadd__.
  apply preserves_bind; [by apply preserves_for_each_add|].
  intros _. apply preserves_ret.
Qed.

(** The copy shares everything with the original. *)
Lemma copy_same (s : t) (h : store) : copy s h = (h, Ok s).
Proof. by destruct s. Qed.

Lemma plus_unfold fuel (s o : t) (h : store) :
  __add__ fuel s (IsFuzzySet o) h =
    (do r <- __iadd__ fuel s (PySet o); ret r) h.
Proof. simpl. unfold bind at 1. by rewrite copy_same. Qed.

Lemma preserves_plus O fuel (s : t) (other : operand) :
  coherent O → s ∈ O → preserves O (__add__ fuel s other).
Proof.
  intros Hco Hs h Hg. destruct other as [o|].
  - rewrite plus_unfold.
    apply (preserves_bind O (__iadd__ fuel s (PySet o)) (λ r, ret r));
      [by apply preserves_iadd|intros r; apply preserves_ret|done].
  - change (__add__ fuel s NotFuzzySet h) with (copy s h).
    by rewrite copy_same.
Qed.

(** A call that returns returns an object that is already known, unless it
    is the constructor. *)
Lemma iadd_returns_self fuel (s : t) other h h' r :
  __iadd__ fuel s other h = (h', Ok r) → r = s.
Proof.
  unfold __iadd__, bind.
  destruct (for_each_add fuel s other h) as [h1 [[]| |]]; [|done..].
  unfold ret. by intros [= _ ->].
Qed.

Lemma plus_returns_self fuel (s : t) other h h' r :
  __add__ fuel s other h = (h', Ok r) → r = s.
Proof.
  destruct other as [o|].
  - rewrite plus_unfold. unfold bind.
    destruct (__iadd__ fuel s (PySet o) h) as [h1 [r1| |]] eqn:E;
      simpl; try done.
    intros [= <- <-]. by eapply iadd_returns_self.
  - change (__add__ fuel s NotFuzzySet h) with (copy s h).
    rewrite copy_same. congruence.
Qed.

Lemma bind_ok_inv {A B} (m : M A) (k : A → M B) (h h' : store) (b : B) :
  bind m k h = (h', Ok b) →
  ∃ a h1, m h = (h1, Ok a) ∧ k a h1 = (h', Ok b).
Proof.
  unfold bind. destruct (m h) as [h1 [a| |]]; [|done..].
  intros Hk. by exists a, h1.
Qed.

Lemma coherent_cons_known O (s : t) : s ∈ O → coherent O → coherent (s :: O).
Proof.
  intros Hs Hco s1 s2 [->|H1]%elem_of_cons [->|H2]%elem_of_cons;
    by apply Hco.
Qed.

Lemma good_cons_known O (s : t) h : s ∈ O → good O h → good (s :: O) h.
Proof. intros Hs Hg s' [->|Hs']%elem_of_cons; by apply Hg. Qed.

Lemma good_tail O (s : t) h : good (s :: O) h → good O h.
Proof. intros Hg s' Hs'. apply Hg. by right. Qed.

Lemma coherent_tail O (s : t) : coherent (s :: O) → coherent O.
Proof. intros Hco s1 s2 H1 H2. apply Hco; by right. Qed.

(** The object under construction is new: its list is at a fresh
    reference, which no known object uses. *)
Lemma fresh_object O (h : store) rtol atol :
  let s := {| data := fresh (dom h); rtol := rtol; atol := atol |} in
  coherent O → good O h →
  coherent (s :: O) ∧ good (s :: O) (<[fresh (dom h) := []]> h).
Proof.
  intros s Hco Hg.
  assert (∀ o, o ∈ O → data o ≠ fresh (dom h)) as Hne.
  { intros o Ho Heq. destruct (Hg o Ho) as [Hd _].
    rewrite Heq in Hd. by apply is_fresh in Hd. }
  split.
  - intros s1 s2 [->|H1]%elem_of_cons [->|H2]%elem_of_cons Heq;
      [done| | |by apply Hco].
    + symmetry in Heq. by apply Hne in Heq.
    + by apply Hne in Heq.
  - intros s' [->|Hs']%elem_of_cons.
    + simpl. rewrite list_of_insert_eq. split.
      * apply elem_of_dom. rewrite lookup_insert_eq. by eexists.
      * apply far_from_earlier_nil.
    + destruct (Hg s' Hs') as [Hd Hfar]. split.
      * by apply dom_insert_subseteq.
      * rewrite list_of_insert_ne; [done|]. apply not_eq_sym. by apply Hne.
Qed.

Lemma preserves_iterable_truthy O it : preserves O (iterable_truthy it).
Proof. intros h Hg. by destruct it as [[l|o]|]. Qed.

(** [__init__] runs its loop on the new object over the extended store. *)
Lemma init_unfold fuel it rtol atol (h : store) :
  let s := {| data := fresh (dom h); rtol := rtol; atol := atol |} in
  __init__ fuel it rtol atol h =
    (do b <- iterable_truthy it;
     do _ <- match it with
             | Some i => if b then for_each_add fuel s i else ret tt
             | None => ret tt
             end;
     ret s) (<[fresh (dom h) := []]> h).
Proof. done. Qed.

Lemma init_returns_new fuel it rtol atol (h h' : store) r :
  __init__ fuel it rtol atol h = (h', Ok r) →
  r = {| data := fresh (dom h); rtol := rtol; atol := atol |}.
Proof.
  rewrite init_unfold.
  intros (b & h1 & _ & (u & h2 & _ & Hret)%bind_ok_inv)%bind_ok_inv.
  unfold ret in Hret. by injection Hret as _ <-.
Qed.

Lemma init_good O fuel it rtol atol (h : store) :
  let s := {| data := fresh (dom h); rtol := rtol; atol := atol |} in
  coherent O → good O h →
  good (s :: O) (__init__ fuel it rtol atol h).1.
Proof.
  intros s Hco Hg.
  destruct (fresh_object O h rtol atol Hco Hg) as [Hco' Hg'].
  rewrite init_unfold. fold s.
  assert (s ∈ s :: O) as Hs by left.
  refine (proj1 (preserves_bind (s :: O) _ _ _ _ _ Hg')).
  - apply preserves_iterable_truthy.
  - intros b. apply preserves_bind; [|intros _; apply preserves_ret].
    destruct it as [i|]; [|apply preserves_ret].
    destruct b; [by apply preserves_for_each_add|apply preserves_ret].
Qed.

Lemma add_then_ret_returns_self (s : t) x h h' r :
  (do _ <- add s x; ret s) h = (h', Ok r) → r = s.
Proof.
  intros (u & h1 & _ & Hret)%bind_ok_inv.
  unfold ret in Hret. by injection Hret as _ <-.
Qed.

(** Every call keeps the objects coherent and their lists
    [far_from_earlier]. *)
Lemma run_call_invariant fuel (c : call) (w : world) :
  coherent (objs w) → good (objs w) (heap w) → call_known w c →
  coherent (objs (run_call fuel c w))
  ∧ good (objs (run_call fuel c w)) (heap (run_call fuel c w)).
Proof.
  intros Hco Hg Hk. unfold run_call.
  destruct c as [it rtol atol|s x|s other|s other]; simpl in *.
  - pose proof (init_good (objs w) fuel it rtol atol (heap w) Hco Hg) as Hg'.
    destruct (fresh_object (objs w) (heap w) rtol atol Hco Hg) as [Hco' _].
    destruct (__init__ fuel it rtol atol (heap w)) as [h' [r| |]] eqn:E;
      simpl in *; [|by split; [|eapply good_tail]..].
    apply init_returns_new in E as ->. done.
  - assert (preserves (objs w) (do _ <- add s x; ret s)) as Hp.
    { apply preserves_bind; [by apply preserves_add|].
      intros _. apply preserves_ret. }
    destruct (Hp (heap w) Hg) as [Hg' _].
    destruct ((do _ <- add s x; ret s) (heap w)) as [h' [r| |]] eqn:E;
      simpl in *; [|done..].
    apply add_then_ret_returns_self in E as ->.
    split; [by apply coherent_cons_known|by apply good_cons_known].
  - destruct Hk as [Hs _].
    destruct (preserves_iadd (objs w) fuel s other Hco Hs (heap w) Hg)
      as [Hg' _].
    destruct (__iadd__ fuel s other (heap w)) as [h' [r| |]] eqn:E;
      simpl in *; [|done..].
    apply iadd_returns_self in E as ->.
    split; [by apply coherent_cons_known|by apply good_cons_known].
  - destruct Hk as [Hs _].
    destruct (preserves_plus (objs w) fuel s other Hco Hs (heap w) Hg)
      as [Hg' _].
    destruct (__add__ fuel s other (heap w)) as [h' [r| |]] eqn:E;
      simpl in *; [|done..].
    apply plus_returns_self in E as ->.
    split; [by apply coherent_cons_known|by apply good_cons_known].
Qed.

Lemma reachable_invariant (w : world) :
  reachable w → coherent (objs w) ∧ good (objs w) (heap w).
Proof.
  induction 1 as [|fuel c w Hr [Hco Hg] Hk].
  - split; [by intros s1 s2 ?%not_elem_of_nil|by intros s ?%not_elem_of_nil].
  - by apply run_call_invariant.
Qed.

(** C3 (as the code has it). In every world reachable through the public
    operations, no stored item of a set is within tolerance of an item
    stored before it: for positions [i < j] holding [u] and [v], the test
    [|v - u| <= atol + rtol * |u|] of the code, evaluated in binary64
    arithmetic, fails (or the shapes do not broadcast). *)
Theorem later_item_not_within_earlier (w : world) (s : t)
    (i j : nat) (u v : item) :
  reachable w → s ∈ objs w → (i < j)%nat →
  list_of (heap w) (data s) !! i = Some u →
  list_of (heap w) (data s) !! j = Some v →
  ¬ within (rtol s) (atol s) v u.
Proof.
  intros Hr Hs Hij Hi Hj.
  destruct (reachable_invariant w Hr) as [_ Hg].
  destruct (Hg s Hs) as [_ Hfar].
  apply allclose_false_not_within. by eapply Hfar.
Qed.

(** *** The sample world *)

Lemma sample_world_reachable : reachable sample_world.
Proof.
  unfold sample_world.
  assert (reachable (run_call 0 (Construct None default_rtol default_atol)
                       {| heap := ∅; objs := [] |})) as H0.
  { apply reachable_call; [apply reachable_start|done]. }
  assert (sample_set ∈ objs (run_call 0
            (Construct None default_rtol default_atol)
            {| heap := ∅; objs := [] |})) as Hin by (vm_compute; left).
  apply reachable_call; [apply reachable_call; [done|done]|].
  vm_compute. left.
Qed.

Lemma sample_world_list :
  list_of (heap sample_world) (data sample_set)
  = [Scalar 1000; Scalar 1001.0005].
Proof. vm_compute. reflexivity. Qed.

Lemma sample_world_objs : sample_set ∈ objs sample_world.
Proof. vm_compute. left. Qed.

Lemma sample_first_within_second :
  within (rtol sample_set) (atol sample_set)
    (Scalar 1000) (Scalar 1001.0005).
Proof. apply allclose_true_iff. vm_compute. reflexivity. Qed.

(** C3, counterexample. With the default tolerances, after
    [s = FuzzySet(); s.add(1000.0); s.add(1001.0005)] both items are stored,
    and the first is within tolerance of the second: the claim that neither
    of two stored items is within tolerance of the other fails. *)
Lemma stored_items_can_be_within_tolerance :
  ¬ (∀ (w : world) (s : t) (i j : nat) (u v : item),
       reachable w → s ∈ objs w → i ≠ j →
       list_of (heap w) (data s) !! i = Some u →
       list_of (heap w) (data s) !! j = Some v →
       ¬ within (rtol s) (atol s) u v).
Proof.
  intros Hclaim.
  apply (Hclaim sample_world sample_set 0%nat 1%nat
           (Scalar 1000) (Scalar 1001.0005)).
  - apply sample_world_reachable.
  - apply sample_world_objs.
  - done.
  - by rewrite sample_world_list.
  - by rewrite sample_world_list.
  - apply sample_first_within_second.
Qed.

Lemma later_item_not_within_earlier_witness :
  ¬ within (rtol sample_set) (atol sample_set)
      (Scalar 1001.0005) (Scalar 1000).
Proof.
  apply (later_item_not_within_earlier sample_world sample_set 0%nat 1%nat).
  - apply sample_world_reachable.
  - apply sample_world_objs.
  - lia.
  - by rewrite sample_world_list.
  - by rewrite sample_world_list.
Defined.

Lemma contains_iff_within_witness :
  __contains__ sample_set (Vector [1; 1e-6]%float) sample_store
    = (sample_store, Ok true)
  ↔ ∃ x, x ∈ list_of sample_store (data sample_set)
         ∧ within (rtol sample_set) (atol sample_set)
             (Vector [1; 1e-6]%float) x.
Proof.
  apply (contains_iff_within sample_set (Vector [1; 1e-6]%float)
           sample_store).
  assert (list_of sample_store (data sample_set)
          = [Vector [1; 0]%float; Vector [0; 1]%float]) as -> by reflexivity.
  repeat constructor; by eexists.
Defined.

Lemma add_near_duplicate_keeps_first_witness :
  ∃ s h',
    (do s <- __init__ 0 None default_rtol default_atol;
     do _ <- add s (Vector [1; 0]%float);
     do _ <- add s (Vector [1; 1e-6]%float);
     ret s) ∅ = (h', Ok s)
    ∧ __len__ s h' = (h', Ok 1%nat)
    ∧ __getitem__ s 0 h' = (h', Ok (Vector [1; 0]%float)).
Proof.
  apply (add_near_duplicate_keeps_first 0 default_rtol default_atol
           (Vector [1; 0]%float) (Vector [1; 1e-6]%float) ∅).
  eexists. split; [reflexivity|].
  repeat constructor.
Defined.

(** *** Merging *)

Lemma any_allclose_broadcasts rtol atol y l :
  Forall (broadcasts y) l → ∃ b, any_allclose rtol atol y l = Ok b.
Proof.
  induction l as [|x l IH]; simpl; [by eexists|].
  intros [Hx Hl]%Forall_cons.
  destruct (allclose_broadcasts rtol atol y x Hx) as [[|] ->]; [by eexists|].
  by apply IH.
Qed.

(** [add] writes to the list of its own object only. *)
Lemma add_other_lists (s : t) (x : item) (h : store) r :
  r ≠ data s → list_of (add s x h).1 r = list_of h r.
Proof.
  intros Hne.
  destruct (add_cases s x h) as [[o ->]|[_ ->]]; simpl; [done|].
  by rewrite list_of_insert_ne.
Qed.

(** Iterating over another set whose list is not the one being extended
    visits the items that list held at the start. *)
Lemma add_from_unaliased (a b : t) (rest : list item) :
  data a ≠ data b →
  ∀ (i fuel : nat) (h : store),
    drop i (list_of h (data b)) = rest → (length rest < fuel)%nat →
    add_from fuel a b i h = add_each a rest h.
Proof.
  intros Hne. induction rest as [|x rest IH]; intros i fuel h Hdrop Hfuel.
  - destruct fuel as [|fuel]; [simpl in Hfuel; lia|]. simpl.
    unfold __getitem__.
    assert (list_of h (data b) !! i = None) as ->; [|done].
    apply lookup_ge_None. by apply drop_nil_inv.
  - destruct fuel as [|fuel]; [simpl in Hfuel; lia|]. simpl in *.
    unfold __getitem__.
    assert (list_of h (data b) !! i = Some x) as Hi.
    { rewrite <- (Nat.add_0_r i), <- lookup_drop. by rewrite Hdrop. }
    rewrite Hi. unfold bind.
    pose proof (add_other_lists a x h (data b) (not_eq_sym Hne)) as Hb.
    destruct (add a x h) as [h1 [[]| |]]; simpl in Hb; [|done..].
    apply IH; [|lia].
    rewrite Hb. erewrite drop_S in Hdrop by done. by injection Hdrop.
Qed.

(** What a loop of [add]s does when no comparison raises: the list grows by
    a sublist [news] of the visited items, every visited item is stored or
    has a stored item it is within tolerance of, no other list changes, and
    an item that is far from everything in the initial list forces the list
    to grow. *)
Lemma add_each_spec (a : t) (l : list item) :
  ∀ (h : store),
    Forall (λ y, Forall (broadcasts y) (list_of h (data a) ++ l)) l →
    ∃ h' news,
      add_each a l h = (h', Ok tt)
      ∧ list_of h' (data a) = list_of h (data a) ++ news
      ∧ news `sublist_of` l
      ∧ (∀ r, r ≠ data a → list_of h' r = list_of h r)
      ∧ (∀ y, y ∈ l → y ∈ news ∨
           ∃ x, x ∈ list_of h' (data a) ∧ within (rtol a) (atol a) y x)
      ∧ (∀ y, y ∈ l →
           any_allclose (rtol a) (atol a) y (list_of h (data a)) = Ok false →
           news ≠ []).
Proof.
  induction l as [|x l IH]; intros h Hshape.
  - exists h, []. simpl. rewrite app_nil_r.
    split_and!; try done; by intros y ?%not_elem_of_nil.
  - apply Forall_cons in Hshape as [Hx Hl]. simpl.
    set (cur := list_of h (data a)) in *.
    assert (Forall (broadcasts x) cur) as Hxcur.
    { apply Forall_app in Hx. tauto. }
    destruct (any_allclose_broadcasts (rtol a) (atol a) x cur Hxcur)
      as [[|] Hany].
    + (* near-duplicate: discarded *)
      unfold bind. rewrite (add_present a x h Hany).
      destruct (IH h) as (h' & news & E & Hlist & Hsub & Hoth & Hcov & Hgrow).
      { eapply Forall_impl; [exact Hl|]. intros y Hy. fold cur.
        apply Forall_app in Hy as [Hy1 Hy2].
        apply Forall_cons in Hy2 as [_ Hy2]. by apply Forall_app. }
      exists h', news. fold cur in Hlist.
      split_and!; try done.
      * by apply sublist_cons.
      * intros y [->|Hy]%elem_of_cons; [|by apply Hcov].
        right. apply any_allclose_true in Hany as (z & Hz & Hw).
        exists z. split; [|done]. rewrite Hlist. apply elem_of_app. by left.
      * intros y [->|Hy]%elem_of_cons Hfar; [congruence|by eapply Hgrow].
    + (* new: appended *)
      unfold bind. rewrite (add_absent a x h Hany). fold cur.
      set (h1 := <[data a := cur ++ [x]]> h).
      assert (list_of h1 (data a) = cur ++ [x]) as L1
        by apply list_of_insert_eq.
      destruct (IH h1) as (h' & news & E & Hlist & Hsub & Hoth & Hcov & _).
      { rewrite L1. eapply Forall_impl; [exact Hl|]. intros y Hy.
        by rewrite <- app_assoc. }
      exists h', (x :: news). rewrite L1, <- app_assoc in Hlist.
      split_and!; try done.
      * by apply sublist_skip.
      * intros r Hr. rewrite Hoth by done. by apply list_of_insert_ne.
      * intros y [->|Hy]%elem_of_cons; [left; left|].
        destruct (Hcov y Hy) as [Hn|Hw]; [left; by right|by right].
Qed.

(** C10. [a + b] on two sets with separate lists returns a set whose [data]
    is the list object of [a] itself: after the expression the list of [a]
    has grown by the items merged from [b] ([news], a sublist of [b]'s
    items), [len(a)] equals [len(a + b)], every item of [b] is stored in [a]
    or within tolerance of an item stored in [a], and an item of [b] that
    was far from every item of [a] makes [a] strictly longer. Enough fuel
    for the loop is one more than the length of [b]; the shapes of [b]'s
    items broadcast against the items of both sets, so nothing raises. *)
Theorem plus_shares_list_with_left_operand (a b : t) (h : store) (fuel : nat) :
  data a ≠ data b →
  (length (list_of h (data b)) < fuel)%nat →
  Forall (λ y, Forall (broadcasts y)
                 (list_of h (data a) ++ list_of h (data b)))
         (list_of h (data b)) →
  ∃ ret_ h' news,
    __add__ fuel a (IsFuzzySet b) h = (h', Ok ret_)
    ∧ data ret_ = data a
    ∧ list_of h' (data a) = list_of h (data a) ++ news
    ∧ news `sublist_of` list_of h (data b)
    ∧ __len__ a h' = __len__ ret_ h'
    ∧ (∀ y, y ∈ list_of h (data b) →
         y ∈ news ∨
         ∃ x, x ∈ list_of h' (data a) ∧ within (rtol a) (atol a) y x)
    ∧ (∀ y, y ∈ list_of h (data b) →
         any_allclose (rtol a) (atol a) y (list_of h (data a)) = Ok false →
         (length (list_of h (data a)) < length (list_of h' (data a)))%nat).
Proof.
  intros Hne Hfuel Hshape.
  destruct (add_each_spec a (list_of h (data b)) h Hshape)
    as (h' & news & E & Hlist & Hsub & Hoth & Hcov & Hgrow).
  exists a, h', news. split_and!; try done.
  - rewrite plus_unfold. unfold bind, __iadd__, bind. simpl.
    rewrite (add_from_unaliased a b (list_of h (data b)) Hne 0 fuel h);
      [|done|done].
    by rewrite E.
  - intros y Hy Hfar. rewrite Hlist, length_app.
    specialize (Hgrow y Hy Hfar). destruct news; [done|simpl; lia].
Qed.

Lemma plus_shares_list_with_left_operand_witness :
  ∃ ret_ h' news,
    __add__ 3 sample_a (IsFuzzySet sample_b) sample_pair_store = (h', Ok ret_)
    ∧ data ret_ = data sample_a
    ∧ list_of h' (data sample_a)
      = list_of sample_pair_store (data sample_a) ++ news
    ∧ news `sublist_of` list_of sample_pair_store (data sample_b)
    ∧ __len__ sample_a h' = __len__ ret_ h'
    ∧ (∀ y, y ∈ list_of sample_pair_store (data sample_b) →
         y ∈ news ∨
         ∃ x, x ∈ list_of h' (data sample_a)
              ∧ within (rtol sample_a) (atol sample_a) y x)
    ∧ (∀ y, y ∈ list_of sample_pair_store (data sample_b) →
         any_allclose (rtol sample_a) (atol sample_a) y
           (list_of sample_pair_store (data sample_a)) = Ok false →
         (length (list_of sample_pair_store (data sample_a))
          < length (list_of h' (data sample_a)))%nat).
Proof.
  apply (plus_shares_list_with_left_operand sample_a sample_b
           sample_pair_store 3).
  - vm_compute. discriminate.
  - vm_compute. lia.
  - assert (list_of sample_pair_store (data sample_a)
            = [Vector [1; 0]%float]) as -> by reflexivity.
    assert (list_of sample_pair_store (data sample_b)
            = [Vector [1; 0]%float; Vector [0; 1]%float]) as ->
      by reflexivity.
    repeat constructor; by eexists.
Defined.

(** The left operand of the sample sum had one item and has two after. *)
Lemma sample_plus_grows_left_operand :
  length (list_of sample_pair_store (data sample_a)) = 1%nat
  ∧ length (list_of
              (__add__ 3 sample_a (IsFuzzySet sample_b) sample_pair_store).1
              (data sample_a)) = 2%nat.
Proof. split; vm_compute; reflexivity. Qed.

(** *** Membership of stored items *)

(** With tolerances that are finite and not negative, every number that is
    not a NaN passes the test against itself: [|a - a|] is [+0], and
    [atol + rtol * |a|] is not negative and not a NaN, though it may be
    infinite. An infinity is compared by equality. *)
Lemma isclose_refl (rtol atol a : float) :
  nonneg_finite rtol → nonneg_finite atol →
  PrimFloat.is_nan a = false →
  isclose rtol atol a a = true.
Proof.
  intros [Hrf Hr] [Haf Ha] Hnan. unfold isclose.
  rewrite andb_diag.
  destruct (PrimFloat.is_finite a) eqn:Hfin; [|by apply FloatFacts.eqb_refl].
  destruct (FloatFacts.SF_nonneg_finite rtol Hrf Hr) as [Hr1 Hr2].
  destruct (FloatFacts.SF_nonneg_finite atol Haf Ha) as [Ha1 Ha2].
  rewrite FloatFacts.is_finite_spec in Hfin.
  rewrite FloatAxioms.leb_spec, abs_spec, sub_spec, add_spec, mul_spec,
    abs_spec.
  rewrite FloatFacts.SFsub_diag by done. simpl SFabs.
  apply FloatFacts.SFleb_zero_ge0, FloatFacts.SFadd_ge0; [done|done|].
  apply FloatFacts.SFmul_ge0; [done|done| |]; by destruct (Prim2SF a).
Qed.

Lemma zip_diag_pairs (xs : list float) :
  Forall (λ p, p.1 = p.2 ∧ p.1 ∈ xs) (zip xs xs).
Proof.
  induction xs as [|a xs IH]; simpl; constructor.
  - split; [done|left].
  - eapply Forall_impl; [exact IH|]. intros p [? ?]. split; [done|by right].
Qed.

(** With such tolerances every item without a NaN is within tolerance of
    itself. *)
Lemma allclose_refl rtol atol (x : item) :
  nonneg_finite rtol → nonneg_finite atol → nan_free x →
  allclose rtol atol x x = Ok true.
Proof.
  intros Hr Ha Hx. unfold allclose. destruct x as [a|xs]; simpl in *.
  - by rewrite isclose_refl.
  - rewrite Nat.eqb_refl. f_equal. apply forallb_forall.
    intros [a b] Hin. simpl.
    pose proof (zip_diag_pairs xs) as Hd. rewrite Forall_forall in Hd.
    destruct (Hd (a, b) (proj2 (list_elem_of_In _ _) Hin)) as [Hab Hmem].
    simpl in *. subst b. apply isclose_refl; [done|done|].
    rewrite Forall_forall in Hx. by apply Hx.
Qed.

(** X12. With tolerances that are finite and not negative, an item without
    a NaN that is stored in a set whose items all broadcast against it is a
    member of the set, and adding it again changes nothing. *)
Theorem stored_item_is_member (s : t) (h : store) (x : item) :
  nonneg_finite (rtol s) → nonneg_finite (atol s) → nan_free x →
  x ∈ list_of h (data s) →
  Forall (broadcasts x) (list_of h (data s)) →
  __contains__ s x h = (h, Ok true) ∧ add s x h = (h, Ok tt).
Proof.
  intros Hr Ha Hx Hin Hshape.
  assert (any_allclose (rtol s) (atol s) x (list_of h (data s)) = Ok true)
    as Hany.
  { eapply any_allclose_complete; [done|done|].
    apply allclose_true_iff. by apply allclose_refl. }
  split; [unfold __contains__; by rewrite Hany|by apply add_present].
Qed.

Lemma stored_item_is_member_witness :
  __contains__ sample_set (Vector [0; 1]%float) sample_store
    = (sample_store, Ok true)
  ∧ add sample_set (Vector [0; 1]%float) sample_store = (sample_store, Ok tt).
Proof.
  apply (stored_item_is_member sample_set sample_store
           (Vector [0; 1]%float)).
  - done.
  - done.
  - by repeat constructor.
  - assert (list_of sample_store (data sample_set)
            = [Vector [1; 0]%float; Vector [0; 1]%float]) as ->
      by reflexivity.
    right. left.
  - assert (list_of sample_store (data sample_set)
            = [Vector [1; 0]%float; Vector [0; 1]%float]) as ->
      by reflexivity.
    repeat constructor; by eexists.
Defined.

(** X13. When the new item does not broadcast against a stored item and
    is within tolerance of none of the items stored before that one, both
    the membership test and [add] raise [ValueError] and leave the store as
    it was. *)
Theorem add_raises_on_shape_mismatch (s : t) (h : store) (x y : item)
    (l1 l2 : list item) :
  list_of h (data s) = l1 ++ y :: l2 →
  Forall (λ u, allclose (rtol s) (atol s) x u = Ok false) l1 →
  broadcast x y = None →
  __contains__ s x h = (h, Raise ValueError)
  ∧ add s x h = (h, Raise ValueError).
Proof.
  intros Hl Hfar Hy.
  assert (any_allclose (rtol s) (atol s) x (list_of h (data s))
          = Raise ValueError) as Hany.
  { rewrite Hl. clear Hl. induction Hfar as [|u l1 Hu _ IH]; simpl.
    - unfold allclose. by rewrite Hy.
    - by rewrite Hu. }
  split; [unfold __contains__; by rewrite Hany|by apply add_raises].
Qed.

Lemma add_raises_on_shape_mismatch_witness :
  __contains__ sample_set (Vector [1; 2; 3]%float) sample_store
    = (sample_store, Raise ValueError)
  ∧ add sample_set (Vector [1; 2; 3]%float) sample_store
    = (sample_store, Raise ValueError).
Proof.
  apply (add_raises_on_shape_mismatch sample_set sample_store
           (Vector [1; 2; 3]%float) (Vector [1; 0]%float) []
           [Vector [0; 1]%float]).
  - reflexivity.
  - constructor.
  - reflexivity.
Defined.

(** *** Lists only grow *)

Lemma grows_ret {A} (a : A) : grows (ret a).
Proof. by intros h r. Qed.

Lemma grows_bind {A B} (m : M A) (k : A → M B) :
  grows m → (∀ a, grows (k a)) → grows (bind m k).
Proof.
  intros Hm Hk h r. unfold bind.
  specialize (Hm h r).
  destruct (m h) as [h' [a| |]]; simpl in *; [|done..].
  etrans; [exact Hm|apply Hk].
Qed.

Lemma grows_add (s : t) (x : item) : grows (add s x).
Proof.
  intros h r.
  destruct (add_cases s x h) as [[o ->]|[_ ->]]; simpl; [done|].
  destruct (decide (r = data s)) as [->|Hne].
  - rewrite list_of_insert_eq. by apply prefix_app_r.
  - by rewrite list_of_insert_ne.
Qed.

Lemma grows_add_each (s : t) (l : list item) : grows (add_each s l).
Proof.
  induction l as [|x l IH]; simpl; [apply grows_ret|].
  apply grows_bind; [apply grows_add|done].
Qed.

Lemma grows_add_from fuel (s other : t) (i : nat) :
  grows (add_from fuel s other i).
Proof.
  revert i. induction fuel as [|fuel IH]; intros i h r; [done|].
  simpl. unfold __getitem__.
  destruct (list_of h (data other) !! i) as [x|]; [|done].
  apply (grows_bind (add s x) (λ _, add_from fuel s other (S i)));
    [apply grows_add|by intros _].
Qed.

Lemma grows_for_each_add fuel (s : t) (other : iterable) :
  grows (for_each_add fuel s other).
Proof.
  destruct other; [apply grows_add_each|apply grows_add_from].
Qed.

Lemma grows_iadd fuel (s : t) (other : iterable) :
  grows (__iadd__ fuel s other).
Proof.
  apply grows_bind; [apply grows_for_each_add|intros _; apply grows_ret].
Qed.

Lemma grows_plus fuel (s : t) (other : operand) :
  grows (__add__ fuel s other).
Proof.
  intros h r. destruct other as [o|].
  - rewrite plus_unfold.
    apply (grows_bind (__iadd__ fuel s (PySet o)) (λ r, ret r));
      [apply grows_iadd|intros a; apply grows_ret].
  - change (__add__ fuel s NotFuzzySet h) with (copy s h).
    by rewrite copy_same.
Qed.

Lemma list_of_fresh (h : store) : list_of h (fresh (dom h)) = [].
Proof.
  unfold list_of. rewrite lookup_total_alt.
  assert (h !! fresh (dom h) = None) as ->; [|done].
  apply not_elem_of_dom, is_fresh.
Qed.

Lemma grows_init fuel it rtol atol : grows (__init__ fuel it rtol atol).
Proof.
  intros h r. rewrite init_unfold.
  set (s := {| data := fresh (dom h); rtol := rtol; atol := atol |}).
  etrans; [|apply grows_bind].
  - destruct (decide (r = fresh (dom h))) as [->|Hne].
    + rewrite list_of_fresh. apply prefix_nil.
    + by rewrite list_of_insert_ne.
  - by intros h' r'; destruct it as [[l|o]|].
  - intros b. apply grows_bind; [|intros _; apply grows_ret].
    destruct it as [i|]; [|apply grows_ret].
    destruct b; [apply grows_for_each_add|apply grows_ret].
Qed.

(** X14. No call of the public interface removes, replaces or reorders a
    stored item: after any call, with any outcome, every list in the store
    begins with the items it held before. *)
Theorem calls_only_append (fuel : nat) (c : call) (w : world) (r : ref) :
  list_of (heap w) r `prefix_of` list_of (heap (run_call fuel c w)) r.
Proof.
  assert (grows (run_method fuel c)) as Hg.
  { destruct c as [it rtol atol|s x|s other|s other]; simpl.
    - apply grows_init.
    - apply grows_bind; [apply grows_add|intros _; apply grows_ret].
    - apply grows_iadd.
    - apply grows_plus. }
  specialize (Hg (heap w) r). unfold run_call.
  by destruct (run_method fuel c (heap w)) as [h' [s| |]].
Qed.

(** *** Construction and merging *)

(** X15. Constructing a set from an iterable is constructing an empty set
    and merging the iterable into it: the two leave the same store and
    return the same object (for a loop that may run at least once). *)
Theorem init_is_empty_then_merge (fuel : nat) (it : iterable)
    (rtol atol : float) (h : store) :
  (0 < fuel)%nat →
  __init__ fuel (Some it) rtol atol h
  = (do s <- __init__ fuel None rtol atol; __iadd__ fuel s it) h.
Proof.
  intros Hfuel. rewrite init_unfold. unfold bind at 3. rewrite init_empty.
  set (s := {| data := fresh (dom h); rtol := rtol; atol := atol |}).
  set (h1 := <[fresh (dom h) := []]> h).
  unfold __iadd__. destruct it as [l|o]; simpl.
  - unfold bind at 1. simpl. destruct l as [|x l]; [done|done].
  - unfold bind at 1. simpl.
    destruct (length _ =? 0)%nat eqn:Hlen; simpl; [|done].
    apply Nat.eqb_eq, length_zero_iff_nil in Hlen.
    destruct fuel as [|fuel]; [lia|]. simpl. unfold __getitem__, bind.
    by rewrite Hlen.
Qed.

Lemma init_is_empty_then_merge_witness :
  __init__ 1 (Some (PyList [Scalar 1; Scalar 2])) default_rtol default_atol ∅
  = (do s <- __init__ 1 None default_rtol default_atol;
     __iadd__ 1 s (PyList [Scalar 1; Scalar 2])) ∅.
Proof.
  apply (init_is_empty_then_merge 1 (PyList [Scalar 1; Scalar 2])
           default_rtol default_atol ∅).
  lia.
Defined.

(** Iterating over the list that is being extended: while every visited
    item is found in the list, nothing is appended and the loop ends at the
    end of the list. *)
Lemma add_from_own_list (s other : t) (h : store) :
  data other = data s →
  nonneg_finite (rtol s) → nonneg_finite (atol s) →
  Forall nan_free (list_of h (data s)) →
  Forall (λ x, Forall (broadcasts x) (list_of h (data s)))
         (list_of h (data s)) →
  ∀ fuel i, (length (list_of h (data s)) - i < fuel)%nat →
    add_from fuel s other i h = (h, Ok tt).
Proof.
  intros Hdata Hr Ha Hnan Hshape.
  induction fuel as [|fuel IH]; intros i Hfuel; [lia|].
  simpl. unfold __getitem__. rewrite Hdata.
  destruct (list_of h (data s) !! i) as [x|] eqn:Hi; [|done].
  assert (x ∈ list_of h (data s)) as Hin
    by (by eapply list_elem_of_lookup_2).
  assert (add s x h = (h, Ok tt)) as Hadd.
  { apply add_present. eapply any_allclose_complete; [|done|].
    - rewrite Forall_forall in Hshape. by apply Hshape.
    - apply allclose_true_iff. apply allclose_refl; [done|done|].
      rewrite Forall_forall in Hnan. by apply Hnan. }
  unfold bind. rewrite Hadd. apply IH.
  apply lookup_lt_Some in Hi. lia.
Qed.

(** X16. With tolerances that are finite and not negative and stored
    items without a NaN, merging a set into itself, or into a set that
    shares its list, ends and changes nothing: [s += s] and [s + s] return
    [s] and leave the store as it was. The loop needs one round more than
    the list is long. *)
Theorem merge_with_itself_changes_nothing (fuel : nat) (s other : t)
    (h : store) :
  data other = data s →
  nonneg_finite (rtol s) → nonneg_finite (atol s) →
  Forall nan_free (list_of h (data s)) →
  Forall (λ x, Forall (broadcasts x) (list_of h (data s)))
         (list_of h (data s)) →
  (length (list_of h (data s)) < fuel)%nat →
  __iadd__ fuel s (PySet other) h = (h, Ok s)
  ∧ __add__ fuel s (IsFuzzySet other) h = (h, Ok s).
Proof.
  intros Hdata Hr Ha Hnan Hshape Hfuel.
  assert (__iadd__ fuel s (PySet other) h = (h, Ok s)) as Hi.
  { unfold __iadd__, bind. simpl.
    rewrite (add_from_own_list s other h Hdata Hr Ha Hnan Hshape fuel 0);
      [done|].
    lia. }
  split; [done|]. rewrite plus_unfold. unfold bind. by rewrite Hi.
Qed.

Lemma merge_with_itself_changes_nothing_witness :
  __iadd__ 3 sample_set (PySet sample_set) sample_store
    = (sample_store, Ok sample_set)
  ∧ __add__ 3 sample_set (IsFuzzySet sample_set) sample_store
    = (sample_store, Ok sample_set).
Proof.
  apply (merge_with_itself_changes_nothing 3 sample_set sample_set
           sample_store).
  - reflexivity.
  - done.
  - done.
  - assert (list_of sample_store (data sample_set)
            = [Vector [1; 0]%float; Vector [0; 1]%float]) as ->
      by reflexivity.
    by repeat constructor.
  - assert (list_of sample_store (data sample_set)
            = [Vector [1; 0]%float; Vector [0; 1]%float]) as ->
      by reflexivity.
    repeat constructor; by eexists.
  - vm_compute. lia.
Defined.

End FuzzySetFacts.

(* ===================================================================== *)
(** ** Facts about [results.py] *)
(* ===================================================================== *)

Module ResultsFacts.
Import Results.

(** *** Minimum and maximum of an array *)

Abbreviation finite v := (PrimFloat.is_finite v = true).
Abbreviation is_nan := PrimFloat.is_nan.
Abbreviation is_finite := PrimFloat.is_finite.

Lemma np_minimum_cases a b :
  np_minimum a b = a ∨ np_minimum a b = b.
Proof. unfold np_minimum. destruct (_ || _); auto. Qed.

Lemma np_maximum_cases a b :
  np_maximum a b = a ∨ np_maximum a b = b.
Proof. unfold np_maximum. destruct (_ || _); auto. Qed.

Lemma foldl_minimum_elem (l : list float) (v : float) :
  foldl np_minimum v l ∈ v :: l.
Proof.
  revert v. induction l as [|u l IH]; intros v; simpl; [left|].
  specialize (IH (np_minimum v u)).
  apply elem_of_cons in IH as [->|IH]; [|by right; right].
  destruct (np_minimum_cases v u) as [->| ->]; [left|right; left].
Qed.

Lemma foldl_maximum_elem (l : list float) (v : float) :
  foldl np_maximum v l ∈ v :: l.
Proof.
  revert v. induction l as [|u l IH]; intros v; simpl; [left|].
  specialize (IH (np_maximum v u)).
  apply elem_of_cons in IH as [->|IH]; [|by right; right].
  destruct (np_maximum_cases v u) as [->| ->]; [left|right; left].
Qed.

Lemma np_minimum_le a b :
  is_nan a = false → is_nan b = false →
  (np_minimum a b <=? a)%float = true ∧ (np_minimum a b <=? b)%float = true.
Proof.
  intros Ha Hb. unfold np_minimum. rewrite Ha, orb_false_r.
  destruct (a <=? b)%float eqn:Hab.
  - split; [by apply FloatFacts.leb_refl|done].
  - split; [by apply FloatFacts.leb_total|by apply FloatFacts.leb_refl].
Qed.

Lemma np_maximum_ge a b :
  is_nan a = false → is_nan b = false →
  (a <=? np_maximum a b)%float = true ∧ (b <=? np_maximum a b)%float = true.
Proof.
  intros Ha Hb. unfold np_maximum. rewrite Ha, orb_false_r.
  destruct (b <=? a)%float eqn:Hab.
  - split; [by apply FloatFacts.leb_refl|done].
  - split; [by apply FloatFacts.leb_total|by apply FloatFacts.leb_refl].
Qed.

Lemma foldl_minimum_le (l : list float) (v : float) :
  Forall (λ w, is_nan w = false) (v :: l) →
  ∀ w, w ∈ v :: l → (foldl np_minimum v l <=? w)%float = true.
Proof.
  revert v. induction l as [|u l IH]; intros v Hnan w Hw; simpl.
  - apply list_elem_of_singleton in Hw as ->.
    apply FloatFacts.leb_refl. by apply Forall_cons in Hnan as [? _].
  - apply Forall_cons in Hnan as [Hv [Hu Hl]%Forall_cons].
    destruct (np_minimum_le v u Hv Hu) as [Hmv Hmu].
    assert (is_nan (np_minimum v u) = false) as Hm.
    { by destruct (np_minimum_cases v u) as [->| ->]. }
    assert (Forall (λ w, is_nan w = false) (np_minimum v u :: l)) as Hnan'
      by (by constructor).
    assert (is_nan (foldl np_minimum (np_minimum v u) l) = false) as Hf.
    { pose proof (foldl_minimum_elem l (np_minimum v u)) as Hin.
      rewrite Forall_forall in Hnan'. by apply Hnan'. }
    assert ((foldl np_minimum (np_minimum v u) l <=? np_minimum v u)%float
            = true) as Hle by (apply IH; [done|left]).
    apply elem_of_cons in Hw as [->|[->|Hw]%elem_of_cons].
    + exact (FloatFacts.leb_trans _ _ _ Hf Hm Hv Hle Hmv).
    + exact (FloatFacts.leb_trans _ _ _ Hf Hm Hu Hle Hmu).
    + apply IH; [done|by right].
Qed.

Lemma foldl_maximum_ge (l : list float) (v : float) :
  Forall (λ w, is_nan w = false) (v :: l) →
  ∀ w, w ∈ v :: l → (w <=? foldl np_maximum v l)%float = true.
Proof.
  revert v. induction l as [|u l IH]; intros v Hnan w Hw; simpl.
  - apply list_elem_of_singleton in Hw as ->.
    apply FloatFacts.leb_refl. by apply Forall_cons in Hnan as [? _].
  - apply Forall_cons in Hnan as [Hv [Hu Hl]%Forall_cons].
    destruct (np_maximum_ge v u Hv Hu) as [Hmv Hmu].
    assert (is_nan (np_maximum v u) = false) as Hm.
    { by destruct (np_maximum_cases v u) as [->| ->]. }
    assert (Forall (λ w, is_nan w = false) (np_maximum v u :: l)) as Hnan'
      by (by constructor).
    assert (is_nan (foldl np_maximum (np_maximum v u) l) = false) as Hf.
    { pose proof (foldl_maximum_elem l (np_maximum v u)) as Hin.
      rewrite Forall_forall in Hnan'. by apply Hnan'. }
    assert ((np_maximum v u <=? foldl np_maximum (np_maximum v u) l)%float
            = true) as Hle by (apply IH; [done|left]).
    apply elem_of_cons in Hw as [->|[->|Hw]%elem_of_cons].
    + exact (FloatFacts.leb_trans _ _ _ Hv Hm Hf Hmv Hle).
    + exact (FloatFacts.leb_trans _ _ _ Hu Hm Hf Hmu Hle).
    + apply IH; [done|by right].
Qed.

Lemma array_min_elem (a : list float) :
  a ≠ [] → ∃ m, array_min a = Ok m ∧ m ∈ a.
Proof.
  destruct a as [|v l]; [done|]. intros _.
  exists (foldl np_minimum v l). split; [done|apply foldl_minimum_elem].
Qed.

Lemma array_max_elem (a : list float) :
  a ≠ [] → ∃ m, array_max a = Ok m ∧ m ∈ a.
Proof.
  destruct a as [|v l]; [done|]. intros _.
  exists (foldl np_maximum v l). split; [done|apply foldl_maximum_elem].
Qed.

Lemma array_min_le (a : list float) (m : float) :
  Forall (λ w, is_nan w = false) a → array_min a = Ok m →
  ∀ w, w ∈ a → (m <=? w)%float = true.
Proof.
  destruct a as [|v l]; [done|]. intros Hnan [= <-].
  by apply foldl_minimum_le.
Qed.

Lemma array_max_ge (a : list float) (m : float) :
  Forall (λ w, is_nan w = false) a → array_max a = Ok m →
  ∀ w, w ∈ a → (w <=? m)%float = true.
Proof.
  destruct a as [|v l]; [done|]. intros Hnan [= <-].
  by apply foldl_maximum_ge.
Qed.

(** *** [to_radii] *)

(** [np.allclose(v, 0)] with the default tolerances is [|v| <= 1e-08]:
    [v - 0] is [v], and [1e-08 + 1e-05 * |0|] is [1e-08]. *)
Lemma allclose_zero_spec (v : float) :
  allclose_zero v = (PrimFloat.abs v <=? 1e-8)%float.
Proof.
  unfold allclose_zero, FuzzySet.isclose.
  change (is_finite 0) with true. rewrite andb_true_r.
  change (1e-8 + 1e-5 * PrimFloat.abs 0)%float with 1e-8%float.
  rewrite FloatFacts.sub_zero_r.
  destruct (is_finite v) eqn:Hfin; [done|].
  rewrite FloatFacts.is_finite_spec in Hfin.
  rewrite FloatAxioms.eqb_spec, FloatAxioms.leb_spec, abs_spec.
  change (Prim2SF 0) with (S754_zero false).
  change (Prim2SF 1e-8) with (S754_finite false 6044629098073146 (-79)).
  destruct (Prim2SF v) as [s|s| |s m e]; try done. by destruct s.
Qed.

(** The two results of [to_radii] for a radius pair and non-empty data. *)
Lemma to_radii_cases (data : list float) (r0 r1 : float) :
  data ≠ [] →
  ∃ m maximum,
    array_min data = Ok m
    ∧ array_max (map (λ v, v - m)%float data) = Ok maximum
    ∧ m ∈ data
    ∧ (∃ w, w ∈ data ∧ maximum = (w - m)%float)
    ∧ to_radii (MinMax r0 r1) data
      = Ok (if (PrimFloat.abs maximum <=? 1e-8)%float then Uniform r1
            else PerSite
                   (map (λ v, r0 + (r1 - r0) * (v - m) / maximum)%float
                      data)).
Proof.
  intros Hne.
  destruct (array_min_elem data Hne) as (m & Emin & Hmin).
  assert (map (λ v, (v - m)%float) data ≠ []) as Hne' by (by destruct data).
  destruct (array_max_elem _ Hne') as (maximum & Emax & Hmax).
  exists m, maximum. split_and!; [done|done|done| |].
  - apply list_elem_of_fmap in Hmax as (w & -> & Hw). by exists w.
  - unfold to_radii. rewrite Emin. simpl. rewrite Emax. simpl.
    rewrite allclose_zero_spec.
    destruct (PrimFloat.abs maximum <=? 1e-8)%float; simpl; [done|].
    by rewrite map_map.
Qed.

Lemma finite_not_nan_all (data : list float) :
  Forall (λ v, finite v) data → Forall (λ v, is_nan v = false) data.
Proof.
  intros H. eapply Forall_impl; [exact H|]. intros v. apply FloatFacts.is_finite_not_nan.
Qed.

(** C6 (as the code has it). For a non-empty array of finite numbers and a
    radius pair, with [m] the minimum of the data and [maximum] the maximum
    of the shifted data [v - m]: when [|maximum| <= 1e-08] fails, site [i]
    gets [r_min + (r_max - r_min) * (v - m) / maximum], each operation being
    the binary64 one, in the order written; when it holds, in particular
    for a constant array, the result is [r_max] for every site and nothing
    is divided. *)
Theorem to_radii_linear_map (data : list float) (r_min r_max : float) :
  data ≠ [] → Forall (λ v, finite v) data →
  ∃ m maximum res,
    to_radii (MinMax r_min r_max) data = Ok res
    ∧ (m ∈ data ∧ ∀ w, w ∈ data → (m <=? w)%float = true)
    ∧ ((∃ w, w ∈ data ∧ maximum = (w - m)%float)
       ∧ ∀ w, w ∈ data → (w - m <=? maximum)%float = true)
    ∧ ((PrimFloat.abs maximum <=? 1e-8)%float = false →
         res = PerSite
                 (map (λ v, r_min + (r_max - r_min) * (v - m) / maximum)%float
                    data))
    ∧ ((PrimFloat.abs maximum <=? 1e-8)%float = true → res = Uniform r_max)
    ∧ (∀ c, Forall (λ w, w = c) data → res = Uniform r_max).
Proof.
  intros Hne Hfin.
  destruct (to_radii_cases data r_min r_max Hne)
    as (m & maximum & Emin & Emax & Hmin & Hwit & Eres).
  assert (finite m) as Hm.
  { rewrite Forall_forall in Hfin. by apply Hfin. }
  assert (Forall (λ v, is_nan v = false) (map (λ v, (v - m)%float) data))
    as Hshift.
  { apply Forall_map. eapply Forall_impl; [exact Hfin|].
    intros v Hv. simpl. by apply FloatFacts.sub_finite_not_nan. }
  exists m, maximum. eexists. split; [exact Eres|]. split_and!.
  - done.
  - apply array_min_le; [by apply finite_not_nan_all|done].
  - done.
  - intros w Hw. eapply array_max_ge; [exact Hshift|exact Emax|].
    apply list_elem_of_fmap. by exists w.
  - by intros ->.
  - by intros ->.
  - intros c Hall. destruct Hwit as (w & Hw & ->).
    rewrite Forall_forall in Hall.
    rewrite (Hall w Hw), (Hall m Hmin).
    rewrite (Hall m Hmin) in Hm. by rewrite FloatFacts.sub_diag.
Qed.

(** C6, counterexample. With the radius pair [(0.3, 0.9)] and the data
    [[0, 1]] the second site gets [0.3 + (0.9 - 0.3) * 1 / 1], which in
    binary64 arithmetic is [0.9000000000000001], above [r_max]: the radii
    are not always in [[r_min, r_max]]. *)
Lemma radius_can_exceed_r_max :
  ¬ (∀ (data : list float) (r_min r_max : float) (res : radii) (i : nat)
       (r : float),
       Forall (λ v, finite v) data →
       finite r_min → finite r_max → (r_min <=? r_max)%float = true →
       to_radii (MinMax r_min r_max) data = Ok res →
       radius_at res i = Some r →
       (r_min <=? r)%float = true ∧ (r <=? r_max)%float = true).
Proof.
  intros Hclaim.
  destruct (Hclaim [0; 1]%float 0.3%float 0.9%float
              (PerSite [0.3; 0.9000000000000001]%float) 1%nat
              0.9000000000000001%float) as [_ Hle]; try done.
  by repeat constructor.
Qed.

Lemma to_radii_linear_map_witness :
  ∃ m maximum res,
    to_radii (MinMax 0.03 0.05) [1; 2; 3]%float = Ok res
    ∧ (m ∈ [1; 2; 3]%float
       ∧ ∀ w, w ∈ [1; 2; 3]%float → (m <=? w)%float = true)
    ∧ ((∃ w, w ∈ [1; 2; 3]%float ∧ maximum = (w - m)%float)
       ∧ ∀ w, w ∈ [1; 2; 3]%float → (w - m <=? maximum)%float = true)
    ∧ ((PrimFloat.abs maximum <=? 1e-8)%float = false →
         res = PerSite
                 (map (λ v, 0.03 + (0.05 - 0.03) * (v - m) / maximum)%float
                    [1; 2; 3]%float))
    ∧ ((PrimFloat.abs maximum <=? 1e-8)%float = true → res = Uniform 0.05)
    ∧ (∀ c, Forall (λ w, w = c) [1; 2; 3]%float → res = Uniform 0.05).
Proof.
  apply (to_radii_linear_map [1; 2; 3]%float 0.03 0.05).
  - discriminate.
  - by repeat constructor.
Defined.

(** *** Sparse matrices *)

Lemma lookup_tabulate {V} (keys : list (nat * nat))
    (f : nat * nat → option V) (k : nat * nat) :
  tabulate keys f !! k = if decide (k ∈ keys) then f k else None.
Proof.
  induction keys as [|k0 keys IH].
  - rewrite decide_False by apply not_elem_of_nil. apply lookup_empty.
  - unfold tabulate. cbn [foldr]. fold (tabulate keys f).
    destruct (decide (k = k0)) as [->|Hne].
    + rewrite decide_True by left.
      destruct (f k0) as [v|] eqn:Hf; [by rewrite lookup_insert_eq|].
      rewrite IH. by destruct (decide (k0 ∈ keys)).
    + assert (k ∈ k0 :: keys ↔ k ∈ keys) as Hiff.
      { rewrite elem_of_cons. split; [by intros [?|?]|by right]. }
      destruct (f k0) as [v|].
      * rewrite lookup_insert_ne by done. rewrite IH.
        repeat case_decide; tauto.
      * rewrite IH. repeat case_decide; tauto.
Qed.

Lemma elem_of_all_positions (n m : nat) (k : nat * nat) :
  k ∈ all_positions n m ↔ (k.1 < n)%nat ∧ (k.2 < m)%nat.
Proof.
  unfold all_positions. destruct k as [i j]. simpl.
  rewrite list_elem_of_In, in_prod_iff, <- !list_elem_of_In, !elem_of_seq.
  lia.
Qed.

Lemma mask_positions_bound (m : list bool) (i : nat) :
  Forall (λ p, (p < i + length m)%nat) (mask_positions i m).
Proof.
  revert i. induction m as [|b m IH]; intros i; simpl; [constructor|].
  specialize (IH (S i)).
  assert (Forall (λ p, (p < i + S (length m))%nat) (mask_positions (S i) m)).
  { eapply Forall_impl; [exact IH|]. simpl. intros. lia. }
  destruct b; [constructor; [lia|done]|done].
Qed.

(** An index that resolves selects positions inside the axis. *)
Lemma resolve_bound (n : nat) (idx : index) (ps : list nat) :
  resolve n idx = Ok ps → Forall (λ p, (p < n)%nat) ps.
Proof.
  destruct idx as [m|l]; simpl.
  - destruct (length m =? n)%nat eqn:Hlen; [|done].
    apply Nat.eqb_eq in Hlen as <-. intros [= <-].
    apply (mask_positions_bound m 0).
  - destruct (forallb _ l) eqn:Hall; [|done]. intros [= <-].
    apply Forall_forall. intros p Hp.
    rewrite forallb_forall in Hall.
    apply Nat.ltb_lt, Hall. by apply list_elem_of_In.
Qed.

Lemma lookup_data_add (c : Z) (m : csr) (k : nat * nat) :
  stored (data_add c m) !! k = (λ v, v + c)%Z <$> stored m !! k.
Proof. unfold data_add. simpl. apply lookup_fmap. Qed.

Section Slicing.
Variable elide : bool.

Lemma lookup_getitem_rows (m r : csr) (idx : index) (ps : list nat) :
  resolve (nrows m) idx = Ok ps → getitem_rows elide m idx = Ok r →
  nrows r = length ps ∧ ncols r = ncols m
  ∧ ∀ i' j, stored r !! (i', j) =
      if decide (j < ncols m)%nat then
        match ps !! i' with
        | Some i => stored m !! (i, j) ≫= keep elide
        | None => None
        end
      else None.
Proof.
  intros Hps. unfold getitem_rows. rewrite Hps. simpl. intros [= <-].
  simpl. split_and!; try done. intros i' j.
  rewrite lookup_tabulate. simpl.
  destruct (ps !! i') as [i|] eqn:Hi.
  - apply lookup_lt_Some in Hi as Hlt.
    repeat case_decide; try done.
    + rewrite elem_of_all_positions in *. simpl in *. tauto.
    + rewrite elem_of_all_positions in *. simpl in *. tauto.
  - repeat case_decide; done.
Qed.

Lemma lookup_getitem_cols (m r : csr) (idx : index) (ps : list nat) :
  resolve (ncols m) idx = Ok ps → getitem_cols elide m idx = Ok r →
  nrows r = nrows m ∧ ncols r = length ps
  ∧ ∀ i j', stored r !! (i, j') =
      if decide (i < nrows m)%nat then
        match ps !! j' with
        | Some j => stored m !! (i, j) ≫= keep elide
        | None => None
        end
      else None.
Proof.
  intros Hps. unfold getitem_cols. rewrite Hps. simpl. intros [= <-].
  simpl. split_and!; try done. intros i j'.
  rewrite lookup_tabulate. simpl.
  destruct (ps !! j') as [j|] eqn:Hj.
  - apply lookup_lt_Some in Hj as Hlt.
    repeat case_decide; try done.
    + rewrite elem_of_all_positions in *. simpl in *. tauto.
    + rewrite elem_of_all_positions in *. simpl in *. tauto.
  - repeat case_decide; done.
Qed.
End Slicing.

Section Filtering.
Variable elide : bool.

Lemma keep_incremented (v : Z) :
  (elide = true → v ≠ (-1)%Z) → keep elide (v + 1) = Some (v + 1)%Z.
Proof.
  intros Hv. unfold keep. destruct elide; simpl; [|done].
  destruct (v + 1 =? 0)%Z eqn:Hz; [|done].
  apply Z.eqb_eq in Hz. specialize (Hv eq_refl). lia.
Qed.

(** The filtered matrix holds, between two selected sites, exactly what
    the original held between them. *)
Lemma filter_csr_matrix_lookup (m : csr) (idx : index) (ps : list nat)
    (n : nat) :
  nrows m = n → ncols m = n → resolve n idx = Ok ps →
  (elide = true → ∀ k v, stored m !! k = Some v → v ≠ (-1)%Z) →
  ∃ m',
    _filter_csr_matrix elide m idx = Ok m'
    ∧ nrows m' = length ps ∧ ncols m' = length ps
    ∧ ∀ i' j', stored m' !! (i', j') =
        match ps !! i', ps !! j' with
        | Some i, Some j => stored m !! (i, j)
        | _, _ => None
        end.
Proof.
  intros Hr Hc Hps Hval.
  pose proof (resolve_bound n idx ps Hps) as Hbound.
  unfold _filter_csr_matrix.
  destruct (getitem_rows elide (data_add 1 m) idx) as [r|] eqn:Er.
  2:{ unfold getitem_rows in Er. simpl in Er. by rewrite Hr, Hps in Er. }
  destruct (lookup_getitem_rows elide (data_add 1 m) r idx ps)
    as (Hnr & Hncr & Lr); [simpl; by rewrite Hr|done|].
  simpl in Hncr, Lr. simpl.
  destruct (getitem_cols elide r idx) as [c|] eqn:Ec.
  2:{ unfold getitem_cols in Ec. by rewrite Hncr, Hc, Hps in Ec. }
  destruct (lookup_getitem_cols elide r c idx ps)
    as (Hnc & Hncc & Lc); [by rewrite Hncr, Hc|done|].
  simpl. eexists. split; [done|]. simpl. split_and!; [congruence|done|].
  intros i' j'. rewrite lookup_fmap, Lc.
  destruct (ps !! j') as [j|] eqn:Hj.
  2:{ destruct (decide _); destruct (ps !! i'); done. }
  assert (j < n)%nat as Hjn.
  { rewrite Forall_forall in Hbound. apply Hbound.
    by eapply list_elem_of_lookup_2. }
  rewrite Lr, Hc. rewrite (decide_True _ _ Hjn).
  destruct (ps !! i') as [i|] eqn:Hi.
  2:{ by destruct (decide _). }
  apply lookup_lt_Some in Hi as Hlt.
  rewrite decide_True by lia.
  rewrite lookup_fmap.
  destruct (stored m !! (i, j)) as [v|] eqn:Hv; simpl; [|done].
  rewrite keep_incremented by eauto. simpl.
  rewrite keep_incremented by eauto. simpl.
  f_equal. lia.
Qed.
End Filtering.

(** *** Indexing a map *)

Lemma length_omap_lookup {A} (v : list A) (ps : list nat) :
  Forall (λ p, (p < length v)%nat) ps →
  length (omap (λ i, v !! i) ps) = length ps.
Proof.
  induction 1 as [|p ps Hp _ IH]; simpl; [done|].
  destruct (lookup_lt_is_Some_2 v p Hp) as [a ->]. simpl. by f_equal.
Qed.

Lemma getitem_array_ok {A} (v : list A) (idx : index) (ps : list nat) :
  resolve (length v) idx = Ok ps →
  getitem_array v idx = Ok (omap (λ i, v !! i) ps)
  ∧ length (omap (λ i, v !! i) ps) = length ps.
Proof.
  intros Hps. unfold getitem_array. rewrite Hps. split; [done|].
  apply length_omap_lookup. by eapply resolve_bound.
Qed.

Lemma getitem_positions_ok (p : Positions) (idx : index) (ps : list nat)
    (n : nat) :
  length (x p) = n → length (y p) = n → length (z p) = n →
  resolve n idx = Ok ps →
  ∃ p', getitem_positions p idx = Ok p'.
Proof.
  intros Hx Hy Hz Hps. unfold getitem_positions.
  destruct (getitem_array_ok (x p) idx ps) as [-> _]; [by rewrite Hx|].
  destruct (getitem_array_ok (y p) idx ps) as [-> _]; [by rewrite Hy|].
  destruct (getitem_array_ok (z p) idx ps) as [-> _]; [by rewrite Hz|].
  simpl. by eexists.
Qed.

Lemma filter_boundaries_ok elide (bs : list Boundary) (idx : index)
    (ps : list nat) (n : nat) :
  resolve n idx = Ok ps →
  Forall (λ b, nrows (boundary_hoppings b) = n
               ∧ ncols (boundary_hoppings b) = n) bs →
  (elide = true → Forall (λ b, no_minus_one (boundary_hoppings b)) bs) →
  ∃ bs', filter_boundaries elide bs idx = Ok bs'.
Proof.
  intros Hps Hshape Hval.
  induction bs as [|b bs IH]; simpl; [by eexists|].
  apply Forall_cons in Hshape as [[Hr Hc] Hshape].
  destruct (filter_csr_matrix_lookup elide (boundary_hoppings b) idx ps n)
    as (m' & Em & _); [done|done|done| |].
  { intros He. specialize (Hval He). by apply Forall_cons in Hval as [? _]. }
  destruct IH as [bs' Ebs]; [done| |].
  { intros He. specialize (Hval He). by apply Forall_cons in Hval as [_ ?]. }
  unfold _filter_boundary. rewrite Em. simpl. rewrite Ebs. simpl.
  by eexists.
Qed.

(** C5. Indexing a well-formed [StructureMap] by a mask or by integer
    positions that resolve to the sites [ps] returns a map over
    [length ps] sites whose hopping matrix holds, between the retained sites
    numbered [i'] and [j'], exactly the stored entry between the original
    sites [ps[i']] and [ps[j']] (a stored zero stays a stored zero, an absent
    entry stays absent) and holds nothing else, so entries that touch an
    excluded site are gone. This holds whether or not slicing drops stored
    zeros; when it does, the stored identifiers must differ from [-1]. *)
Theorem getitem_filters_hoppings (elide : bool) (self : StructureMap)
    (idx : index) (ps : list nat) :
  well_formed self →
  resolve (num_sites (base self)) idx = Ok ps →
  (elide = true →
     no_minus_one (hoppings self)
     ∧ Forall (λ b, no_minus_one (boundary_hoppings b)) (boundaries self)) →
  ∃ self',
    StructureMap_getitem elide self idx = Ok self'
    ∧ num_sites (base self') = length ps
    ∧ nrows (hoppings self') = length ps
    ∧ ncols (hoppings self') = length ps
    ∧ ∀ i' j', stored (hoppings self') !! (i', j') =
        match ps !! i', ps !! j' with
        | Some i, Some j => stored (hoppings self) !! (i, j)
        | _, _ => None
        end.
Proof.
  intros (Hs & Hx & Hy & Hz & Hr & Hc & Hb) Hps Hval.
  unfold StructureMap_getitem.
  destruct (getitem_array_ok (data (base self)) idx ps Hps) as [-> Hlen].
  destruct (getitem_array_ok (sublattices (base self)) idx ps) as [-> _];
    [by rewrite Hs|].
  destruct (filter_csr_matrix_lookup elide (hoppings self) idx ps
              (num_sites (base self)))
    as (m' & -> & Hnr & Hnc & Hlook); [done|done|done| |].
  { intros He. by apply Hval. }
  destruct (filter_boundaries_ok elide (boundaries self) idx ps
              (num_sites (base self))) as [bs' ->]; [done|done| |].
  { intros He. by apply Hval. }
  destruct (getitem_positions_ok (positions (base self)) idx ps
              (num_sites (base self))) as [p' ->]; [done..|].
  simpl. eexists. split; [done|]. simpl. by split_and!.
Qed.

(** *** The sample chain *)

Lemma chain_well_formed : well_formed chain.
Proof. repeat split; constructor. Qed.

Lemma chain_no_minus_one : no_minus_one (hoppings chain).
Proof.
  intros k v Hk ->. simpl in Hk.
  apply lookup_insert_Some in Hk as [[_ [=]]|[_ Hk]].
  apply lookup_singleton_Some in Hk as [_ [=]].
Qed.

Lemma getitem_filters_hoppings_witness :
  ∃ self',
    StructureMap_getitem true chain (Mask [true; true; false]) = Ok self'
    ∧ num_sites (base self') = 2%nat
    ∧ nrows (hoppings self') = 2%nat
    ∧ ncols (hoppings self') = 2%nat
    ∧ ∀ i' j', stored (hoppings self') !! (i', j') =
        match [0; 1]%nat !! i', [0; 1]%nat !! j' with
        | Some i, Some j => stored (hoppings chain) !! (i, j)
        | _, _ => None
        end.
Proof.
  apply (getitem_filters_hoppings true chain (Mask [true; true; false])
           [0; 1]%nat).
  - apply chain_well_formed.
  - reflexivity.
  - intros _. split; [apply chain_no_minus_one|constructor].
Defined.

(** *** Why the increment: slicing with and without it *)

Section PlainSlicing.
Variable elide : bool.

Lemma keep_keep (v : Z) : keep elide v ≫= keep elide = keep elide v.
Proof.
  unfold keep. destruct (elide && (v =? 0)%Z) eqn:Hz; simpl; [done|].
  by rewrite Hz.
Qed.

(** Plain indexing by rows and then columns keeps the entry between two
    selected sites only if the library keeps its value. *)
Lemma plain_slice_lookup (m : csr) (idx : index) (ps : list nat) (n : nat) :
  nrows m = n → ncols m = n → resolve n idx = Ok ps →
  ∃ m',
    plain_slice elide m idx = Ok m'
    ∧ ∀ i' j', stored m' !! (i', j') =
        match ps !! i', ps !! j' with
        | Some i, Some j => stored m !! (i, j) ≫= keep elide
        | _, _ => None
        end.
Proof.
  intros Hr Hc Hps.
  pose proof (resolve_bound n idx ps Hps) as Hbound.
  unfold plain_slice.
  destruct (getitem_rows elide m idx) as [r|] eqn:Er.
  2:{ unfold getitem_rows in Er. by rewrite Hr, Hps in Er. }
  destruct (lookup_getitem_rows elide m r idx ps)
    as (Hnr & Hncr & Lr); [by rewrite Hr|done|].
  simpl.
  destruct (getitem_cols elide r idx) as [c|] eqn:Ec.
  2:{ unfold getitem_cols in Ec. by rewrite Hncr, Hc, Hps in Ec. }
  destruct (lookup_getitem_cols elide r c idx ps)
    as (Hnc & Hncc & Lc); [by rewrite Hncr, Hc|done|].
  eexists. split; [done|].
  intros i' j'. rewrite Lc.
  destruct (ps !! j') as [j|] eqn:Hj.
  2:{ destruct (decide _); destruct (ps !! i'); done. }
  assert (j < n)%nat as Hjn.
  { rewrite Forall_forall in Hbound. apply Hbound.
    by eapply list_elem_of_lookup_2. }
  rewrite Lr, Hc. rewrite (decide_True _ _ Hjn).
  destruct (ps !! i') as [i|] eqn:Hi.
  2:{ by destruct (decide _). }
  apply lookup_lt_Some in Hi as Hlt.
  rewrite decide_True by lia.
  destruct (stored m !! (i, j)) as [v|]; simpl; [|done].
  apply keep_keep.
Qed.

(** What the filter keeps in general: every entry between selected sites
    except, when the library drops zeros, an entry holding [-1]. *)
Lemma filter_csr_matrix_lookup_any (m : csr) (idx : index) (ps : list nat)
    (n : nat) :
  nrows m = n → ncols m = n → resolve n idx = Ok ps →
  ∃ m',
    _filter_csr_matrix elide m idx = Ok m'
    ∧ ∀ i' j', stored m' !! (i', j') =
        match ps !! i', ps !! j' with
        | Some i, Some j =>
            stored m !! (i, j) ≫=
              (λ v, if elide && (v =? -1)%Z then None else Some v)
        | _, _ => None
        end.
Proof.
  intros Hr Hc Hps. unfold _filter_csr_matrix.
  destruct (plain_slice_lookup (data_add 1 m) idx ps n Hr Hc Hps)
    as (m' & Em & Lm).
  unfold plain_slice in Em.
  destruct (getitem_rows elide (data_add 1 m) idx) as [r|]; [|done].
  simpl in *. rewrite Em. simpl. eexists. split; [done|].
  intros i' j'. simpl. rewrite lookup_fmap, Lm.
  destruct (ps !! i') as [i|]; [|done].
  destruct (ps !! j') as [j|]; [|done].
  rewrite lookup_fmap.
  destruct (stored m !! (i, j)) as [v|]; simpl; [|done].
  unfold keep.
  replace (v + 1 =? 0)%Z with (v =? -1)%Z
    by (destruct (Z.eqb_spec v (-1)), (Z.eqb_spec (v + 1) 0); lia).
  destruct (elide && (v =? -1)%Z); simpl; [done|]. f_equal. lia.
Qed.
End PlainSlicing.

(** X1. Under a library that drops stored zeros when slicing, plain
    indexing [m[idx][:, idx]] loses a stored zero between two retained sites,
    while [_filter_csr_matrix] returns it as a stored zero. *)
Theorem filter_keeps_the_zero_plain_slicing_drops (m : csr) (idx : index)
    (ps : list nat) (n i' j' i j : nat) :
  nrows m = n → ncols m = n → resolve n idx = Ok ps →
  ps !! i' = Some i → ps !! j' = Some j →
  stored m !! (i, j) = Some 0%Z →
  ∃ plain filtered,
    plain_slice true m idx = Ok plain
    ∧ stored plain !! (i', j') = None
    ∧ _filter_csr_matrix true m idx = Ok filtered
    ∧ stored filtered !! (i', j') = Some 0%Z.
Proof.
  intros Hr Hc Hps Hi Hj Hz.
  destruct (plain_slice_lookup true m idx ps n Hr Hc Hps) as (p & Ep & Lp).
  destruct (filter_csr_matrix_lookup_any true m idx ps n Hr Hc Hps)
    as (f & Ef & Lf).
  exists p, f. split_and!; [done| |done|].
  - by rewrite Lp, Hi, Hj, Hz.
  - by rewrite Lf, Hi, Hj, Hz.
Qed.

Lemma filter_keeps_the_zero_plain_slicing_drops_witness :
  ∃ plain filtered,
    plain_slice true chain_hoppings (Mask [true; true; false]) = Ok plain
    ∧ stored plain !! (0%nat, 1%nat) = None
    ∧ _filter_csr_matrix true chain_hoppings (Mask [true; true; false])
      = Ok filtered
    ∧ stored filtered !! (0%nat, 1%nat) = Some 0%Z.
Proof.
  apply (filter_keeps_the_zero_plain_slicing_drops chain_hoppings
           (Mask [true; true; false]) [0; 1]%nat 3 0 1 0 1);
    reflexivity.
Defined.

(** X2. Under a library that drops stored zeros when slicing, an entry
    holding [-1] between two retained sites is missing from the result of
    [_filter_csr_matrix]: the increment turns it into a zero, which the
    slicing drops. *)
Theorem filter_loses_minus_one (m : csr) (idx : index)
    (ps : list nat) (n i' j' i j : nat) :
  nrows m = n → ncols m = n → resolve n idx = Ok ps →
  ps !! i' = Some i → ps !! j' = Some j →
  stored m !! (i, j) = Some (-1)%Z →
  ∃ filtered,
    _filter_csr_matrix true m idx = Ok filtered
    ∧ stored filtered !! (i', j') = None.
Proof.
  intros Hr Hc Hps Hi Hj Hz.
  destruct (filter_csr_matrix_lookup_any true m idx ps n Hr Hc Hps)
    as (f & Ef & Lf).
  exists f. split; [done|]. by rewrite Lf, Hi, Hj, Hz.
Qed.

Lemma filter_loses_minus_one_witness :
  ∃ filtered,
    _filter_csr_matrix true minus_one_hoppings (Indices [1; 0]%nat)
      = Ok filtered
    ∧ stored filtered !! (1%nat, 0%nat) = None.
Proof.
  apply (filter_loses_minus_one minus_one_hoppings (Indices [1; 0]%nat)
           [1; 0]%nat 2 1 0 0 1);
    reflexivity.
Defined.

(** *** Indexing arrays *)

Lemma lookup_omap_lookup {A} (v : list A) (ps : list nat) (k : nat) :
  Forall (λ p, (p < length v)%nat) ps →
  omap (λ i, v !! i) ps !! k = ps !! k ≫= (λ i, v !! i).
Proof.
  intros Hall. revert k. induction Hall as [|p ps Hp _ IH]; intros k.
  - done.
  - simpl. destruct (lookup_lt_is_Some_2 v p Hp) as [a Ha]. rewrite Ha.
    destruct k as [|k]; simpl; [done|apply IH].
Qed.

(** An index fails to resolve exactly when it is a mask of the wrong
    length or names a position past the end. *)
Lemma resolve_raises_iff (n : nat) (idx : index) :
  resolve n idx = Raise IndexError ↔
  match idx with
  | Mask m => length m ≠ n
  | Indices l => ∃ i, i ∈ l ∧ (n <= i)%nat
  end.
Proof.
  destruct idx as [m|l]; simpl.
  - destruct (Nat.eqb_spec (length m) n); split; try done.
  - destruct (forallb (λ i, i <? n)%nat l) eqn:Hall.
    + split; [done|]. intros (i & Hi & Hge).
      rewrite forallb_forall in Hall.
      specialize (Hall i (proj1 (list_elem_of_In _ _) Hi)).
      apply Nat.ltb_lt in Hall. lia.
    + split; [|done]. intros _.
      assert (¬ Forall (λ i, (i < n)%nat) l) as Hnot.
      { intros HF. rewrite Forall_forall in HF.
        assert (forallb (λ i, i <? n)%nat l = true); [|congruence].
        apply forallb_forall. intros i Hi. apply Nat.ltb_lt, HF.
        by apply list_elem_of_In. }
      apply not_Forall_Exists in Hnot; [|intros i; apply _].
      apply Exists_exists in Hnot as (i & Hi & Hge).
      exists i. split; [done|]. simpl in Hge. lia.
Qed.

Lemma resolve_ok_or_index_error (n : nat) (idx : index) :
  (∃ ps, resolve n idx = Ok ps) ∨ resolve n idx = Raise IndexError.
Proof.
  destruct idx as [m|l]; simpl.
  - destruct (length m =? n)%nat; eauto.
  - destruct (forallb _ l); eauto.
Qed.

(** X3. Indexing a well-formed [SpatialMap] by an index that resolves to
    the sites [ps] returns a map with [length ps] sites whose [k]-th entry
    of the data, of each coordinate and of the sublattices is the entry of
    the original at site [ps[k]]. *)
Theorem spatial_getitem_selects_sites (self : SpatialMap) (idx : index)
    (ps : list nat) :
  spatial_well_formed self →
  resolve (num_sites self) idx = Ok ps →
  ∃ m',
    SpatialMap_getitem self idx = Ok m'
    ∧ num_sites m' = length ps
    ∧ spatial_well_formed m'
    ∧ ∀ k i, ps !! k = Some i →
        data m' !! k = data self !! i
        ∧ x (positions m') !! k = x (positions self) !! i
        ∧ y (positions m') !! k = y (positions self) !! i
        ∧ z (positions m') !! k = z (positions self) !! i
        ∧ sublattices m' !! k = sublattices self !! i.
Proof.
  intros (Hs & Hx & Hy & Hz) Hps.
  pose proof (resolve_bound _ _ _ Hps) as Hb.
  unfold SpatialMap_getitem, getitem_positions.
  destruct (getitem_array_ok (data self) idx ps Hps) as [-> Ld].
  destruct (getitem_array_ok (sublattices self) idx ps) as [-> Ls];
    [by rewrite Hs|].
  destruct (getitem_array_ok (x (positions self)) idx ps) as [-> Lx];
    [by rewrite Hx|].
  destruct (getitem_array_ok (y (positions self)) idx ps) as [-> Ly];
    [by rewrite Hy|].
  destruct (getitem_array_ok (z (positions self)) idx ps) as [-> Lz];
    [by rewrite Hz|].
  simpl. eexists. split; [done|]. unfold spatial_well_formed, num_sites.
  simpl. split_and!; try congruence.
  intros k i Hk.
  rewrite !lookup_omap_lookup, Hk; [done|..];
    by rewrite ?Hs, ?Hx, ?Hy, ?Hz.
Qed.

Lemma line_well_formed : spatial_well_formed line.
Proof. by repeat split. Qed.

Lemma spatial_getitem_selects_sites_witness :
  ∃ m',
    SpatialMap_getitem line (Indices [3; 1]%nat) = Ok m'
    ∧ num_sites m' = 2%nat
    ∧ spatial_well_formed m'
    ∧ ∀ k i, [3; 1]%nat !! k = Some i →
        data m' !! k = data line !! i
        ∧ x (positions m') !! k = x (positions line) !! i
        ∧ y (positions m') !! k = y (positions line) !! i
        ∧ z (positions m') !! k = z (positions line) !! i
        ∧ sublattices m' !! k = sublattices line !! i.
Proof.
  apply (spatial_getitem_selects_sites line (Indices [3; 1]%nat) [3; 1]%nat).
  - apply line_well_formed.
  - reflexivity.
Defined.

Lemma filter_boundaries_total elide (bs : list Boundary) (idx : index)
    (ps : list nat) (n : nat) :
  resolve n idx = Ok ps →
  Forall (λ b, nrows (boundary_hoppings b) = n
               ∧ ncols (boundary_hoppings b) = n) bs →
  ∃ bs', filter_boundaries elide bs idx = Ok bs'.
Proof.
  intros Hps Hshape.
  induction bs as [|b bs IH]; simpl; [by eexists|].
  apply Forall_cons in Hshape as [[Hr Hc] Hshape].
  destruct (filter_csr_matrix_lookup_any elide (boundary_hoppings b) idx ps n)
    as (m' & Em & _); [done..|].
  destruct (IH Hshape) as [bs' Ebs].
  unfold _filter_boundary. rewrite Em. simpl. rewrite Ebs. simpl.
  by eexists.
Qed.

(** X4. Indexing a well-formed [StructureMap] raises [IndexError] exactly
    when the index is a mask whose length is not the number of sites or an
    integer array with an entry past the last site; any other index gives a
    map, whatever the matrices hold. *)
Theorem getitem_raises_iff_index_does_not_fit (elide : bool)
    (self : StructureMap) (idx : index) :
  well_formed self →
  let misfit :=
    match idx with
    | Mask m => length m ≠ num_sites (base self)
    | Indices l => ∃ i, i ∈ l ∧ (num_sites (base self) <= i)%nat
    end in
  (StructureMap_getitem elide self idx = Raise IndexError ↔ misfit)
  ∧ (¬ misfit → ∃ m', StructureMap_getitem elide self idx = Ok m').
Proof.
  intros Hwf misfit.
  assert (resolve (num_sites (base self)) idx = Raise IndexError ↔ misfit)
    as Hiff by apply resolve_raises_iff.
  destruct Hwf as (Hs & Hx & Hy & Hz & Hr & Hc & Hb).
  destruct (resolve_ok_or_index_error (num_sites (base self)) idx)
    as [[ps Hps]|Hraise].
  - assert (¬ misfit) as Hfit.
    { intros Hm. apply Hiff in Hm. congruence. }
    assert (∃ m', StructureMap_getitem elide self idx = Ok m') as [m' Em].
    { unfold StructureMap_getitem.
      destruct (getitem_array_ok (data (base self)) idx ps Hps) as [-> _].
      destruct (getitem_array_ok (sublattices (base self)) idx ps)
        as [-> _]; [by rewrite Hs|].
      destruct (filter_csr_matrix_lookup_any elide (hoppings self) idx ps
                  (num_sites (base self))) as (h' & -> & _); [done..|].
      destruct (filter_boundaries_total elide (boundaries self) idx ps
                  (num_sites (base self))) as [bs' ->]; [done..|].
      destruct (getitem_positions_ok (positions (base self)) idx ps
                  (num_sites (base self))) as [p' ->]; [done..|].
      simpl. by eexists. }
    split; [|by eauto]. rewrite Em. split; [done|tauto].
  - assert (misfit) as Hm by (by apply Hiff).
    split; [|tauto]. split; [done|]. intros _.
    unfold StructureMap_getitem, getitem_array.
    fold (num_sites (base self)). by rewrite Hraise.
Qed.

Lemma getitem_raises_iff_index_does_not_fit_witness :
  (StructureMap_getitem true chain (Indices [0; 3]%nat) = Raise IndexError ↔
   ∃ i, i ∈ [0; 3]%nat ∧ (num_sites (base chain) <= i)%nat)
  ∧ (¬ (∃ i, i ∈ [0; 3]%nat ∧ (num_sites (base chain) <= i)%nat) →
     ∃ m', StructureMap_getitem true chain (Indices [0; 3]%nat) = Ok m').
Proof.
  apply (getitem_raises_iff_index_does_not_fit true chain
           (Indices [0; 3]%nat)).
  apply chain_well_formed.
Defined.

(** *** Cropping *)

Lemma getattr_length (self : SpatialMap) (name : attr) :
  spatial_well_formed self → length (getattr self name) = num_sites self.
Proof. intros (Hs & Hx & Hy & Hz). by destruct name. Qed.

Lemma logical_and_same_length (a b : list bool) :
  length a = length b → logical_and a b = Ok (zip_with andb a b).
Proof. intros Hlen. unfold logical_and. by rewrite Hlen, Nat.eqb_refl. Qed.

(** One round of the loop narrows the mask by the limit. *)
Lemma crop_step_spec (self : SpatialMap) (idx : list bool)
    (limit : attr * (Q * Q)) :
  spatial_well_formed self → length idx = num_sites self →
  ∃ idx',
    crop_step self idx limit = Ok idx'
    ∧ length idx' = num_sites self
    ∧ ∀ i b, idx !! i = Some b →
        idx' !! i = Some (b && within_limit self i limit).
Proof.
  intros Hwf Hlen. unfold crop_step.
  pose proof (getattr_length self limit.1 Hwf) as Hv.
  set (v := getattr self limit.1) in *.
  rewrite logical_and_same_length by (by rewrite length_map, Hv).
  simpl.
  rewrite logical_and_same_length
    by (rewrite length_zip_with, !length_map, Hv, Hlen; lia).
  eexists. split; [done|]. split.
  - rewrite !length_zip_with, !length_map, Hv, Hlen. lia.
  - intros i b Hi.
    assert (i < length v)%nat as Hlt.
    { rewrite Hv, <- Hlen. by eapply lookup_lt_Some. }
    destruct (lookup_lt_is_Some_2 v i Hlt) as [q Hq].
    rewrite !lookup_zip_with, Hi, !list_lookup_fmap. fold v. rewrite Hq.
    simpl. unfold within_limit. fold v. rewrite Hq.
    by rewrite andb_assoc.
Qed.

Lemma crop_mask_spec (self : SpatialMap) (limits : list (attr * (Q * Q))) :
  spatial_well_formed self →
  ∀ idx, length idx = num_sites self →
  ∃ mask,
    crop_mask self idx limits = Ok mask
    ∧ length mask = num_sites self
    ∧ ∀ i b, idx !! i = Some b →
        mask !! i = Some (b && forallb (within_limit self i) limits).
Proof.
  intros Hwf. induction limits as [|limit limits IH]; intros idx Hlen.
  - exists idx. simpl. split_and!; [done..|].
    intros i b ->. by rewrite andb_true_r.
  - simpl.
    destruct (crop_step_spec self idx limit Hwf Hlen)
      as (idx' & -> & Hlen' & Hstep).
    simpl. destruct (IH idx' Hlen') as (mask & -> & Hlm & Hmask).
    exists mask. split_and!; [done..|].
    intros i b Hi. rewrite (Hmask i _ (Hstep i b Hi)).
    by rewrite andb_assoc.
Qed.

(** The positions of a mask are the positions that carry [true]. *)
Lemma mask_positions_filter (f : nat → bool) (m : list bool) (j : nat) :
  (∀ i b, m !! i = Some b → b = f (j + i)%nat) →
  mask_positions j m = filter (λ p, f p = true) (seq j (length m)).
Proof.
  revert j. induction m as [|b m IH]; intros j Hm; [done|].
  simpl. rewrite filter_cons.
  assert (b = f j) as Hb.
  { rewrite <- (Nat.add_0_r j). by apply (Hm 0%nat). }
  rewrite (IH (S j)).
  2:{ intros i b' Hi. rewrite Nat.add_succ_l, <- Nat.add_succ_r.
      by apply (Hm (S i)). }
  rewrite <- Hb. destruct b; by case_decide.
Qed.

Lemma kept_sites_bound (self : SpatialMap) limits :
  Forall (λ p, (p < num_sites self)%nat) (kept_sites self limits).
Proof.
  apply Forall_forall. intros p Hp. unfold kept_sites in Hp.
  apply list_elem_of_filter in Hp as [_ Hp]. apply elem_of_seq in Hp. lia.
Qed.

Lemma resolve_indices_in_range (n : nat) (l : list nat) :
  Forall (λ p, (p < n)%nat) l → resolve n (Indices l) = Ok l.
Proof.
  intros Hall. simpl.
  assert (forallb (λ i, i <? n)%nat l = true) as ->; [|done].
  apply forallb_forall. intros i Hi. apply Nat.ltb_lt.
  rewrite Forall_forall in Hall. apply Hall. by apply list_elem_of_In.
Qed.

(** The mask [cropped] builds selects the kept sites. *)
Lemma crop_mask_resolves (self : SpatialMap) limits :
  spatial_well_formed self →
  ∃ mask,
    crop_mask self (replicate (num_sites self) true) limits = Ok mask
    ∧ resolve (num_sites self) (Mask mask) = Ok (kept_sites self limits).
Proof.
  intros Hwf.
  destruct (crop_mask_spec self limits Hwf
              (replicate (num_sites self) true))
    as (mask & Em & Hlen & Hmask); [apply length_replicate|].
  exists mask. split; [done|]. simpl.
  rewrite Hlen, Nat.eqb_refl. f_equal. unfold kept_sites. rewrite <- Hlen.
  apply mask_positions_filter. intros i b Hi. simpl.
  assert (i < num_sites self)%nat as Hlt.
  { rewrite <- Hlen. by eapply lookup_lt_Some. }
  rewrite (Hmask i true) in Hi by (by apply lookup_replicate_2).
  by injection Hi as <-.
Qed.

(** Indexing looks at an index only through the positions it resolves
    to. *)
Lemma getitem_array_by_positions {A} (v : list A) (idx1 idx2 : index) :
  resolve (length v) idx1 = resolve (length v) idx2 →
  getitem_array v idx1 = getitem_array v idx2.
Proof. intros Heq. unfold getitem_array. by rewrite Heq. Qed.

Lemma spatial_getitem_by_positions (self : SpatialMap) (idx1 idx2 : index) :
  spatial_well_formed self →
  resolve (num_sites self) idx1 = resolve (num_sites self) idx2 →
  SpatialMap_getitem self idx1 = SpatialMap_getitem self idx2.
Proof.
  intros (Hs & Hx & Hy & Hz) Heq.
  unfold SpatialMap_getitem, getitem_positions.
  rewrite (getitem_array_by_positions (data self) idx1 idx2) by done.
  rewrite (getitem_array_by_positions (sublattices self) idx1 idx2)
    by (by rewrite Hs).
  rewrite (getitem_array_by_positions (x (positions self)) idx1 idx2)
    by (by rewrite Hx).
  rewrite (getitem_array_by_positions (y (positions self)) idx1 idx2)
    by (by rewrite Hy).
  rewrite (getitem_array_by_positions (z (positions self)) idx1 idx2)
    by (by rewrite Hz).
  done.
Qed.

(** X5. Cropping a well-formed [SpatialMap] is indexing it by the sites
    that pass every limit, [lo <= v < hi] for each named attribute, in
    their original order. *)
Theorem cropped_is_indexing_by_kept_sites (self : SpatialMap)
    (limits : list (attr * (Q * Q))) :
  spatial_well_formed self →
  SpatialMap_cropped self limits
  = SpatialMap_getitem self (Indices (kept_sites self limits)).
Proof.
  intros Hwf. unfold SpatialMap_cropped.
  destruct (crop_mask_resolves self limits Hwf) as (mask & -> & Hres).
  simpl. apply spatial_getitem_by_positions; [done|].
  rewrite Hres. symmetry. apply resolve_indices_in_range.
  apply kept_sites_bound.
Qed.

Lemma cropped_is_indexing_by_kept_sites_witness :
  SpatialMap_cropped line [(AttrX, (1, 3)%Q)]
  = SpatialMap_getitem line
      (Indices (kept_sites line [(AttrX, (1, 3)%Q)])).
Proof.
  apply (cropped_is_indexing_by_kept_sites line [(AttrX, (1, 3)%Q)]).
  apply line_well_formed.
Defined.

(** The sites in [kept_sites] are the sites whose value of every limited
    attribute lies in the half-open range [lo <= v < hi]. *)
Lemma kept_sites_spec (self : SpatialMap)
    (limits : list (attr * (Q * Q))) (i : nat) :
  i ∈ kept_sites self limits ↔
  (i < num_sites self)%nat
  ∧ ∀ name lo hi, (name, (lo, hi)) ∈ limits →
      ∃ v, getattr self name !! i = Some v ∧ (lo <= v)%Q ∧ (v < hi)%Q.
Proof.
  unfold kept_sites. rewrite list_elem_of_filter, elem_of_seq.
  rewrite forallb_forall.
  assert (∀ limit : attr * (Q * Q),
            within_limit self i limit = true ↔
            ∃ v, getattr self limit.1 !! i = Some v
                 ∧ (limit.2.1 <= v)%Q ∧ (v < limit.2.2)%Q) as Hlim.
  { intros limit. unfold within_limit.
    destruct (getattr self limit.1 !! i) as [v|].
    - rewrite andb_true_iff, negb_true_iff, Qle_bool_iff.
      split.
      + intros [Hlo Hhi]. exists v. split_and!; [done..|].
        apply Qnot_le_lt. intros Hle%Qle_bool_iff. congruence.
      + intros (v' & [= <-] & Hlo & Hhi). split; [done|].
        destruct (Qle_bool limit.2.2 v) eqn:Hb; [|done].
        apply Qle_bool_iff in Hb. apply Qlt_not_le in Hhi. done.
    - split; [done|]. by intros (v & ? & _). }
  split.
  - intros [Hall Hi]. split; [lia|].
    intros name lo hi Hin.
    apply (Hlim (name, (lo, hi))), Hall. by apply list_elem_of_In.
  - intros [Hi Hall]. split; [|lia].
    intros [name [lo hi]] Hin. apply Hlim. simpl.
    apply Hall. by apply list_elem_of_In.
Qed.

(** A filtered range of numbers is increasing. *)
Lemma filter_seq_increasing (P : nat → Prop) `{∀ i, Decision (P i)}
    (n : nat) :
  ∀ (j k k' i i' : nat), (k < k')%nat →
    filter P (seq j n) !! k = Some i →
    filter P (seq j n) !! k' = Some i' → (i < i')%nat.
Proof.
  induction n as [|n IH]; intros j k k' i i' Hk Hi Hi'; [done|].
  simpl in Hi, Hi'. rewrite filter_cons in Hi, Hi'.
  destruct (decide (P j)) as [HP|HP]; [|by eapply IH].
  destruct k' as [|k']; [lia|]. simpl in Hi'.
  destruct k as [|k]; simpl in Hi.
  - injection Hi as <-.
    apply list_elem_of_lookup_2, list_elem_of_filter in Hi' as [_ Hin].
    apply elem_of_seq in Hin. lia.
  - eapply (IH (S j) k k'); [lia|done|done].
Qed.

(** X6. Cropping a well-formed [SpatialMap] returns a map whose sites are
    exactly the original sites whose value of every limited attribute lies
    in the half-open range [lo <= v < hi] (the lower limit included, the
    upper limit not), each once and in the original order: [ps] lists the
    original site of every site of the result. *)
Theorem cropped_keeps_the_sites_within_limits (self : SpatialMap)
    (limits : list (attr * (Q * Q))) :
  spatial_well_formed self →
  ∃ m' ps,
    SpatialMap_cropped self limits = Ok m'
    ∧ num_sites m' = length ps
    ∧ (∀ k k' i i', (k < k')%nat →
         ps !! k = Some i → ps !! k' = Some i' → (i < i')%nat)
    ∧ (∀ i, i ∈ ps ↔
         (i < num_sites self)%nat
         ∧ ∀ name lo hi, (name, (lo, hi)) ∈ limits →
             ∃ v, getattr self name !! i = Some v
                  ∧ (lo <= v)%Q ∧ (v < hi)%Q)
    ∧ ∀ k i, ps !! k = Some i →
        data m' !! k = data self !! i
        ∧ x (positions m') !! k = x (positions self) !! i
        ∧ y (positions m') !! k = y (positions self) !! i
        ∧ z (positions m') !! k = z (positions self) !! i
        ∧ sublattices m' !! k = sublattices self !! i.
Proof.
  intros Hwf.
  destruct (crop_mask_resolves self limits Hwf) as (mask & Em & Hps).
  set (ps := kept_sites self limits) in *.
  destruct Hwf as (Hs & Hx & Hy & Hz).
  unfold SpatialMap_cropped. rewrite Em. simpl.
  unfold SpatialMap_getitem, getitem_positions.
  destruct (getitem_array_ok (data self) (Mask mask) ps Hps) as [-> Ld].
  destruct (getitem_array_ok (sublattices self) (Mask mask) ps) as [-> Ls];
    [by rewrite Hs|].
  destruct (getitem_array_ok (x (positions self)) (Mask mask) ps)
    as [-> Lx]; [by rewrite Hx|].
  destruct (getitem_array_ok (y (positions self)) (Mask mask) ps)
    as [-> Ly]; [by rewrite Hy|].
  destruct (getitem_array_ok (z (positions self)) (Mask mask) ps)
    as [-> Lz]; [by rewrite Hz|].
  simpl. eexists. exists ps. split; [done|]. split_and!.
  - done.
  - apply filter_seq_increasing.
  - apply kept_sites_spec.
  - pose proof (resolve_bound _ _ _ Hps) as Hb.
    intros k i Hk. unfold num_sites. simpl.
    rewrite !lookup_omap_lookup, Hk; [done|..];
      by rewrite ?Hs, ?Hx, ?Hy, ?Hz.
Qed.

Lemma cropped_keeps_the_sites_within_limits_witness :
  ∃ m' ps,
    SpatialMap_cropped line [(AttrX, (1, 3)%Q)] = Ok m'
    ∧ num_sites m' = length ps
    ∧ (∀ k k' i i', (k < k')%nat →
         ps !! k = Some i → ps !! k' = Some i' → (i < i')%nat)
    ∧ (∀ i, i ∈ ps ↔
         (i < num_sites line)%nat
         ∧ ∀ name lo hi, (name, (lo, hi)) ∈ [(AttrX, (1, 3)%Q)] →
             ∃ v, getattr line name !! i = Some v
                  ∧ (lo <= v)%Q ∧ (v < hi)%Q)
    ∧ ∀ k i, ps !! k = Some i →
        data m' !! k = data line !! i
        ∧ x (positions m') !! k = x (positions line) !! i
        ∧ y (positions m') !! k = y (positions line) !! i
        ∧ z (positions m') !! k = z (positions line) !! i
        ∧ sublattices m' !! k = sublattices line !! i.
Proof.
  apply (cropped_keeps_the_sites_within_limits line [(AttrX, (1, 3)%Q)]).
  apply line_well_formed.
Defined.

Lemma filter_all {A} (P : A → Prop) `{∀ a, Decision (P a)} (l : list A) :
  Forall P l → filter P l = l.
Proof.
  induction 1 as [|a l Ha _ IH]; [done|].
  rewrite filter_cons_True by done. by rewrite IH.
Qed.

Lemma omap_lookup_seq {A} (v : list A) :
  omap (λ i, v !! i) (seq 0 (length v)) = v.
Proof.
  apply list_eq. intros k.
  rewrite lookup_omap_lookup.
  2:{ apply Forall_forall. intros p Hp%elem_of_seq. lia. }
  destruct (decide (k < length v)%nat) as [Hlt|Hge].
  - by rewrite lookup_seq_lt.
  - rewrite lookup_seq_ge by lia. simpl. symmetry.
    apply lookup_ge_None. lia.
Qed.

(** X7. Cropping a well-formed [SpatialMap] with no limit returns a map
    equal to the original. *)
Theorem cropped_without_limits_is_identity (self : SpatialMap) :
  spatial_well_formed self → SpatialMap_cropped self [] = Ok self.
Proof.
  intros Hwf. unfold SpatialMap_cropped. simpl.
  rewrite (spatial_getitem_by_positions self _
             (Indices (seq 0 (num_sites self))) Hwf).
  2:{ rewrite resolve_indices_in_range.
      - simpl. rewrite length_replicate, Nat.eqb_refl. f_equal.
        rewrite (mask_positions_filter (λ _, true)).
        + rewrite length_replicate. apply filter_all.
          by apply Forall_forall.
        + intros i b Hi. by apply lookup_replicate_1 in Hi as [-> _].
      - apply Forall_forall. intros p Hp%elem_of_seq. lia. }
  destruct Hwf as (Hs & Hx & Hy & Hz).
  assert (omap (λ i, data self !! i) (seq 0 (num_sites self)) = data self)
    as Ed by apply omap_lookup_seq.
  assert (omap (λ i, sublattices self !! i) (seq 0 (num_sites self))
          = sublattices self) as Es
    by (rewrite <- Hs; apply omap_lookup_seq).
  assert (omap (λ i, x (positions self) !! i) (seq 0 (num_sites self))
          = x (positions self)) as Ex
    by (rewrite <- Hx; apply omap_lookup_seq).
  assert (omap (λ i, y (positions self) !! i) (seq 0 (num_sites self))
          = y (positions self)) as Ey
    by (rewrite <- Hy; apply omap_lookup_seq).
  assert (omap (λ i, z (positions self) !! i) (seq 0 (num_sites self))
          = z (positions self)) as Ez
    by (rewrite <- Hz; apply omap_lookup_seq).
  unfold SpatialMap_getitem, getitem_positions, getitem_array.
  change (length (data self)) with (num_sites self).
  rewrite Hs, Hx, Hy, Hz.
  rewrite !resolve_indices_in_range
    by (apply Forall_forall; intros p Hp%elem_of_seq; lia).
  simpl. rewrite Ed, Es, Ex, Ey, Ez.
  destruct self as [d [px py pz] s]. done.
Qed.

Lemma cropped_without_limits_is_identity_witness :
  SpatialMap_cropped line [] = Ok line.
Proof.
  apply (cropped_without_limits_is_identity line). apply line_well_formed.
Defined.

Lemma filter_csr_matrix_by_positions elide (m : csr) (idx1 idx2 : index)
    (n : nat) :
  nrows m = n → ncols m = n → resolve n idx1 = resolve n idx2 →
  _filter_csr_matrix elide m idx1 = _filter_csr_matrix elide m idx2.
Proof.
  intros Hr Hc Heq. unfold _filter_csr_matrix, getitem_rows. simpl.
  rewrite Hr, Heq.
  destruct (resolve n idx2) as [ps|e] eqn:E2; [|done]. simpl.
  unfold getitem_cols. simpl. by rewrite Hc, Heq, E2.
Qed.

Lemma filter_boundaries_by_positions elide (bs : list Boundary)
    (idx1 idx2 : index) (n : nat) :
  Forall (λ b, nrows (boundary_hoppings b) = n
               ∧ ncols (boundary_hoppings b) = n) bs →
  resolve n idx1 = resolve n idx2 →
  filter_boundaries elide bs idx1 = filter_boundaries elide bs idx2.
Proof.
  intros Hshape Heq. induction Hshape as [|b bs [Hr Hc] _ IH]; [done|].
  simpl. unfold _filter_boundary.
  rewrite (filter_csr_matrix_by_positions elide _ idx1 idx2 n) by done.
  by rewrite IH.
Qed.

(** X8. Cropping a well-formed [StructureMap] is indexing it by the sites
    that pass every limit: data, positions, sublattices, hoppings and
    boundaries are all cut down to the same sites. *)
Theorem structure_cropped_is_indexing_by_kept_sites (elide : bool)
    (self : StructureMap) (limits : list (attr * (Q * Q))) :
  well_formed self →
  StructureMap_cropped elide self limits
  = StructureMap_getitem elide self
      (Indices (kept_sites (base self) limits)).
Proof.
  intros (Hs & Hx & Hy & Hz & Hr & Hc & Hb).
  assert (spatial_well_formed (base self)) as Hwf by done.
  unfold StructureMap_cropped.
  destruct (crop_mask_resolves (base self) limits Hwf)
    as (mask & -> & Hres).
  simpl.
  assert (resolve (num_sites (base self)) (Mask mask)
          = resolve (num_sites (base self))
              (Indices (kept_sites (base self) limits))) as Heq.
  { rewrite Hres. symmetry. apply resolve_indices_in_range.
    apply kept_sites_bound. }
  unfold StructureMap_getitem, getitem_positions.
  rewrite (getitem_array_by_positions (data (base self)) _ _ Heq).
  rewrite (getitem_array_by_positions (sublattices (base self))
             (Mask mask) (Indices (kept_sites (base self) limits)))
    by (by rewrite Hs).
  rewrite (filter_csr_matrix_by_positions elide (hoppings self)
             (Mask mask) (Indices (kept_sites (base self) limits))
             (num_sites (base self))) by done.
  rewrite (filter_boundaries_by_positions elide (boundaries self)
             (Mask mask) (Indices (kept_sites (base self) limits))
             (num_sites (base self))) by done.
  rewrite (getitem_array_by_positions (x (positions (base self)))
             (Mask mask) (Indices (kept_sites (base self) limits)))
    by (by rewrite Hx).
  rewrite (getitem_array_by_positions (y (positions (base self)))
             (Mask mask) (Indices (kept_sites (base self) limits)))
    by (by rewrite Hy).
  rewrite (getitem_array_by_positions (z (positions (base self)))
             (Mask mask) (Indices (kept_sites (base self) limits)))
    by (by rewrite Hz).
  done.
Qed.

Lemma structure_cropped_is_indexing_by_kept_sites_witness :
  StructureMap_cropped true chain [(AttrX, (0, 2)%Q)]
  = StructureMap_getitem true chain
      (Indices (kept_sites (base chain) [(AttrX, (0, 2)%Q)])).
Proof.
  apply (structure_cropped_is_indexing_by_kept_sites true chain
           [(AttrX, (0, 2)%Q)]).
  apply chain_well_formed.
Defined.

(** *** Clipping *)




(** *** More on [to_radii] *)

(** X10. When [to_radii] returns per-site radii for finite data, there is
    one radius per site, and a site holding a smallest value gets [r_min]
    exactly, rounding notwithstanding, provided [r_max - r_min] is finite:
    the shifted value is a zero, and so are its product with the difference
    and the quotient. *)
Theorem to_radii_smallest_gets_r_min (data : list float)
    (r_min r_max : float) (rs : list float) :
  Forall (λ v, finite v) data →
  finite (r_max - r_min) → is_nan r_min = false →
  to_radii (MinMax r_min r_max) data = Ok (PerSite rs) →
  length rs = length data
  ∧ ∀ i v, data !! i = Some v →
      (∀ w, w ∈ data → (v <=? w)%float = true) →
      ∃ r, rs !! i = Some r ∧ (r =? r_min)%float = true.
Proof.
  intros Hfin Hdelta Hr Hres.
  assert (data ≠ []) as Hne.
  { intros ->. by vm_compute in Hres. }
  destruct (to_radii_cases data r_min r_max Hne)
    as (m & maximum & Emin & Emax & Hmin & (wmax & Hwmax & ->) & Eres).
  rewrite Eres in Hres.
  destruct (PrimFloat.abs (wmax - m) <=? 1e-8)%float eqn:Hclose; [done|].
  injection Hres as <-.
  pose proof (finite_not_nan_all data Hfin) as Hnan.
  rewrite Forall_forall in Hfin, Hnan.
  split; [apply length_map|].
  intros i v Hi Hv. rewrite list_lookup_fmap, Hi. simpl.
  eexists. split; [done|].
  assert (v ∈ data) as Hvin by (by eapply list_elem_of_lookup_2).
  assert (Binary64.key (Prim2SF v) = Binary64.key (Prim2SF m)) as Hkey.
  { apply FloatFacts.leb_antisym_key; [by apply Hnan|by apply Hnan|by apply Hv|].
    eapply array_min_le; [|exact Emin|exact Hvin].
    by apply Forall_forall. }
  pose proof (Hfin v Hvin) as Hvf. pose proof (Hfin m Hmin) as Hmf.
  pose proof (Hfin wmax Hwmax) as Hwf.
  pose proof (FloatFacts.sub_finite_not_nan wmax m Hwf Hmf) as Hmaxnan.
  rewrite FloatFacts.is_finite_spec in Hvf, Hmf, Hdelta.
  rewrite FloatFacts.is_nan_spec in Hr, Hmaxnan.
  rewrite FloatAxioms.leb_spec, abs_spec in Hclose.
  rewrite FloatAxioms.eqb_spec, add_spec, div_spec, mul_spec.
  rewrite (sub_spec v m).
  apply FloatFacts.SFadd_zero_r; [done|].
  apply FloatFacts.SFdiv_zero_l; [|by destruct (Prim2SF (wmax - m))|done].
  apply FloatFacts.SFmul_zero_r; [done|]. by apply FloatFacts.SFsub_same_key.
Qed.

Lemma to_radii_smallest_gets_r_min_witness :
  length [0.03 + (0.05 - 0.03) * (1 - 1) / (3 - 1);
          0.03 + (0.05 - 0.03) * (2 - 1) / (3 - 1);
          0.03 + (0.05 - 0.03) * (3 - 1) / (3 - 1)]%float
  = length [1; 2; 3]%float
  ∧ ∀ i v, [1; 2; 3]%float !! i = Some v →
      (∀ w, w ∈ [1; 2; 3]%float → (v <=? w)%float = true) →
      ∃ r, [0.03 + (0.05 - 0.03) * (1 - 1) / (3 - 1);
            0.03 + (0.05 - 0.03) * (2 - 1) / (3 - 1);
            0.03 + (0.05 - 0.03) * (3 - 1) / (3 - 1)]%float !! i = Some r
           ∧ (r =? 0.03)%float = true.
Proof.
  apply (to_radii_smallest_gets_r_min [1; 2; 3]%float 0.03 0.05).
  - by repeat constructor.
  - reflexivity.
  - reflexivity.
  - reflexivity.
Defined.

(** X11. [to_radii] raises only [ValueError], and exactly when the radius
    is a pair and the data array is empty: a single radius is returned as it
    is for any data. *)
Theorem to_radii_raises_iff_pair_and_empty (site_radius_ : site_radius)
    (data : list float) (e : exn) :
  to_radii site_radius_ data = Raise e ↔
  e = ValueError ∧ data = [] ∧ ∃ r_min r_max, site_radius_ = MinMax r_min r_max.
Proof.
  destruct site_radius_ as [r|r0 r1].
  - split; [done|]. by intros (_ & _ & ? & ? & ?).
  - destruct data as [|v data].
    + simpl. split.
      * intros [= <-]. eauto.
      * by intros (-> & _).
    + split; [|by intros (_ & ? & _)].
      destruct (to_radii_cases (v :: data) r0 r1)
        as (m & mx & _ & _ & _ & _ & ->); [done|].
      by destruct (PrimFloat.abs mx <=? 1e-8)%float.
Qed.

End ResultsFacts.

(* ===================================================================== *)
(** ** Facts about [AssertFigure] *)
(* ===================================================================== *)

Module CompareFiguresFacts.
Import CompareFigures.

(** Splits a [NoDup] hypothesis over an explicit list into the pairwise
    inequalities of its members. *)
Ltac split_nodup :=
  repeat match goal with
         | H : NoDup (_ :: _) |- _ => apply NoDup_cons in H as [? H]
         end;
  repeat match goal with
         | H : _ ∉ _ :: _ |- _ => apply not_elem_of_cons in H as [? H]
         end.

Section Harness.
Context {request : Type}.
Variable path_from_fixture : request → string → string → string → string.
Variable tmpdir : string.
Variable in_tmpdir : string → bool.
Variable diff_filename : string → string.
Variable compare_images : image → image → nat → comparison.
Variable strip_text : image → image.
Variable style : gmap string string.

Abbreviation AF := (AssertFigure request).
Abbreviation A self := (actual_path path_from_fixture tmpdir self).
Abbreviation B self := (baseline_path path_from_fixture self).
Abbreviation R self v := (reportfile path_from_fixture self v).
Abbreviation block := (compare_block path_from_fixture tmpdir diff_filename
                     compare_images).
Abbreviation exit_ := (__exit__ path_from_fixture tmpdir in_tmpdir
                     diff_filename compare_images strip_text).
Abbreviation separate := (paths_separate path_from_fixture tmpdir in_tmpdir
                        diff_filename).
Abbreviation scope := (with_statement path_from_fixture tmpdir in_tmpdir
                     diff_filename compare_images strip_text style).

Lemma lookup_cleanup (f : gmap string image) (p : string) (i : image) :
  f !! p = Some i → in_tmpdir p = false →
  cleanup in_tmpdir f !! p = Some i.
Proof.
  intros Hp Hin. unfold cleanup. by apply map_lookup_filter_Some.
Qed.

Lemma lookup_cleanup_inside (f : gmap string image) (p : string) :
  in_tmpdir p = true → cleanup in_tmpdir f !! p = None.
Proof.
  intros Hin. unfold cleanup. apply map_lookup_filter_None. right.
  intros i _. simpl. congruence.
Qed.

(** First run: the rendered image becomes the baseline. *)
Lemma compare_block_no_baseline (self : AF) (g : globals) :
  separate self → files g !! B self = None →
  ∃ f, block self g = (set_passed self true, f, Returned)
       ∧ f !! B self = Some (figure g).
Proof.
  intros (Hnd & _) Hnone. split_nodup.
  unfold compare_block.
  rewrite lookup_insert_ne by done. rewrite Hnone.
  unfold copyfile. rewrite lookup_insert_eq. simpl.
  eexists. split; [done|].
  rewrite !lookup_delete_ne by done. apply lookup_insert_eq.
Qed.

(** A reported mismatch: the three images are copied, then the
    assertion fails. *)
Lemma compare_block_mismatch (self : AF) (g : globals) (b d : image) :
  separate self → files g !! B self = Some b →
  compare_images b (figure g) (tol self) = Mismatch d →
  ∃ f, block self g
         = (self, f, Raised (AssertionError mismatch_message))
       ∧ f !! R self "_actual" = Some (figure g)
       ∧ f !! R self "_baseline" = Some b
       ∧ f !! R self "_diff" = Some d.
Proof.
  intros (Hnd & _) Hb Hcmp. split_nodup.
  unfold compare_block.
  rewrite lookup_insert_ne by done. rewrite Hb, Hcmp.
  unfold report, copyfile. simpl.
  rewrite lookup_insert_ne by done. rewrite lookup_insert_eq.
  rewrite !lookup_insert_ne by done. rewrite Hb.
  rewrite !lookup_insert_ne by done. rewrite lookup_insert_eq.
  eexists. split; [done|]. split_and!.
  - rewrite !lookup_insert_ne by done. apply lookup_insert_eq.
  - rewrite lookup_insert_ne by done. apply lookup_insert_eq.
  - apply lookup_insert_eq.
Qed.

(** Images that could not even be compared count as a mismatch, without
    a difference image. *)
Lemma compare_block_broadcast (self : AF) (g : globals) (b : image)
    (msg : string) :
  separate self → files g !! B self = Some b →
  compare_images b (figure g) (tol self) = CompareValueError msg →
  mentions_broadcast msg = true →
  ∃ f, block self g
         = (self, f, Raised (AssertionError mismatch_message))
       ∧ f !! R self "_actual" = Some (figure g)
       ∧ f !! R self "_baseline" = Some b.
Proof.
  intros (Hnd & _) Hb Hcmp Hmsg. split_nodup.
  unfold compare_block.
  rewrite lookup_insert_ne by done. rewrite Hb, Hcmp, Hmsg.
  unfold report, copyfile. simpl.
  rewrite lookup_insert_eq.
  rewrite !lookup_insert_ne by done. rewrite Hb.
  eexists. split; [done|]. split_and!.
  - rewrite !lookup_insert_ne by done. apply lookup_insert_eq.
  - apply lookup_insert_eq.
Qed.
(** *** [__exit__] after the comparison *)

Abbreviation stripped := (stripped strip_text).

Lemma stripped_figure (self : AF) (g : globals) :
  figure (stripped self g) = rendered strip_text self g.
Proof. unfold CompareFigures.stripped, rendered. by destruct (remove_text self). Qed.

Lemma stripped_files (self : AF) (g : globals) :
  files (stripped self g) = files g.
Proof. unfold CompareFigures.stripped. by destruct (remove_text self). Qed.

Lemma stripped_style (self : AF) (g : globals) :
  rcParams (stripped self g) = rcParams g
  ∧ registry (stripped self g) = registry g
  ∧ open_figures (stripped self g) = open_figures g.
Proof. unfold CompareFigures.stripped. by destruct (remove_text self). Qed.

(** When the comparison raises, [__exit__] only empties the temporary
    directory: the figure stays open and the style stays as it is. *)
Lemma exit_when_block_raises (self s : AF) (g : globals)
    (f : gmap string image) (e : exn) :
  block self (stripped self g) = (s, f, Raised e) →
  exit_ self false g
    = (s, set_files (stripped self g) (cleanup in_tmpdir f), Raised e).
Proof.
  intros Hb. unfold __exit__. by rewrite Hb.
Qed.

(** When the comparison returns, [__exit__] closes the figure and
    restores the style. *)
Lemma exit_when_block_returns (self s : AF) (g : globals)
    (f : gmap string image) :
  block self (stripped self g) = (s, f, Returned) →
  exit_ self false g
    = (s,
       _exit_style s
         (set_open_figures
            (set_files (stripped self g) (cleanup in_tmpdir f))
            (pred (open_figures (stripped self g)))),
       Returned).
Proof.
  intros Hb. unfold __exit__. by rewrite Hb.
Qed.

(** [__enter__] changes neither the identity of the test nor the
    options of the comparison. *)
Lemma enter_keeps_options (self : AF) (g : globals) :
  let self1 := (__enter__ style self g).1 in
  request_ self1 = request_ self ∧ ext self1 = ext self
  ∧ tol self1 = tol self ∧ remove_text self1 = remove_text self
  ∧ passed self1 = passed self.
Proof. done. Qed.

Lemma scope_body_returns (self : AF) (g g2 : globals)
    (body : globals → globals * bool) :
  body (__enter__ style self g).2 = (g2, false) →
  scope self body g = exit_ (__enter__ style self g).1 false g2.
Proof.
  intros Hbody. unfold with_statement.
  destruct (__enter__ style self g) as [self1 g1]. simpl in *.
  by rewrite Hbody.
Qed.

Lemma scope_body_raises (self : AF) (g g2 : globals)
    (body : globals → globals * bool) :
  body (__enter__ style self g).2 = (g2, true) →
  scope self body g = ((__enter__ style self g).1, g2, Raised BodyError).
Proof.
  intros Hbody. unfold with_statement.
  destruct (__enter__ style self g) as [self1 g1]. simpl in *.
  by rewrite Hbody.
Qed.

(** C8. In a scope whose body completes without exception: without a
    baseline at the derived path, the rendered image is copied to the
    baseline path and the scope ends normally (with [passed] set); with a
    baseline that the comparison reports as different, the actual, the
    expected and the difference image are copied to the failure location
    and [AssertionError] is raised; when the comparison could not
    broadcast the two images there is no difference image, and the other
    two are copied before the [AssertionError]. The paths involved are
    different files and the baseline and failure locations lie outside
    the temporary directory. *)
Theorem scope_adopts_baseline_or_reports_mismatch (self : AF)
    (g g2 : globals) (body : globals → globals * bool) :
  separate self →
  body (__enter__ style self g).2 = (g2, false) →
  let self1 := (__enter__ style self g).1 in
  let img := rendered strip_text self g2 in
  (files g2 !! B self = None →
     ∃ g', scope self body g = (set_passed self1 true, g', Returned)
           ∧ files g' !! B self = Some img)
  ∧ (∀ b d, files g2 !! B self = Some b →
       compare_images b img (tol self) = Mismatch d →
       ∃ g', scope self body g
               = (self1, g', Raised (AssertionError mismatch_message))
             ∧ files g' !! R self "_actual" = Some img
             ∧ files g' !! R self "_baseline" = Some b
             ∧ files g' !! R self "_diff" = Some d)
  ∧ (∀ b msg, files g2 !! B self = Some b →
       compare_images b img (tol self) = CompareValueError msg →
       mentions_broadcast msg = true →
       ∃ g', scope self body g
               = (self1, g', Raised (AssertionError mismatch_message))
             ∧ files g' !! R self "_actual" = Some img
             ∧ files g' !! R self "_baseline" = Some b).
Proof.
  intros Hsep Hbody self1 img.
  assert (separate self1) as Hsep1 by exact Hsep.
  destruct Hsep as (_ & HB & HRA & HRB & HRD).
  rewrite (scope_body_returns self g g2 body Hbody). fold self1.
  assert (figure (stripped self1 g2) = img) as Hfig
    by apply stripped_figure.
  split_and!.
  - intros Hnone.
    destruct (compare_block_no_baseline self1 (stripped self1 g2) Hsep1)
      as (f & Hblock & Hf); [by rewrite stripped_files|].
    rewrite (exit_when_block_returns _ _ _ _ Hblock).
    eexists. split; [done|]. simpl.
    apply lookup_cleanup; [by rewrite <- Hfig|done].
  - intros b d Hb Hcmp.
    destruct (compare_block_mismatch self1 (stripped self1 g2) b d Hsep1)
      as (f & Hblock & HfA & HfB & HfD);
      [by rewrite stripped_files|by rewrite Hfig|].
    rewrite (exit_when_block_raises _ _ _ _ _ Hblock).
    eexists. split; [done|]. simpl. rewrite Hfig in HfA.
    split_and!; by apply lookup_cleanup.
  - intros b msg Hb Hcmp Hmsg.
    destruct (compare_block_broadcast self1 (stripped self1 g2) b msg
                Hsep1)
      as (f & Hblock & HfA & HfB);
      [by rewrite stripped_files|by rewrite Hfig|done|].
    rewrite (exit_when_block_raises _ _ _ _ _ Hblock).
    eexists. split; [done|]. simpl. rewrite Hfig in HfA.
    split_and!; by apply lookup_cleanup.
Qed.
(** *** What every path of [__exit__] does *)

Lemma lookup_cleanup_outside (f : gmap string image) (p : string) :
  in_tmpdir p = false → cleanup in_tmpdir f !! p = f !! p.
Proof.
  intros Hin. destruct (f !! p) as [i|] eqn:Hp.
  - by apply lookup_cleanup.
  - unfold cleanup. apply map_lookup_filter_None. by left.
Qed.

(** The comparison returns the object it was given, with [passed] set or
    not. *)
Lemma block_returns_same_object (self s : AF) (g : globals)
    (f : gmap string image) (r : outcome) :
  block self g = (s, f, r) → s = self ∨ s = set_passed self true.
Proof.
  unfold compare_block, report, copyfile.
  repeat case_match; intros [= <- _ _]; auto.
Qed.

Lemma exit_unfold (self : AF) (g : globals) :
  exit_ self false g
  = let '(s, f, r) := block self (stripped self g) in
    match r with
    | Raised e => (s, set_files (stripped self g) (cleanup in_tmpdir f),
                   Raised e)
    | Returned =>
        (s,
         _exit_style s
           (set_open_figures
              (set_files (stripped self g) (cleanup in_tmpdir f))
              (pred (open_figures (stripped self g)))),
         Returned)
    end.
Proof. unfold __exit__. by destruct (block self (stripped self g)) as [[s f] []]. Qed.

(** X19. Whenever the scope ends normally, the two style tables are
    exactly those of the moment of entry, whatever the style sheet and the
    body did to them. *)
Theorem scope_that_returns_restores_style (self s : AF) (g g' : globals)
    (body : globals → globals * bool) :
  scope self body g = (s, g', Returned) →
  rcParams g' = rcParams g ∧ registry g' = registry g.
Proof.
  destruct (body (__enter__ style self g).2) as [g2 raised] eqn:Hbody.
  destruct raised.
  - by rewrite (scope_body_raises self g g2 body Hbody).
  - rewrite (scope_body_returns self g g2 body Hbody), exit_unfold.
    set (self1 := (__enter__ style self g).1).
    destruct (block self1 (stripped self1 g2)) as [[s0 f] r] eqn:Hblock.
    destruct r as [|e]; [|done]. intros [= <- <-].
    apply block_returns_same_object in Hblock as [->| ->]; simpl;
      by rewrite !(right_id_L ∅ (∪)).
Qed.

(** X20. After a scope whose body completed, nothing is left inside the
    temporary directory, however the comparison ended. *)
Theorem scope_leaves_no_temporary_file (self s : AF) (g g2 g' : globals)
    (body : globals → globals * bool) (r : outcome) (p : string) :
  body (__enter__ style self g).2 = (g2, false) →
  scope self body g = (s, g', r) →
  in_tmpdir p = true →
  files g' !! p = None.
Proof.
  intros Hbody Hscope Hin.
  rewrite (scope_body_returns self g g2 body Hbody), exit_unfold in Hscope.
  destruct (block _ _) as [[s0 f] r0].
  destruct r0; injection Hscope as <- <- <-; simpl;
    by apply lookup_cleanup_inside.
Qed.

(** X21. A [ValueError] of the comparison that does not speak of
    broadcasting leaves the scope as it is: no report is written, and no
    file outside the temporary directory changes. *)
Theorem other_value_error_propagates (self : AF) (g g2 : globals)
    (body : globals → globals * bool) (b : image) (msg : string) :
  separate self →
  body (__enter__ style self g).2 = (g2, false) →
  files g2 !! B self = Some b →
  compare_images b (rendered strip_text self g2) (tol self)
    = CompareValueError msg →
  mentions_broadcast msg = false →
  ∃ g', scope self body g
          = ((__enter__ style self g).1, g', Raised (ValueError msg))
        ∧ ∀ p, in_tmpdir p = false → p ≠ A self →
            files g' !! p = files g2 !! p.
Proof.
  intros (Hnd & _) Hbody Hb Hcmp Hmsg. split_nodup.
  rewrite (scope_body_returns self g g2 body Hbody), exit_unfold.
  set (self1 := (__enter__ style self g).1).
  assert (block self1 (stripped self1 g2)
          = (self1, <[A self := rendered strip_text self g2]> (files g2),
             Raised (ValueError msg))) as ->.
  { unfold compare_block.
    rewrite stripped_figure, stripped_files.
    change (actual_path path_from_fixture tmpdir self1) with (A self).
    change (baseline_path path_from_fixture self1) with (B self).
    rewrite lookup_insert_ne by done. rewrite Hb.
    change (rendered strip_text self1 g2) with (rendered strip_text self g2).
    change (tol self1) with (tol self).
    by rewrite Hcmp, Hmsg. }
  eexists. split; [done|]. simpl. intros p Hout Hne.
  rewrite lookup_cleanup_outside by done.
  by rewrite lookup_insert_ne.
Qed.

(** X22. A matching baseline: the scope ends normally, [passed] stays as
    it was, and no file outside the temporary directory changes. *)
Theorem matching_baseline_passes_silently (self : AF) (g g2 : globals)
    (body : globals → globals * bool) (b : image) :
  separate self →
  body (__enter__ style self g).2 = (g2, false) →
  files g2 !! B self = Some b →
  compare_images b (rendered strip_text self g2) (tol self) = Match →
  ∃ g', scope self body g = ((__enter__ style self g).1, g', Returned)
        ∧ passed (__enter__ style self g).1 = passed self
        ∧ ∀ p, in_tmpdir p = false → p ≠ A self →
            files g' !! p = files g2 !! p.
Proof.
  intros (Hnd & _) Hbody Hb Hcmp. split_nodup.
  rewrite (scope_body_returns self g g2 body Hbody), exit_unfold.
  set (self1 := (__enter__ style self g).1).
  assert (block self1 (stripped self1 g2)
          = (self1, <[A self := rendered strip_text self g2]> (files g2),
             Returned)) as ->.
  { unfold compare_block.
    rewrite stripped_figure, stripped_files.
    change (actual_path path_from_fixture tmpdir self1) with (A self).
    change (baseline_path path_from_fixture self1) with (B self).
    rewrite lookup_insert_ne by done. rewrite Hb.
    change (rendered strip_text self1 g2) with (rendered strip_text self g2).
    change (tol self1) with (tol self).
    by rewrite Hcmp. }
  eexists. split; [done|]. split; [done|]. simpl. intros p Hout Hne.
  rewrite lookup_cleanup_outside by done.
  by rewrite lookup_insert_ne.
Qed.

(** X23. On a first run the scope removes the failure reports an earlier
    run may have left. *)
Theorem first_run_clears_old_reports (self s : AF) (g g2 g' : globals)
    (body : globals → globals * bool) (r : outcome) :
  separate self →
  body (__enter__ style self g).2 = (g2, false) →
  files g2 !! B self = None →
  scope self body g = (s, g', r) →
  files g' !! R self "_actual" = None
  ∧ files g' !! R self "_baseline" = None
  ∧ files g' !! R self "_diff" = None.
Proof.
  intros (Hnd & _ & HRA & HRB & HRD) Hbody Hb. split_nodup.
  rewrite (scope_body_returns self g g2 body Hbody), exit_unfold.
  set (self1 := (__enter__ style self g).1).
  assert (block self1 (stripped self1 g2)
          = (set_passed self1 true,
             delete (R self "_diff")
               (delete (R self "_baseline")
                  (delete (R self "_actual")
                     (<[B self := rendered strip_text self g2]>
                        (<[A self := rendered strip_text self g2]>
                           (files g2))))),
             Returned)) as ->.
  { unfold compare_block.
    rewrite stripped_figure, stripped_files.
    change (actual_path path_from_fixture tmpdir self1) with (A self).
    change (baseline_path path_from_fixture self1) with (B self).
    rewrite lookup_insert_ne by done. rewrite Hb.
    unfold copyfile. by rewrite lookup_insert_eq. }
  intros [= <- <- <-]. simpl.
  rewrite !lookup_cleanup_outside by done.
  split_and!.
  - rewrite !lookup_delete_ne by done. apply lookup_delete_eq.
  - rewrite lookup_delete_ne by done. apply lookup_delete_eq.
  - apply lookup_delete_eq.
Qed.

(** X24. A baseline that exists is never overwritten: whatever the
    comparison finds, the baseline file holds the same image after the
    scope. *)
Theorem existing_baseline_is_kept (self s : AF) (g g2 g' : globals)
    (body : globals → globals * bool) (r : outcome) (b : image) :
  separate self →
  body (__enter__ style self g).2 = (g2, false) →
  files g2 !! B self = Some b →
  scope self body g = (s, g', r) →
  files g' !! B self = Some b.
Proof.
  intros (Hnd & HB & _) Hbody Hb. split_nodup.
  rewrite (scope_body_returns self g g2 body Hbody), exit_unfold.
  set (self1 := (__enter__ style self g).1).
  destruct (block self1 (stripped self1 g2)) as [[s0 f] r0] eqn:Hblock.
  assert (f !! B self = Some b) as Hf.
  { revert Hblock. unfold compare_block, report, copyfile.
    rewrite stripped_files.
    change (actual_path path_from_fixture tmpdir self1) with (A self).
    change (baseline_path path_from_fixture self1) with (B self).
    change (reportfile path_from_fixture self1) with
      (reportfile path_from_fixture self).
    rewrite lookup_insert_ne by done. rewrite Hb.
    repeat case_match; simplify_eq; intros [= _ <- _];
      by rewrite ?lookup_insert_ne by done. }
  destruct r0; intros [= <- <- <-]; simpl; by apply lookup_cleanup.
Qed.

End Harness.

(** *** The sample harness *)

Lemma sample_paths_separate :
  paths_separate sample_path sample_tmpdir sample_in_tmpdir
    sample_diff_filename sample_figure.
Proof.
  split; [|by vm_compute].
  apply (bool_decide_unpack _). by vm_compute.
Qed.

Lemma scope_adopts_baseline_or_reports_mismatch_witness :
  let self1 :=
    (__enter__ sample_style sample_figure sample_globals_with_baseline).1 in
  let img := rendered sample_strip sample_figure sample_after_body in
  (files sample_after_body !! baseline_path sample_path sample_figure = None →
     ∃ g', sample_scope drawing_body sample_globals_with_baseline
             = (set_passed self1 true, g', Returned)
           ∧ files g' !! baseline_path sample_path sample_figure = Some img)
  ∧ (∀ b d,
       files sample_after_body !! baseline_path sample_path sample_figure
         = Some b →
       sample_compare b img (tol sample_figure) = Mismatch d →
       ∃ g', sample_scope drawing_body sample_globals_with_baseline
               = (self1, g', Raised (AssertionError mismatch_message))
             ∧ files g' !! reportfile sample_path sample_figure "_actual"
               = Some img
             ∧ files g' !! reportfile sample_path sample_figure "_baseline"
               = Some b
             ∧ files g' !! reportfile sample_path sample_figure "_diff"
               = Some d)
  ∧ (∀ b msg,
       files sample_after_body !! baseline_path sample_path sample_figure
         = Some b →
       sample_compare b img (tol sample_figure) = CompareValueError msg →
       mentions_broadcast msg = true →
       ∃ g', sample_scope drawing_body sample_globals_with_baseline
               = (self1, g', Raised (AssertionError mismatch_message))
             ∧ files g' !! reportfile sample_path sample_figure "_actual"
               = Some img
             ∧ files g' !! reportfile sample_path sample_figure "_baseline"
               = Some b).
Proof.
  apply (scope_adopts_baseline_or_reports_mismatch sample_path sample_tmpdir
           sample_in_tmpdir sample_diff_filename sample_compare sample_strip
           sample_style sample_figure sample_globals_with_baseline
           sample_after_body drawing_body).
  - apply sample_paths_separate.
  - reflexivity.
Defined.

(** C7, at the failing inputs. In the sample session the style tables on
    entry name the backend [TkAgg]. When the body raises, the scope ends
    with the body's exception and the tables still name [Agg]; when the
    image differs from the baseline, the scope ends with [AssertionError],
    the tables still name [Agg] and the figure is still open. Only the
    scope that ends normally has the tables of the entry again. *)
Theorem style_not_restored_on_failure :
  (∃ s g, sample_scope raising_body sample_globals = (s, g, Raised BodyError)
          ∧ rcParams sample_globals !! "backend" = Some "TkAgg"
          ∧ rcParams g !! "backend" = Some "Agg"
          ∧ rcParams g ≠ _original_rc s)
  ∧ (∃ s g, sample_scope drawing_body sample_globals_with_baseline
              = (s, g, Raised (AssertionError mismatch_message))
            ∧ rcParams sample_globals_with_baseline !! "backend"
              = Some "TkAgg"
            ∧ rcParams g !! "backend" = Some "Agg"
            ∧ rcParams g ≠ _original_rc s
            ∧ open_figures g = 1%nat)
  ∧ (∃ s g, sample_scope drawing_body sample_globals = (s, g, Returned)
            ∧ rcParams g = rcParams sample_globals
            ∧ open_figures g = 0%nat).
Proof.
  split_and!.
  - eexists _, _. split; [by vm_compute|]. split_and!; [done..|].
    intros Heq. apply (f_equal (λ m, m !! "backend")) in Heq.
    vm_compute in Heq. discriminate.
  - eexists _, _. split; [by vm_compute|]. split_and!; [done..| |done].
    intros Heq. apply (f_equal (λ m, m !! "backend")) in Heq.
    vm_compute in Heq. discriminate.
  - eexists _, _. split; [by vm_compute|]. split; [|done].
    by vm_compute.
Qed.

Lemma scope_that_returns_restores_style_witness :
  rcParams (sample_scope drawing_body sample_globals).1.2
    = rcParams sample_globals
  ∧ registry (sample_scope drawing_body sample_globals).1.2
    = registry sample_globals.
Proof.
  apply (scope_that_returns_restores_style sample_path sample_tmpdir
           sample_in_tmpdir sample_diff_filename sample_compare sample_strip
           sample_style sample_figure
           (sample_scope drawing_body sample_globals).1.1
           sample_globals
           (sample_scope drawing_body sample_globals).1.2
           drawing_body).
  by vm_compute.
Defined.

Lemma scope_leaves_no_temporary_file_witness :
  files (sample_scope drawing_body sample_globals_with_baseline).1.2
    !! "tmp/t.png" = None.
Proof.
  apply (scope_leaves_no_temporary_file sample_path sample_tmpdir
           sample_in_tmpdir sample_diff_filename sample_compare sample_strip
           sample_style sample_figure
           (sample_scope drawing_body sample_globals_with_baseline).1.1
           sample_globals_with_baseline
           (sample_after sample_globals_with_baseline)
           (sample_scope drawing_body sample_globals_with_baseline).1.2
           drawing_body
           (sample_scope drawing_body sample_globals_with_baseline).2).
  - reflexivity.
  - by vm_compute.
  - reflexivity.
Defined.

Lemma other_value_error_propagates_witness :
  ∃ g', with_statement sample_path sample_tmpdir sample_in_tmpdir
          sample_diff_filename failing_compare sample_strip sample_style
          sample_figure drawing_body sample_globals_with_baseline
        = ((__enter__ sample_style sample_figure
              sample_globals_with_baseline).1, g',
           Raised (ValueError "cannot read image"))
        ∧ ∀ p, sample_in_tmpdir p = false →
            p ≠ actual_path sample_path sample_tmpdir sample_figure →
            files g' !! p
            = files (sample_after sample_globals_with_baseline) !! p.
Proof.
  apply (other_value_error_propagates sample_path sample_tmpdir
           sample_in_tmpdir sample_diff_filename failing_compare sample_strip
           sample_style sample_figure sample_globals_with_baseline
           (sample_after sample_globals_with_baseline) drawing_body 7).
  - apply sample_paths_separate.
  - reflexivity.
  - reflexivity.
  - reflexivity.
  - reflexivity.
Defined.

Lemma matching_baseline_passes_silently_witness :
  ∃ g', sample_scope drawing_body sample_globals_matching
        = ((__enter__ sample_style sample_figure sample_globals_matching).1,
           g', Returned)
        ∧ passed (__enter__ sample_style sample_figure
                    sample_globals_matching).1 = passed sample_figure
        ∧ ∀ p, sample_in_tmpdir p = false →
            p ≠ actual_path sample_path sample_tmpdir sample_figure →
            files g' !! p = files (sample_after sample_globals_matching) !! p.
Proof.
  apply (matching_baseline_passes_silently sample_path sample_tmpdir
           sample_in_tmpdir sample_diff_filename sample_compare sample_strip
           sample_style sample_figure sample_globals_matching
           (sample_after sample_globals_matching) drawing_body 5).
  - apply sample_paths_separate.
  - reflexivity.
  - reflexivity.
  - reflexivity.
Defined.

Lemma first_run_clears_old_reports_witness :
  files (sample_scope drawing_body sample_globals).1.2
    !! reportfile sample_path sample_figure "_actual" = None
  ∧ files (sample_scope drawing_body sample_globals).1.2
    !! reportfile sample_path sample_figure "_baseline" = None
  ∧ files (sample_scope drawing_body sample_globals).1.2
    !! reportfile sample_path sample_figure "_diff" = None.
Proof.
  apply (first_run_clears_old_reports sample_path sample_tmpdir
           sample_in_tmpdir sample_diff_filename sample_compare sample_strip
           sample_style sample_figure
           (sample_scope drawing_body sample_globals).1.1
           sample_globals (sample_after sample_globals)
           (sample_scope drawing_body sample_globals).1.2
           drawing_body (sample_scope drawing_body sample_globals).2).
  - apply sample_paths_separate.
  - reflexivity.
  - reflexivity.
  - by vm_compute.
Defined.

Lemma existing_baseline_is_kept_witness :
  files (sample_scope drawing_body sample_globals_with_baseline).1.2
    !! baseline_path sample_path sample_figure = Some 7%nat.
Proof.
  apply (existing_baseline_is_kept sample_path sample_tmpdir
           sample_in_tmpdir sample_diff_filename sample_compare sample_strip
           sample_style sample_figure
           (sample_scope drawing_body sample_globals_with_baseline).1.1
           sample_globals_with_baseline
           (sample_after sample_globals_with_baseline)
           (sample_scope drawing_body sample_globals_with_baseline).1.2
           drawing_body
           (sample_scope drawing_body sample_globals_with_baseline).2).
  - apply sample_paths_separate.
  - reflexivity.
  - reflexivity.
  - by vm_compute.
Defined.

End CompareFiguresFacts.
